(** * node-gammu-json: the polling pipeline and the reassembly engine

    A shallow embedding of the gateway object ([exports.prototype]) and
    proofs about its three phases (receive, delete, transmit), its
    multi-part reassembly engine, its option handling and its public
    calls ([send], [on], [start], [stop]).

    JavaScript objects that the code mutates through several references
    (message records, outbound items) live in a store and are named by
    references; objects used as dictionaries ([_deletion_index],
    [_segment_cache], the reassembly indices) are ordered key/value
    tables with string keys, as property names are in JavaScript.

    The helper subprocess and the embedder are outside the code: what
    [gammu-json] prints is an argument of each phase, and a handler is
    known by what it passes to its callback, which it calls before it
    returns.  Numbers are integers.  Every call made to the embedder
    is recorded in [events]. *)

From Stdlib Require Import ZArith Lia Ascii String.
From stdpp Require Import base option list strings pretty.

Open Scope Z_scope.

Set Warnings "-register-all".

(** ** Exceptions *)

Inductive js_error :=
  | TypeError
  | Error (msg : string).

Inductive result (A : Type) :=
  | Ok (a : A)
  | Err (e : js_error).
Arguments Ok {A} a.
Arguments Err {A} e.

Definition bind {A B : Type} (r : result A) (k : A -> result B) : result B :=
  match r with
  | Ok a => k a
  | Err e => Err e
  end.

Notation "'do' x <- r ; k" := (bind r (fun x => k))
  (at level 10, x pattern, r at level 100, k at level 200).

(** ** Objects used as dictionaries

    Property names are strings.  [for (k in o)] and [_.keys(o)] walk
    the table in the engine's order: array-index names (canonical
    decimal numerals below 2^32 - 1) in ascending numeric order first,
    every other name after them in order of creation. *)

Module JsObj.

Definition t (V : Type) := list (string * V).

Definition empty {V : Type} : t V := [].

Definition digit_of (c : ascii) : option N :=
  let n := N_of_ascii c in
  if ((48 <=? n) && (n <=? 57))%N then Some (n - 48)%N else None.

Fixpoint parse_digits (acc : N) (s : string) : option N :=
  match s with
  | EmptyString => Some acc
  | String c s' =>
      match digit_of c with
      | Some d => parse_digits (10 * acc + d)%N s'
      | None => None
      end
  end.

(** [array_index k] is [Some n] when [k] is the canonical numeral of
    an array index [n]. *)
Definition array_index (k : string) : option N :=
  match k with
  | EmptyString => None
  | _ =>
      match parse_digits 0%N k with
      | Some n =>
          if (String.eqb (pretty n) k && (n <? 4294967295)%N)%bool
          then Some n else None
      | None => None
      end
  end.

Fixpoint get {V : Type} (k : string) (o : t V) : option V :=
  match o with
  | [] => None
  | (k', v) :: o' => if String.eqb k k' then Some v else get k o'
  end.

Definition has {V : Type} (k : string) (o : t V) : bool :=
  match get k o with Some _ => true | None => false end.

(** Overwrite the value of an existing property, keeping its place. *)
Fixpoint replace {V : Type} (k : string) (v : V) (o : t V) : t V :=
  match o with
  | [] => []
  | (k', v') :: o' =>
      if String.eqb k k' then (k', v) :: o' else (k', v') :: replace k v o'
  end.

(** Create the array-index property [k] (numeral of [n]): it goes
    before the first name that is not an array index or is a larger
    one. *)
Fixpoint insert_index {V : Type} (n : N) (k : string) (v : V) (o : t V) : t V :=
  match o with
  | [] => [(k, v)]
  | (k', v') :: o' =>
      match array_index k' with
      | Some n' =>
          if (n' <? n)%N then (k', v') :: insert_index n k v o'
          else (k, v) :: (k', v') :: o'
      | None => (k, v) :: (k', v') :: o'
      end
  end.

(** [o[k] = v]. *)
Definition set {V : Type} (k : string) (v : V) (o : t V) : t V :=
  if has k o then replace k v o
  else match array_index k with
       | Some n => insert_index n k v o
       | None => o ++ [(k, v)]
       end.

(** The names, in enumeration order. *)
Definition keys {V : Type} (o : t V) : list string := map fst o.

(** [_.isEmpty(o)]. *)
Definition isEmpty {V : Type} (o : t V) : bool :=
  match o with [] => true | _ => false end.

End JsObj.

(** ** Values held by message records *)

(** A reference to a message record of the store. *)
Abbreviation ref := nat.

(** The [location] property: a modem slot number, [false] once
    [_schedule_message_for_deletion] has cleared it, or the array built
    for a composite (whose elements are whatever the parts carried). *)
Inductive locval :=
  | LocNum (n : Z)
  | LocFalse
  | LocList (l : list locval).

(** The [segment] property: a number, or [false] on a composite. *)
Inductive segval :=
  | SegNum (n : Z)
  | SegFalse.

(** The [id] property: absent on single-part records, a string on
    segments, [false] on a composite. *)
Inductive idval :=
  | IdUndefined
  | IdFalse
  | IdStr (s : string).

(** A time-stamp property: absent, the helper's text (standing for the
    instant [t] it denotes), or a [moment] object for the instant [t]. *)
Inductive tsval :=
  | TsUndefined
  | TsRaw (t : Z)
  | TsMoment (t : Z).

(** A message record.  Numbers are integers; [total_segments] is a
    number on every record, [udh] may be absent, and [parts] exists on
    composites only. *)
Record message := Message {
  location : locval;
  from : string;
  content : string;
  udh : option Z;
  segment : segval;
  total_segments : Z;
  timestamp : tsval;
  smsc_timestamp : tsval;
  id : idval;
  parts : option (list ref)
}.

(** What a store cell of an unallocated reference reads as. *)
Definition blank_message : message :=
  Message LocFalse EmptyString EmptyString None SegFalse 0 TsUndefined TsUndefined
    IdUndefined None.

#[global] Instance message_inhabited : Inhabited message := populate blank_message.

Abbreviation heap := (list message).

(** Something handed to the engine as a candidate segment: a record of
    the store, or a value that is not an object. *)
Inductive jsval :=
  | VObj (r : ref)
  | VNotObj.

(** [String(v)] for the values used as property names. *)
Fixpoint loc_key (v : locval) : string :=
  match v with
  | LocNum n => pretty n
  | LocFalse => "false"
  | LocList l =>
      (fix join (l : list locval) : string :=
         match l with
         | [] => EmptyString
         | [x] => loc_key x
         | x :: l' => loc_key x +:+ "," +:+ join l'
         end) l
  end.

Definition id_key (i : idval) : string :=
  match i with
  | IdUndefined => "undefined"
  | IdFalse => "false"
  | IdStr s => s
  end.

(** [a == b] on identifiers.  The identifiers the transform builds
    contain two dashes, so none of them coerces to a number. *)
Definition id_eqb (a b : idval) : bool :=
  match a, b with
  | IdUndefined, IdUndefined => true
  | IdFalse, IdFalse => true
  | IdStr s, IdStr s' => String.eqb s s'
  | _, _ => false
  end.

Definition ts_truthy (v : tsval) : bool :=
  match v with TsUndefined => false | _ => true end.

(** [moment(v)]: the current instant for an absent value. *)
Definition moment (now : Z) (v : tsval) : Z :=
  match v with
  | TsUndefined => now
  | TsRaw t => t
  | TsMoment t => t
  end.

(** [a.isBefore(b)]: only a [moment] object has the method. *)
Definition isBefore (now : Z) (a b : tsval) : result bool :=
  match a with
  | TsMoment t => Ok (t <? moment now b)
  | _ => Err TypeError
  end.

(** ** Outbound items, helper replies, events *)

Abbreviation oref := nat.

Module Out.

(** What [send] pushes on the work queue; [callback] tells whether a
    function was supplied. *)
Record item := Item {
  to : string;
  tx_attempts : Z;
  content : string;
  callback : bool
}.

Definition blank : item := Item EmptyString 0 EmptyString false.

Definition set_tx_attempts (n : Z) (m : item) : item :=
  Item (to m) n (content m) (callback m).

End Out.

#[global] Instance out_item_inhabited : Inhabited Out.item := populate Out.blank.

Module Tx.

(** One element of the array printed by [gammu-json send]. *)
Record t := Make {
  index : Z;
  result : string
}.

End Tx.

(** What [_subprocess] hands to its callback. *)
Inductive reply (A : Type) :=
  | ExitError
  | Parsed (rv : A).
Arguments ExitError {A}.
Arguments Parsed {A} rv.

(** How a phase ends: its callback is called without or with an
    error, or an exception escapes and the callback is never called. *)
Inductive phase_end :=
  | Finished
  | Failed (e : js_error)
  | Thrown (e : js_error).

(** Calls made to the embedder, in order of occurrence. *)
Inductive event :=
  | EvReceive (m : ref)
  | EvReceiveSegment (m : ref)
  | EvReturnSegments (i : idval)
  | EvReleaseSegments (i : idval)
  | EvTransmit (m : oref) (r : Tx.t)
  | EvCallback (m : oref) (e : option js_error)
  | EvErrorGlobal (e : js_error)
  | EvErrorReceive (e : js_error) (m : ref)
  | EvErrorTransmit (e : js_error) (m : oref).

(** What a [return_segments] handler passes to its callback: an error,
    or a value (absent, not an array, or an array) whose elements may
    be records it has just built ([fresh], appended to the store). *)
Inductive segments_val :=
  | SegsUndefined
  | SegsNotArray
  | SegsArray (l : list jsval).

Inductive return_reply :=
  | ReturnError (e : js_error)
  | Returned (fresh : list message) (v : segments_val).

(** The handler table.  The embedder's functions are known by what
    they answer: [on_receive] and [on_receive_segment] tell whether the
    handler calls back with an error. *)
Record handlers := Handlers {
  on_receive : option (heap -> ref -> option js_error);
  on_transmit : bool;
  on_error : bool;
  on_receive_segment : option (heap -> ref -> option js_error);
  on_return_segments : option (heap -> idval -> return_reply);
  on_release_segments : bool
}.

Definition no_handlers : handlers := Handlers None false false None None false.

(** ** The instance *)

Record state := State {
  _handlers : handlers;
  _inbound_queue : list ref;
  _outbound_queue : list oref;
  _deletion_index : JsObj.t ref;
  _segment_cache : JsObj.t (list ref);
  _debug_enabled : bool;
  _is_polling : bool;
  _poll_interval : Z;
  _transmit_batch_size : Z;
  _delete_batch_size : Z;
  _tx_attempt_limit : Z;
  store : heap;
  out_store : list Out.item;
  events : list event
}.

Definition set_handlers (v : handlers) (s : state) : state :=
  State v (_inbound_queue s) (_outbound_queue s) (_deletion_index s)
    (_segment_cache s) (_debug_enabled s) (_is_polling s) (_poll_interval s)
    (_transmit_batch_size s) (_delete_batch_size s) (_tx_attempt_limit s)
    (store s) (out_store s) (events s).

Definition set_inbound_queue (v : list ref) (s : state) : state :=
  State (_handlers s) v (_outbound_queue s) (_deletion_index s)
    (_segment_cache s) (_debug_enabled s) (_is_polling s) (_poll_interval s)
    (_transmit_batch_size s) (_delete_batch_size s) (_tx_attempt_limit s)
    (store s) (out_store s) (events s).

Definition set_outbound_queue (v : list oref) (s : state) : state :=
  State (_handlers s) (_inbound_queue s) v (_deletion_index s)
    (_segment_cache s) (_debug_enabled s) (_is_polling s) (_poll_interval s)
    (_transmit_batch_size s) (_delete_batch_size s) (_tx_attempt_limit s)
    (store s) (out_store s) (events s).

Definition set_deletion_index (v : JsObj.t ref) (s : state) : state :=
  State (_handlers s) (_inbound_queue s) (_outbound_queue s) v
    (_segment_cache s) (_debug_enabled s) (_is_polling s) (_poll_interval s)
    (_transmit_batch_size s) (_delete_batch_size s) (_tx_attempt_limit s)
    (store s) (out_store s) (events s).

Definition set_segment_cache (v : JsObj.t (list ref)) (s : state) : state :=
  State (_handlers s) (_inbound_queue s) (_outbound_queue s) (_deletion_index s)
    v (_debug_enabled s) (_is_polling s) (_poll_interval s)
    (_transmit_batch_size s) (_delete_batch_size s) (_tx_attempt_limit s)
    (store s) (out_store s) (events s).

Definition set_is_polling (v : bool) (s : state) : state :=
  State (_handlers s) (_inbound_queue s) (_outbound_queue s) (_deletion_index s)
    (_segment_cache s) (_debug_enabled s) v (_poll_interval s)
    (_transmit_batch_size s) (_delete_batch_size s) (_tx_attempt_limit s)
    (store s) (out_store s) (events s).

Definition set_store (v : heap) (s : state) : state :=
  State (_handlers s) (_inbound_queue s) (_outbound_queue s) (_deletion_index s)
    (_segment_cache s) (_debug_enabled s) (_is_polling s) (_poll_interval s)
    (_transmit_batch_size s) (_delete_batch_size s) (_tx_attempt_limit s)
    v (out_store s) (events s).

Definition set_out_store (v : list Out.item) (s : state) : state :=
  State (_handlers s) (_inbound_queue s) (_outbound_queue s) (_deletion_index s)
    (_segment_cache s) (_debug_enabled s) (_is_polling s) (_poll_interval s)
    (_transmit_batch_size s) (_delete_batch_size s) (_tx_attempt_limit s)
    (store s) v (events s).

(** Record a call made to the embedder. *)
Definition emit (e : event) (s : state) : state :=
  State (_handlers s) (_inbound_queue s) (_outbound_queue s) (_deletion_index s)
    (_segment_cache s) (_debug_enabled s) (_is_polling s) (_poll_interval s)
    (_transmit_batch_size s) (_delete_batch_size s) (_tx_attempt_limit s)
    (store s) (out_store s) (events s ++ [e]).

(** ** [create] and the public calls *)

Module Opt.

(** An option value: a number, or one of the values that are neither
    numbers nor truthy. *)
Inductive val :=
  | Undefined
  | Null
  | BoolFalse
  | EmptyString
  | Num (n : Z).

Definition truthy (v : val) : bool :=
  match v with
  | Num n => negb (n =? 0)
  | _ => false
  end.

Definition isNumber (v : val) : bool :=
  match v with
  | Num _ => true
  | _ => false
  end.

Definition number (v : val) (otherwise : Z) : Z :=
  match v with
  | Num n => n
  | _ => otherwise
  end.

Record t := Make {
  interval : val;
  transmit_batch_size : val;
  delete_batch_size : val;
  max_transmit_attempts : val;
  debug : val
}.

(** [{}] *)
Definition none : t := Make Undefined Undefined Undefined Undefined Undefined.

End Opt.

Definition initialize (options : Opt.t) : state :=
  {| _handlers := no_handlers;
     _inbound_queue := [];
     _outbound_queue := [];
     _deletion_index := JsObj.empty;
     _segment_cache := JsObj.empty;
     _debug_enabled := Opt.truthy (Opt.debug options);
     _is_polling := false;
     _poll_interval :=
       if Opt.isNumber (Opt.interval options)
       then Opt.number (Opt.interval options) 0 * 1000 else 5000;
     _transmit_batch_size :=
       if Opt.truthy (Opt.transmit_batch_size options)
       then Opt.number (Opt.transmit_batch_size options) 64 else 64;
     _delete_batch_size :=
       if Opt.truthy (Opt.delete_batch_size options)
       then Opt.number (Opt.delete_batch_size options) 1024 else 1024;
     _tx_attempt_limit :=
       if Opt.isNumber (Opt.max_transmit_attempts options)
       then Opt.number (Opt.max_transmit_attempts options) 2 else 2;
     store := [];
     out_store := [];
     events := [] |}.

(** Arguments of [send] as the caller may pass them. *)
Inductive send_arg :=
  | ArgString (s : string)
  | ArgOther.

Inductive callback_arg :=
  | CbAbsent
  | CbFunction
  | CbOther.

Definition send (st : state) (_to _message : send_arg) (_transmit_callback : callback_arg)
  : result state :=
  match _transmit_callback, _to, _message with
  | CbOther, _, _ => Err (Error "Callback, if provided, must be a function")
  | _, ArgOther, _ => Err (Error "Destination must be supplied as a string")
  | _, _, ArgOther => Err (Error "Message text must be supplied as a string")
  | cb, ArgString t, ArgString c =>
      let m := Out.Item t 0 c (match cb with CbFunction => true | _ => false end) in
      Ok (set_outbound_queue (_outbound_queue st ++ [length (out_store st)])
            (set_out_store (out_store st ++ [m]) st))
  end.

Definition _start_polling (st : state) : state := set_is_polling true st.
Definition _stop_polling (st : state) : state := set_is_polling false st.

(** A function of the embedder, known by what it answers in each of
    the roles in which the instance waits for an answer. *)
Record callback_fn := Fn {
  as_receive : heap -> ref -> option js_error;
  as_receive_segment : heap -> ref -> option js_error;
  as_return_segments : heap -> idval -> return_reply
}.

(** A value passed to [on] as a handler. *)
Inductive callback_val :=
  | NotAFunction
  | AFunction (f : callback_fn).

Definition _all_events : JsObj.t Z :=
  [("receive", 1); ("transmit", 2); ("error", 3);
   ("receive_segment", 4); ("return_segments", 5); ("release_segments", 6)].

(** [_all_events] is an object literal, so reading a name it does not
    hold finds what every object inherits, all of it truthy. *)
Definition inherited : list string :=
  ["constructor"; "toString"; "toLocaleString"; "valueOf"; "hasOwnProperty";
   "isPrototypeOf"; "propertyIsEnumerable"; "__proto__";
   "__defineGetter__"; "__defineSetter__"; "__lookupGetter__"; "__lookupSetter__"].

(** [this._all_events[_event]] is truthy. *)
Definition known_event (_event : string) : bool :=
  match JsObj.get _event _all_events with
  | Some n => negb (n =? 0)
  | None => bool_decide (_event ∈ inherited)
  end.

(** [_handlers[_event] = f], as the notifications will read the table:
    they read the six names of [_all_events] and no other. *)
Definition set_handler (_event : string) (f : callback_fn) (hs : handlers) : handlers :=
  if String.eqb _event "receive" then
    Handlers (Some (as_receive f)) (on_transmit hs) (on_error hs)
      (on_receive_segment hs) (on_return_segments hs) (on_release_segments hs)
  else if String.eqb _event "transmit" then
    Handlers (on_receive hs) true (on_error hs)
      (on_receive_segment hs) (on_return_segments hs) (on_release_segments hs)
  else if String.eqb _event "error" then
    Handlers (on_receive hs) (on_transmit hs) true
      (on_receive_segment hs) (on_return_segments hs) (on_release_segments hs)
  else if String.eqb _event "receive_segment" then
    Handlers (on_receive hs) (on_transmit hs) (on_error hs)
      (Some (as_receive_segment f)) (on_return_segments hs) (on_release_segments hs)
  else if String.eqb _event "return_segments" then
    Handlers (on_receive hs) (on_transmit hs) (on_error hs)
      (on_receive_segment hs) (Some (as_return_segments f)) (on_release_segments hs)
  else if String.eqb _event "release_segments" then
    Handlers (on_receive hs) (on_transmit hs) (on_error hs)
      (on_receive_segment hs) (on_return_segments hs) true
  else hs.

Definition _register_single_event (st : state) (_event : string) (_callback : callback_val)
  : result state :=
  match _callback with
  | NotAFunction => Err (Error "Event callback must be a function")
  | AFunction f =>
      if known_event _event
      then Ok (set_handlers (set_handler _event f (_handlers st)) st)
      else Err (Error "Invalid event specified")
  end.

(** The first argument of [on]: an object (its properties in
    enumeration order), a string, or something else. *)
Inductive event_arg :=
  | EventObject (o : JsObj.t callback_val)
  | EventString (s : string)
  | EventOther.

(** The loop of [on] over the properties of an object: the instance
    as the loop leaves it, and the exception that ends it early. *)
Fixpoint register_each (st : state) (o : JsObj.t callback_val) : state * option js_error :=
  match o with
  | [] => (st, None)
  | (name, v) :: o' =>
      match _register_single_event st name v with
      | Ok st' => register_each st' o'
      | Err e => (st, Some e)
      end
  end.

Definition on (st : state) (_event : event_arg) (_callback : callback_val)
  : state * option js_error :=
  match _event with
  | EventObject o => register_each st o
  | EventString s =>
      match _register_single_event st s _callback with
      | Ok st' => (st', None)
      | Err e => (st, Some e)
      end
  | EventOther => (st, Some (Error "Event name has an invalid type"))
  end.

(** ** Notifications *)

Definition _notify_global_error (st : state) (e : js_error) : state :=
  if on_error (_handlers st) then emit (EvErrorGlobal e) st else st.

Definition _notify_release_segments (st : state) (i : idval) : state :=
  if on_release_segments (_handlers st) then emit (EvReleaseSegments i) st else st.

(** Outbound items have no [id], so the release branch is not taken. *)
Definition _notify_transmit (st : state) (m : oref) (r : Tx.t) : state :=
  let st1 :=
    if Out.callback (out_store st !!! m) then emit (EvCallback m None) st else st in
  if on_transmit (_handlers st1) then emit (EvTransmit m r) st1 else st1.

Definition _notify_receive_error (st : state) (e : js_error) (m : ref) : state :=
  if on_error (_handlers st) then emit (EvErrorReceive e m) st else st.

Definition _notify_transmit_error (st : state) (e : js_error) (m : oref) : state :=
  let st1 :=
    if Out.callback (out_store st !!! m) then emit (EvCallback m (Some e)) st else st in
  if on_error (_handlers st1) then emit (EvErrorTransmit e m) st1 else st1.

(** ** The outbound pipeline *)

Fixpoint transmission_args_from (batch : Z) (os : list Out.item) (i : Z) (msgs : list oref)
  : list string :=
  match msgs with
  | [] => []
  | m :: rest =>
      if batch <=? i + 1 then []
      else Out.to (os !!! m) :: Out.content (os !!! m)
             :: transmission_args_from batch os (i + 1) rest
  end.

Definition _create_message_transmission_args (st : state) (_messages : list oref)
  : list string :=
  transmission_args_from (_transmit_batch_size st) (out_store st) 0 _messages.

(** [a[i]] for a number [i]. *)
Definition array_get {A : Type} (a : list A) (i : Z) : option A :=
  if i <? 0 then None else a !! Z.to_nat i.

(** The iterator of [_deliver_transmit_results], for one result. *)
Definition deliver_transmit_result (st : state) (sent_indices : JsObj.t bool) (_r : Tx.t)
  : result (state * JsObj.t bool) :=
  let queue_index := Tx.index _r - 1 in
  match array_get (_outbound_queue st) queue_index with
  | None => Err TypeError
  | Some message =>
      if negb (String.eqb (Tx.result _r) "success") then
        let limit := _tx_attempt_limit st in
        let item := out_store st !!! message in
        let attempts := if Out.tx_attempts item =? 0 then 1 else Out.tx_attempts item in
        if (limit =? 0) || (attempts <? limit) then
          Ok (set_out_store
                (<[message := Out.set_tx_attempts (attempts + 1) item]> (out_store st)) st,
              sent_indices)
        else
          Ok (_notify_transmit_error st (Error "Failed to transmit") message, sent_indices)
      else
        Ok (_notify_transmit st message _r,
            JsObj.set (pretty queue_index) true sent_indices)
  end.

Fixpoint deliver_transmit_loop (st : state) (sent_indices : JsObj.t bool) (rs : list Tx.t)
  : state * JsObj.t bool * option js_error :=
  match rs with
  | [] => (st, sent_indices, None)
  | r :: rs' =>
      match deliver_transmit_result st sent_indices r with
      | Ok (st', sent') => deliver_transmit_loop st' sent' rs'
      | Err e => (st, sent_indices, Some e)
      end
  end.

(** [_.reject(queue, function (_msg, _i) { return sent_indices[_i]; })] *)
Fixpoint reject_sent (sent_indices : JsObj.t bool) (i : Z) (q : list oref) : list oref :=
  match q with
  | [] => []
  | m :: q' =>
      match JsObj.get (pretty i) sent_indices with
      | Some true => reject_sent sent_indices (i + 1) q'
      | _ => m :: reject_sent sent_indices (i + 1) q'
      end
  end.

Definition _deliver_transmit_results (st : state) (_results : list Tx.t) : state * phase_end :=
  match deliver_transmit_loop st JsObj.empty _results with
  | (st1, _, Some e) => (st1, Thrown e)
  | (st1, sent_indices, None) =>
      (set_outbound_queue (reject_sent sent_indices 0 (_outbound_queue st1)) st1, Finished)
  end.

Definition subprocess_error : js_error := Error "Subprocess exited with non-zero status".

(** The argument vector handed to [_subprocess] by [_transmit_messages]. *)
Definition transmit_argv (st : state) : list string :=
  "send" :: _create_message_transmission_args st (_outbound_queue st).

Definition _transmit_messages (st : state) (helper : reply (list Tx.t)) : state * phase_end :=
  match _outbound_queue st with
  | [] => (st, Finished)
  | _ =>
      match helper with
      | ExitError => (st, Failed subprocess_error)
      | Parsed _rv => _deliver_transmit_results st _rv
      end
  end.

(** ** The deletion pipeline *)

Definition set_location (v : locval) (m : message) : message :=
  Message v (from m) (content m) (udh m) (segment m) (total_segments m)
    (timestamp m) (smsc_timestamp m) (id m) (parts m).

(** [_.isArray(locations) ? locations : [ locations ]] *)
Definition locations_of (v : locval) : list locval :=
  match v with
  | LocList l => l
  | _ => [v]
  end.

Definition _message_index_add (h : heap) (_message : ref) (_index : JsObj.t ref)
  : JsObj.t ref :=
  fold_left (fun ix loc => JsObj.set (loc_key loc) _message ix)
    (locations_of (location (h !!! _message))) _index.

Definition _message_index_lookup (h : heap) (_message : ref) (_index : JsObj.t ref)
  : option ref :=
  JsObj.get (loc_key (location (h !!! _message))) _index.

Definition _schedule_message_for_deletion (st : state) (_message : ref) : state :=
  let st1 :=
    set_deletion_index
      (_message_index_add (store st) _message (_deletion_index st)) st in
  set_store (<[_message := set_location LocFalse (store st1 !!! _message)]> (store st1)) st1.

Fixpoint deletion_args_from (batch : Z) (i : Z) (ks : list string) : list string :=
  match ks with
  | [] => []
  | k :: rest =>
      if batch <=? i + 1 then []
      else k :: deletion_args_from batch (i + 1) rest
  end.

Definition _create_message_deletion_args (st : state) (_deletion_index : JsObj.t ref)
  : list string :=
  deletion_args_from (_delete_batch_size st) 0 (JsObj.keys _deletion_index).

(** The argument vector handed to [_subprocess] by [_delete_messages]. *)
Definition delete_argv (st : state) : list string :=
  "delete" :: _create_message_deletion_args st (_deletion_index st).

(** The body of the loop over the old index in [_delete_messages]. *)
Definition keep_undeleted (h : heap) (detail : JsObj.t string)
  (undeleted_messages : JsObj.t ref) (entry : string * ref) : JsObj.t ref :=
  let '(i, message) := entry in
  match JsObj.get i detail with
  | Some "ok" => undeleted_messages
  | _ => _message_index_add h message undeleted_messages
  end.

Definition _delete_messages (st : state) (helper : reply (JsObj.t string))
  : state * phase_end :=
  let deletion_index := _deletion_index st in
  if JsObj.isEmpty deletion_index then (st, Finished)
  else
    match helper with
    | ExitError => (st, Failed subprocess_error)
    | Parsed detail =>
        (set_deletion_index
           (fold_left (keep_undeleted (store st) detail) deletion_index JsObj.empty) st,
         Finished)
    end.

(** ** The reassembly engine *)

Section Engine.

(** The instant [moment()] reads from the clock. *)
Variable now : Z.

Definition seg_key (n : Z) : string := pretty n.

(** The validity test of [_add_to_reassembly_index]; the
    [_.isNumber(_m.total_segments)] conjunct holds of every record. *)
Definition is_valid (h : heap) (_message : ref) (_m : jsval) : bool :=
  let total := total_segments (h !!! _message) in
  match _m with
  | VNotObj => false
  | VObj r =>
      let m := h !!! r in
      id_eqb (id m) (id (h !!! _message)) &&
      match segment m with
      | SegNum n => n <=? total
      | SegFalse => false
      end &&
      (total_segments m =? total)
  end.

Definition _add_to_reassembly_index (h : heap) (_index : JsObj.t ref) (_message : ref)
  (_m : jsval) : result (bool * JsObj.t ref) :=
  match _m with
  | VObj r =>
      if is_valid h _message _m then
        match segment (h !!! r) with
        | SegNum n =>
            match JsObj.get (seg_key n) _index with
            | Some occupant =>
                do older <- isBefore now (timestamp (h !!! r)) (timestamp (h !!! occupant));
                if (older : bool) then Ok (true, _index)
                else Ok (true, JsObj.set (seg_key n) r _index)
            | None => Ok (true, JsObj.set (seg_key n) r _index)
            end
        | SegFalse => Ok (false, _index)
        end
      else Ok (false, _index)
  | VNotObj => Ok (false, _index)
  end.

Fixpoint add_segments (h : heap) (_index : JsObj.t ref) (_message : ref)
  (_segments : list jsval) : result (JsObj.t ref) :=
  match _segments with
  | [] => Ok _index
  | s :: rest =>
      do r <- _add_to_reassembly_index h _index _message s;
      add_segments h (snd r) _message rest
  end.

(** [_segments.length] of an absent value raises. *)
Definition _build_reassembly_index (h : heap) (_message : ref) (_segments : segments_val)
  : result (JsObj.t ref) :=
  match _segments with
  | SegsArray l =>
      do rv <- add_segments h JsObj.empty _message l;
      do r <- _add_to_reassembly_index h rv _message (VObj _message);
      Ok (snd r)
  | SegsNotArray =>
      do r <- _add_to_reassembly_index h JsObj.empty _message (VObj _message);
      Ok (snd r)
  | SegsUndefined => Err TypeError
  end.

(** The inner loop over [{ timestamp: 0, smsc_timestamp: 1 }]:
    [if (rv[k] && rv[k].isBefore(segment[k])) rv[k] = segment[k]]. *)
Definition use_latest (rv_k segment_k : tsval) : result tsval :=
  if ts_truthy rv_k then
    do earlier <- isBefore now rv_k segment_k;
    Ok (if (earlier : bool) then segment_k else rv_k)
  else Ok rv_k.

Definition push_location (v : locval) (array : locval) : locval :=
  match array with
  | LocList l => LocList (l ++ [v])
  | other => other
  end.

(** One turn of the loop of [_create_message_from_reassembly_index]. *)
Definition append_segment (h : heap) (_index : JsObj.t ref) (acc : result message) (i : Z)
  : result message :=
  do rv <- acc;
  match JsObj.get (seg_key i) _index with
  | None => Err (Error "Reassembly failed; index is missing an entry")
  | Some s =>
      let segment_ := h !!! s in
      do ts <- use_latest (timestamp rv) (timestamp segment_);
      do smsc <- use_latest (smsc_timestamp rv) (smsc_timestamp segment_);
      Ok {| location := push_location (location segment_) (location rv);
            from := from rv;
            content := content rv +:+ content segment_;
            udh := udh rv;
            segment := segment rv;
            total_segments := total_segments rv;
            timestamp := ts;
            smsc_timestamp := smsc;
            id := id rv;
            parts := option_map (fun ps => ps ++ [s]) (parts rv) |}
  end.

(** The composite is a new record of the store. *)
Definition _create_message_from_reassembly_index (h : heap) (_index : JsObj.t ref)
  : result (heap * ref) :=
  match JsObj.get (seg_key 1) _index with
  | None => Err (Error "Reassembly failed; index missing first entry")
  | Some f =>
      let first_message := h !!! f in
      let rv0 :=
        {| location := LocList [location first_message];
           from := from first_message;
           content := content first_message;
           udh := udh first_message;
           segment := SegFalse;
           total_segments := total_segments first_message;
           timestamp := timestamp first_message;
           smsc_timestamp := smsc_timestamp first_message;
           id := IdFalse;
           parts := Some [f] |} in
      do rv <- fold_left (append_segment h _index)
                 (seqZ 2 (total_segments rv0 - 1)) (Ok rv0);
      Ok (h ++ [rv], length h)
  end.

Definition _default_return_segments (st : state) (_id : idval) : return_reply :=
  Returned []
    match JsObj.get (id_key _id) (_segment_cache st) with
    | Some l => SegsArray (map VObj l)
    | None => SegsUndefined
    end.

Definition _request_return_segments (st : state) (_id : idval) : state * return_reply :=
  match on_return_segments (_handlers st) with
  | None => (st, _default_return_segments st _id)
  | Some fn => (emit (EvReturnSegments _id) st, fn (store st) _id)
  end.

(** What the engine can do with a store and a trigger: build the
    index and, when it has as many names as the trigger has segments,
    make the composite. *)
Definition reassemble (h : heap) (_message : ref) (_segments : segments_val)
  : result (heap * option ref) :=
  do index <- _build_reassembly_index h _message _segments;
  if Z.of_nat (length (JsObj.keys index)) =? total_segments (h !!! _message) then
    do c <- _create_message_from_reassembly_index h index;
    Ok (fst c, Some (snd c))
  else Ok (h, None).

Definition _try_to_reassemble_message (st : state) (_message : ref)
  : state * result (option ref) :=
  match _request_return_segments st (id (store st !!! _message)) with
  | (st1, ReturnError e) => (st1, Err e)
  | (st1, Returned fresh _segments) =>
      let st2 := set_store (store st1 ++ fresh) st1 in
      match _segments with
      | SegsNotArray => (st2, Err (Error "Non-array yielded by `return_segments` event"))
      | _ =>
          match reassemble (store st2) _message _segments with
          | Ok (h, rv) => (set_store h st2, Ok rv)
          | Err e => (st2, Err e)
          end
      end
  end.

(** ** The inbound pipeline *)

(** [[ _m.from, (_m.udh || 0), _m.total_segments ].join('-')] *)
Definition joined_id (_m : message) : string :=
  from _m +:+ "-" +:+
  pretty (match udh _m with Some 0 | None => 0 | Some u => u end) +:+ "-" +:+
  pretty (total_segments _m).

Definition _transform_received_message (_m : message) : message :=
  let m1 :=
    if 1 <? total_segments _m then
      Message (location _m) (from _m) (content _m) (udh _m) (segment _m)
        (total_segments _m) (timestamp _m) (smsc_timestamp _m)
        (IdStr (joined_id _m)) (parts _m)
    else _m in
  if ts_truthy (timestamp m1) then
    Message (location m1) (from m1) (content m1) (udh m1) (segment m1)
      (total_segments m1) (TsMoment (moment now (timestamp m1))) (smsc_timestamp m1)
      (id m1) (parts m1)
  else m1.

Definition _default_receive_segment (st : state) (_message : ref) : state :=
  let k := id_key (id (store st !!! _message)) in
  let cache :=
    if JsObj.has k (_segment_cache st) then _segment_cache st
    else JsObj.set k [] (_segment_cache st) in
  set_segment_cache
    (JsObj.set k (default [] (JsObj.get k cache) ++ [_message]) cache) st.

(** Returns the error passed on, and whether a handler was invoked. *)
Definition _notify_receive_segment (st : state) (_message : ref)
  : state * option js_error * bool :=
  match on_receive_segment (_handlers st) with
  | None => (_default_receive_segment st _message, None, false)
  | Some fn => (emit (EvReceiveSegment _message) st, fn (store st) _message, true)
  end.

Definition _notify_receive (st : state) (_message : ref) : state * option js_error :=
  match on_receive (_handlers st) with
  | None =>
      let e := Error "No event handler available for `receive`" in
      (_notify_global_error st e, Some e)
  | Some fn => (emit (EvReceive _message) st, fn (store st) _message)
  end.

Definition deliver_incoming_message (st : state) (_message : ref) : state :=
  match _notify_receive st _message with
  | (st1, Some _) => st1
  | (st1, None) => _schedule_message_for_deletion st1 _message
  end.

Definition _deliver_incoming_messages (st : state) : state * phase_end :=
  (set_inbound_queue [] (fold_left deliver_incoming_message (_inbound_queue st) st),
   Finished).

(** The iterator of [_receive_messages] up to the first task of its
    waterfall.  [async.each] calls the iterator on every record in
    turn; [async.waterfall] defers its tasks, so with handlers that
    call back at once the second tasks run, in the same order, after
    the last record has been through the first (where among the first
    tasks a single-part record is queued makes no difference: the two
    touch different parts of the instance).  The transform cannot
    raise on a record of this shape.  [pending]
    lists the records waiting for their second task, each with the
    [_should_delete] it was given. *)
Definition receive_first_task (acc : state * list (ref * bool)) (_message : ref)
  : state * list (ref * bool) :=
  let '(st0, pending) := acc in
  let st :=
    set_store
      (<[_message := _transform_received_message (store st0 !!! _message)]> (store st0))
      st0 in
  if total_segments (store st !!! _message) <=? 1 then
    (set_inbound_queue (_inbound_queue st ++ [_message]) st, pending)
  else
    match _notify_receive_segment st _message with
    | (st1, Some e, _) => (_notify_receive_error st1 e _message, pending)
    | (st1, None, _should_delete) => (st1, pending ++ [(_message, _should_delete)])
    end.

(** The second task of the waterfall and its final callback. *)
Definition receive_second_task (acc : state * JsObj.t ref) (p : ref * bool)
  : state * JsObj.t ref :=
  let '(st, reassembly_index) := acc in
  let '(_message, _should_delete) := p in
  match _message_index_lookup (store st) _message reassembly_index with
  | Some _ => (st, reassembly_index)
  | None =>
      let st1 :=
        if _should_delete then _schedule_message_for_deletion st _message else st in
      match _try_to_reassemble_message st1 _message with
      | (st2, Ok (Some _m)) =>
          (set_inbound_queue (_inbound_queue st2 ++ [_m]) st2,
           _message_index_add (store st2) _m reassembly_index)
      | (st2, Ok None) => (st2, reassembly_index)
      | (st2, Err _e) => (_notify_receive_error st2 _e _message, reassembly_index)
      end
  end.

(** The [async.each] over the records parsed from the helper's
    output, which are new records of the store: the instance as it is
    when the final callback is about to deliver the inbound queue. *)
Definition receive_each (st0 : state) (_rv : list message) : state :=
  let refs := seq (length (store st0)) (length _rv) in
  let st1 := set_store (store st0 ++ _rv) st0 in
  let '(st2, pending) := fold_left receive_first_task refs (st1, []) in
  (fold_left receive_second_task pending (st2, JsObj.empty)).1.

Definition _receive_messages (st : state) (helper : reply (list message))
  : state * phase_end :=
  let st0 := set_segment_cache JsObj.empty st in
  match helper with
  | ExitError => (st0, Failed subprocess_error)
  | Parsed _rv => _deliver_incoming_messages (receive_each st0 _rv)
  end.

(** ** The poll scheduler *)

Definition report (r : state * phase_end) : state * bool :=
  match r with
  | (st, Finished) => (st, true)
  | (st, Failed e) => (_notify_global_error st e, true)
  | (st, Thrown _) => (st, false)
  end.

(** One run of [_handle_polling_timeout], given what the helper
    answers in each phase.  The second component tells whether the
    next run gets scheduled. *)
Definition _handle_polling_timeout (st : state)
  (retrieved : reply (list message)) (deleted : reply (JsObj.t string))
  (sent : reply (list Tx.t)) : state * bool :=
  if negb (_is_polling st) then (st, false)
  else
    match report (_receive_messages st retrieved) with
    | (st1, false) => (st1, false)
    | (st1, true) =>
        match report (_delete_messages st1 deleted) with
        | (st2, false) => (st2, false)
        | (st2, true) => report (_transmit_messages st2 sent)
        end
    end.

(** [start] is [_start_polling]: the flag, then a first run at once. *)
Definition start (st : state)
  (retrieved : reply (list message)) (deleted : reply (JsObj.t string))
  (sent : reply (list Tx.t)) : state * bool :=
  _handle_polling_timeout (_start_polling st) retrieved deleted sent.

Definition stop (st : state) : state := _stop_polling st.

End Engine.

(** ** Calls made on an instance, for statements about its history *)

Inductive op :=
  | OpSend (_to _message : send_arg) (_transmit_callback : callback_arg)
  | OpTransmit (helper : reply (list Tx.t)).

(** A [send] that throws leaves the instance as it was; a transmit
    phase that throws leaves what it had done so far. *)
Definition step (st : state) (o : op) : state :=
  match o with
  | OpSend t m cb =>
      match send st t m cb with
      | Ok st' => st'
      | Err _ => st
      end
  | OpTransmit helper => fst (_transmit_messages st helper)
  end.

Definition run (ops : list op) (st : state) : state := fold_left step ops st.

(** Every item ever queued is within the attempt limit. *)
Definition within_limit (st : state) : Prop :=
  Forall (fun m => Out.tx_attempts m <= _tx_attempt_limit st) (out_store st).

(** [to] and [content] of the given items, interleaved. *)
Definition to_and_content (os : list Out.item) (ms : list oref) : list string :=
  flat_map (fun m => [Out.to (os !!! m); Out.content (os !!! m)]) ms.

(** The store only gains items, and an item only gains attempts. *)
Definition attempts_grow (os os' : list Out.item) : Prop :=
  forall (r : oref) (m : Out.item),
    os !! r = Some m ->
    exists m', os' !! r = Some m' /\
      Out.to m' = Out.to m /\ Out.content m' = Out.content m /\
      Out.tx_attempts m <= Out.tx_attempts m'.

(** The retry scenario: [max_transmit_attempts] is 2, an [error]
    handler is registered, [send("+1", "x", callback)] has been
    called, and the helper reports a failure for the item. *)
Definition retry_options : Opt.t :=
  Opt.Make Opt.Undefined Opt.Undefined Opt.Undefined (Opt.Num 2) Opt.Undefined.

Definition retry_start : state :=
  step (set_handlers (Handlers None false true None None false) (initialize retry_options))
    (OpSend (ArgString "+1") (ArgString "x") CbFunction).

Definition one_failure : op := OpTransmit (Parsed [Tx.Make 1 "failure"]).

Definition failed_to_transmit : js_error := Error "Failed to transmit".

(** Every record of the deletion index has had its [location] cleared. *)
Definition all_cleared (st : state) : Prop :=
  Forall (fun e : string * nat => location (store st !!! e.2) = LocFalse)
    (_deletion_index st).

(** The partial-delete scenario: three single-part messages, stored
    at modem locations 1, 2 and 3, have been retrieved and accepted by
    the [receive] handler; the helper then reports that location 2
    could not be deleted. *)
Definition accepting : handlers :=
  Handlers (Some (fun _ _ => None)) false false None None false.

Definition single (loc : Z) (text : string) : message :=
  Message (LocNum loc) "+1" text None (SegNum 1) 1 (TsRaw 0) TsUndefined IdUndefined None.

Definition three_delivered : state :=
  fst (_receive_messages 0 (set_handlers accepting (initialize Opt.none))
         (Parsed [single 1 "a"; single 2 "b"; single 3 "c"])).

Definition partial_verdict : JsObj.t string := [("1", "ok"); ("2", "fail"); ("3", "ok")].

(** A record as the helper prints it for one part of a two-part
    message from "+1" with reference number 7, and the same record
    once [_transform_received_message] has been through it. *)
Definition wire (loc : Z) (text : string) (seg stamp : Z) (smsc : tsval) : message :=
  Message (LocNum loc) "+1" text (Some 7) (SegNum seg) 2 (TsRaw stamp) smsc
    IdUndefined None.

Definition part (loc : Z) (text : string) (seg stamp : Z) (smsc : tsval) : message :=
  _transform_received_message 0 (wire loc text seg stamp smsc).

(** Both parts of a message, with the service-centre time stamp the
    helper prints, and the index holding them. *)
Definition stamped_parts : list message :=
  [part 10 "Hello " 1 100 (TsRaw 90); part 11 "world" 2 101 (TsRaw 91)].

Definition plain_parts : list message :=
  [part 10 "Hello " 1 100 TsUndefined; part 11 "world" 2 101 TsUndefined].

Definition both_slots : JsObj.t nat := [("1", 0%nat); ("2", 1%nat)].

(** A first part, and two records with segment numbers below 1. *)
Definition odd_parts : list message :=
  [part 10 "Hello " 1 100 TsUndefined;
   part 12 "zero" 0 100 TsUndefined;
   part 13 "minus" (-1) 100 TsUndefined].

(** ** Vocabulary for the reassembly index *)

(** The record's [timestamp] is a [moment]. *)
Definition stamped (h : heap) (r : ref) : Prop :=
  exists instant, timestamp (h !!! r) = TsMoment instant.

(** The instant of a record's [timestamp]. *)
Definition stamp (h : heap) (r : ref) : Z := moment 0 (timestamp (h !!! r)).

(** The name under which the index files a record. *)
Definition slot_of (h : heap) (r : ref) : option string :=
  match segment (h !!! r) with
  | SegNum n => Some (seg_key n)
  | SegFalse => None
  end.

(** [r] is one of the segments [l], passes the validity test against
    the trigger [t], and competes for slot [k]. *)
Definition candidate (h : heap) (t : ref) (l : list jsval) (k : string) (r : ref) : Prop :=
  VObj r ∈ l /\ is_valid h t (VObj r) = true /\ slot_of h r = Some k.


(** How an index [ix'] relates to the index [ix] it was made from by
    offering the segments [l]: nothing comes from elsewhere, and every
    former occupant and every candidate is matched or beaten on time. *)
Definition summarises (h : heap) (t : ref) (l : list jsval) (ix ix' : JsObj.t ref) : Prop :=
  (forall k r, JsObj.get k ix' = Some r ->
     JsObj.get k ix = Some r \/ candidate h t l k r) /\
  (forall k o, JsObj.get k ix = Some o ->
     exists o', JsObj.get k ix' = Some o' /\ stamp h o <= stamp h o') /\
  (forall k c, candidate h t l k c ->
     exists o', JsObj.get k ix' = Some o' /\ stamp h c <= stamp h o').

Definition all_stamped (h : heap) (ix : JsObj.t ref) : Prop :=
  forall k o, JsObj.get k ix = Some o -> stamped h o.

(** Two copies of the first part (the one at location 20 is the more
    recent) and the second part. *)
Definition copies : list message :=
  [part 10 "Hello " 1 100 TsUndefined;
   part 20 "Hallo " 1 105 TsUndefined;
   part 11 "world" 2 101 TsUndefined].

(** One part of a two-part message as the helper prints it, with no
    [smsc_timestamp]. *)
Definition half (sender : string) (reference : option Z) (seg loc : Z) (text : string)
  (instant : Z) : message :=
  Message (LocNum loc) sender text reference (SegNum seg) 2 (TsRaw instant) TsUndefined
    IdUndefined None.

(** The identifier that the transform gives both parts. *)
Definition pair_id (sender : string) (reference : option Z) : string :=
  joined_id (half sender reference 1 0 EmptyString 0).

(** The built-in segment storage is in use and a [receive] handler
    that accepts every message is registered. *)
Definition built_in_storage (st : state) : Prop :=
  on_receive_segment (_handlers st) = None /\
  on_return_segments (_handlers st) = None /\
  exists fn, on_receive (_handlers st) = Some fn /\ forall h m, fn h m = None.

(** A part of a two-part message once the transform has been through
    it, and the composite made of two such parts. *)
Definition stored (k : string) (sender : string) (reference : option Z) (seg loc : Z)
  (text : string) (instant : Z) : message :=
  Message (LocNum loc) sender text reference (SegNum seg) 2 (TsMoment instant) TsUndefined
    (IdStr k) None.

Definition joined (sender : string) (reference : option Z)
  (l1 l2 : Z) (c1 c2 : string) (t1 t2 : Z) (a b : nat) : message :=
  Message (LocList [LocNum l1; LocNum l2]) sender (c1 +:+ c2) reference SegFalse 2
    (TsMoment (Z.max t1 t2)) TsUndefined IdFalse (Some [a; b]).

(** A new instance with a [receive] handler that accepts every
    message, and the two parts of "Hello world". *)
Definition fresh_instance : state := set_handlers accepting (initialize Opt.none).

Definition hello_1 : message := half "+1" (Some 7) 1 10 "Hello " 100.
Definition hello_2 : message := half "+1" (Some 7) 2 11 "world" 101.

(** An embedder that keeps every segment it is handed and gives back
    those with the identifier asked for; an instance with its handlers. *)
Definition kept_segments (h : heap) (i : idval) : return_reply :=
  Returned []
    (SegsArray
       (map VObj (List.filter (fun r => id_eqb (id (h !!! r)) i) (seq 0 (length h))))).

Definition persisting : handlers :=
  Handlers (Some (fun _ _ => None)) false false
    (Some (fun _ _ => None)) (Some kept_segments) false.

Definition persisting_instance : state := set_handlers persisting (initialize Opt.none).

(** [rv] is a composite under construction from the records [ps],
    which fill the first slots of the index [ix] in order: it lists
    the [location] each of them has in the store [h]. *)
Definition composite_of (h : heap) (ix : JsObj.t ref) (ps : list ref) (rv : message) : Prop :=
  parts rv = Some ps /\
  location rv = LocList (map (fun r => location (h !!! r)) ps) /\
  segment rv = SegFalse /\ id rv = IdFalse /\
  forall (i : nat) r, ps !! i = Some r -> JsObj.get (seg_key (Z.of_nat (S i))) ix = Some r.

(** The persisting instance after the first task of both parts of
    "Hello world": the handler has been given each part, and both wait
    for their second task. *)
Definition persisted_pending : state :=
  (fold_left (receive_first_task 0) [0; 1]%nat
     (set_store [hello_1; hello_2] persisting_instance, [])).1.

(** ** Vocabulary for materialisation *)

(** The latest of the instants [first], [rest], as a [moment]; an
    absent [first] stays absent. *)
Definition latest (first : tsval) (rest : list tsval) : tsval :=
  match first with
  | TsMoment a => TsMoment (fold_left Z.max (map (moment 0) rest) a)
  | other => other
  end.

(** The values can be compared by the loop over the time-stamp
    properties: the first is absent, or all are [moment]s. *)
Definition comparable (first : tsval) (rest : list tsval) : Prop :=
  first = TsUndefined \/
  Forall (fun v => exists a, v = TsMoment a) (first :: rest).

(** The contents of the records, joined in order. *)
Definition joined_content (h : heap) (f : ref) (rest : list ref) : string :=
  fold_left (fun acc r => acc +:+ content (h !!! r)) rest (content (h !!! f)).

(** ** Vocabulary for the transmit phase *)

(** Some result reports the item at queue position [i] as sent. *)
Definition succeeded (rs : list Tx.t) (i : Z) : bool :=
  existsb (fun r => String.eqb (Tx.result r) "success" && (Tx.index r - 1 =? i)) rs.

(** The items of [q], the first of which is at position [i], that no
    result reports as sent. *)
Fixpoint unsent (rs : list Tx.t) (i : Z) (q : list oref) : list oref :=
  match q with
  | [] => []
  | m :: q' =>
      if succeeded rs i then unsent rs (i + 1) q' else m :: unsent rs (i + 1) q'
  end.

(** What the iterator of [_deliver_transmit_results] does to
    [sent_indices] for one result. *)
Definition mark_sent (sent : JsObj.t bool) (r : Tx.t) : JsObj.t bool :=
  if String.eqb (Tx.result r) "success"
  then JsObj.set (pretty (Tx.index r - 1)) true sent else sent.

(** The calls a success result [r] gives rise to: the item's callback,
    if it has one, then the [transmit] handler, if there is one. *)
Definition success_calls (st : state) (r : Tx.t) : list event :=
  match array_get (_outbound_queue st) (Tx.index r - 1) with
  | Some m =>
      (if Out.callback (out_store st !!! m) then [EvCallback m None] else []) ++
      (if on_transmit (_handlers st) then [EvTransmit m r] else [])
  | None => []
  end.

(** The helper reports that the item at queue position [i] was not sent. *)
Definition failure_at (i : Z) (res : string) : op :=
  OpTransmit (Parsed [Tx.Make (i + 1) res]).

(** Every queued item is an item of the store. *)
Definition queue_allocated (st : state) : Prop :=
  Forall (fun m : oref => (m < length (out_store st))%nat) (_outbound_queue st).

(** Three items queued by [send] on a new instance, and an output of
    the helper that reports the first and the last as sent. *)
Definition three_queued : state :=
  run [OpSend (ArgString "+1") (ArgString "a") CbAbsent;
       OpSend (ArgString "+2") (ArgString "b") CbFunction;
       OpSend (ArgString "+3") (ArgString "c") CbAbsent] (initialize Opt.none).

Definition mixed_results : list Tx.t :=
  [Tx.Make 3 "success"; Tx.Make 2 "failure"; Tx.Make 1 "success"].

(** A store with two records at modem locations 10 and 11, the
    composite that lists both, and a record at location 12. *)
Definition composite_and_parts : heap :=
  [single 10 "a"; single 11 "b";
   Message (LocList [LocNum 10; LocNum 11]) "+1" "ab" None SegFalse 2 (TsMoment 0)
     TsUndefined IdFalse (Some [0; 1]%nat);
   single 12 "c"].

(** An instance whose [receive] handler accepts every message, with
    that store and with the record at location 12 and the composite
    waiting in the inbound queue. *)
Definition two_waiting : state :=
  set_inbound_queue [3; 2]%nat (set_store composite_and_parts fresh_instance).

(** ** Vocabulary for registration *)

(** A property of the object given to [on] that [_register_single_event]
    accepts: a function under a name it knows. *)
Definition accepted_entry (e : string * callback_val) : Prop :=
  known_event e.1 = true /\ exists f, e.2 = AFunction f.

(** A function that accepts whatever it is given, and one that refuses it. *)
Definition accept_all : callback_fn :=
  Fn (fun _ _ => None) (fun _ _ => None) (fun _ _ => Returned [] (SegsArray [])).

Definition refuse_all : callback_fn :=
  Fn (fun _ _ => Some (Error "no")) (fun _ _ => Some (Error "no"))
    (fun _ _ => ReturnError (Error "no")).

(** ** Vocabulary for segments *)

(** The calls made for a segment [r] that the [receive_segment]
    handler refuses with the error [e]. *)
Definition refusal_calls (st : state) (e : js_error) (r : ref) : list event :=
  EvReceiveSegment r :: (if on_error (_handlers st) then [EvErrorReceive e r] else []).

(** An instance whose [receive_segment] handler refuses every segment. *)
Definition refusing_segments : state :=
  set_handlers
    (Handlers (Some (fun _ _ => None)) false true
       (Some (fun _ _ => Some (Error "no"))) (Some kept_segments) false)
    (initialize Opt.none).

(** An instance with a [receive_segment] handler that accepts every
    segment and no [return_segments] handler. *)
Definition unpaired : state :=
  set_handlers
    (Handlers (Some (fun _ _ => None)) false true (Some (fun _ _ => None)) None false)
    (initialize Opt.none).

(** * Properties *)

(** ** Dictionaries *)

Module JsObjFacts.
Import JsObj.

Section Facts.
Context {V : Type}.
Implicit Types (o : t V) (k : string) (v : V).

Lemma get_replace_eq k v o : has k o = true -> get k (replace k v o) = Some v.
Proof.
  unfold has. induction o as [|[k' v'] o IH]; simpl; [discriminate|].
  destruct (String.eqb k k') eqn:E; simpl.
  - intros _. apply String.eqb_eq in E. subst k'. by rewrite String.eqb_refl.
  - intros H. rewrite E. auto.
Qed.

Lemma get_replace_ne k k' v o : k <> k' -> get k' (replace k v o) = get k' o.
Proof.
  intros Hne. induction o as [|[k0 v0] o IH]; simpl; [done|].
  destruct (String.eqb k k0) eqn:E; simpl.
  - apply String.eqb_eq in E. subst k0.
    assert (String.eqb k' k = false) as -> by (apply String.eqb_neq; congruence).
    done.
  - by rewrite IH.
Qed.

Lemma keys_replace k v o : keys (replace k v o) = keys o.
Proof.
  unfold keys. induction o as [|[k0 v0] o IH]; simpl; [done|].
  destruct (String.eqb k k0); simpl; by rewrite ?IH.
Qed.

Lemma get_insert_index_eq n k v o :
  get k o = None -> get k (insert_index n k v o) = Some v.
Proof.
  induction o as [|[k0 v0] o IH]; simpl.
  - by rewrite String.eqb_refl.
  - destruct (String.eqb k k0) eqn:E; [discriminate|]. intros H.
    destruct (array_index k0) as [n'|]; [destruct (n' <? n)%N|]; simpl;
      rewrite ?String.eqb_refl, ?E; auto.
Qed.

Lemma get_insert_index_ne n k k' v o :
  k <> k' -> get k' (insert_index n k v o) = get k' o.
Proof.
  intros Hne. apply String.eqb_neq in Hne. rewrite String.eqb_sym in Hne.
  induction o as [|[k0 v0] o IH]; simpl.
  - by rewrite Hne.
  - destruct (array_index k0) as [n'|]; [destruct (n' <? n)%N|]; simpl;
      rewrite ?Hne, ?IH; done.
Qed.

Lemma keys_insert_index n k v o : keys (insert_index n k v o) ≡ₚ k :: keys o.
Proof.
  unfold keys. induction o as [|[k0 v0] o IH]; simpl; [done|].
  destruct (array_index k0) as [n'|]; [destruct (n' <? n)%N|]; simpl; try done.
  rewrite IH. apply Permutation_swap.
Qed.

Lemma get_app_new_eq k v o : get k o = None -> get k (o ++ [(k, v)]) = Some v.
Proof.
  induction o as [|[k0 v0] o IH]; simpl.
  - by rewrite String.eqb_refl.
  - destruct (String.eqb k k0); [discriminate|]. auto.
Qed.

Lemma get_app_new_ne k k' v o : k <> k' -> get k' (o ++ [(k, v)]) = get k' o.
Proof.
  intros Hne. apply String.eqb_neq in Hne. rewrite String.eqb_sym in Hne.
  induction o as [|[k0 v0] o IH]; simpl.
  - by rewrite Hne.
  - by rewrite IH.
Qed.

Lemma has_false k o : has k o = false <-> get k o = None.
Proof. unfold has. destruct (get k o); split; congruence. Qed.

Lemma has_true k o : has k o = true <-> is_Some (get k o).
Proof.
  unfold has. destruct (get k o); split; done || by inversion 1.
Qed.

Lemma get_set_eq k v o : get k (set k v o) = Some v.
Proof.
  unfold set. destruct (has k o) eqn:E.
  - by apply get_replace_eq.
  - apply has_false in E. destruct (array_index k).
    + by apply get_insert_index_eq.
    + by apply get_app_new_eq.
Qed.

Lemma get_set_ne k k' v o : k <> k' -> get k' (set k v o) = get k' o.
Proof.
  intros Hne. unfold set. destruct (has k o).
  - by apply get_replace_ne.
  - destruct (array_index k).
    + by apply get_insert_index_ne.
    + by apply get_app_new_ne.
Qed.

Lemma get_set k k' v o :
  get k' (set k v o) = if String.eqb k k' then Some v else get k' o.
Proof.
  destruct (String.eqb k k') eqn:E.
  - apply String.eqb_eq in E. subst. apply get_set_eq.
  - apply String.eqb_neq in E. by apply get_set_ne.
Qed.

Lemma set_empty k v : set k v (@empty V) = [(k, v)].
Proof. unfold set. simpl. by destruct (array_index k). Qed.

Lemma get_Some_keys k v o : get k o = Some v -> k ∈ keys o.
Proof.
  unfold keys. induction o as [|[k0 v0] o IH]; simpl; [discriminate|].
  destruct (String.eqb k k0) eqn:E.
  - apply String.eqb_eq in E. subst. intros _. left.
  - intros H. right. auto.
Qed.

Lemma get_None_keys k o : get k o = None <-> k ∉ keys o.
Proof.
  unfold keys. induction o as [|[k0 v0] o IH]; simpl.
  - split; [intros _; apply not_elem_of_nil|done].
  - destruct (String.eqb k k0) eqn:E.
    + apply String.eqb_eq in E. subst. split; [discriminate|].
      intros H. exfalso. apply H. left.
    + apply String.eqb_neq in E. rewrite IH, not_elem_of_cons. tauto.
Qed.

Lemma keys_set_new k v o : get k o = None -> keys (set k v o) ≡ₚ k :: keys o.
Proof.
  intros H. unfold set. apply has_false in H. rewrite H.
  destruct (array_index k).
  - apply keys_insert_index.
  - unfold keys. rewrite map_app. simpl. by rewrite Permutation_app_comm.
Qed.

Lemma keys_set_old k v o : is_Some (get k o) -> keys (set k v o) = keys o.
Proof.
  intros H. unfold set. apply has_true in H. rewrite H. apply keys_replace.
Qed.

Lemma Forall_replace (Q : V -> Prop) k v o :
  Forall (fun e => Q e.2) o -> Q v -> Forall (fun e => Q e.2) (replace k v o).
Proof.
  intros Ho Hv. induction Ho as [|[k0 v0] o H0 Ho IH]; simpl; [done|].
  destruct (String.eqb k k0); constructor; auto.
Qed.

Lemma Forall_insert_index (Q : V -> Prop) n k v o :
  Forall (fun e => Q e.2) o -> Q v -> Forall (fun e => Q e.2) (insert_index n k v o).
Proof.
  intros Ho Hv. induction Ho as [|[k0 v0] o H0 Ho IH]; simpl.
  - by constructor.
  - destruct (array_index k0) as [n'|]; [destruct (n' <? n)%N|];
      repeat constructor; auto.
Qed.

Lemma Forall_set (Q : V -> Prop) k v o :
  Forall (fun e => Q e.2) o -> Q v -> Forall (fun e => Q e.2) (set k v o).
Proof.
  intros Ho Hv. unfold set. destruct (has k o).
  - by apply Forall_replace.
  - destruct (array_index k).
    + by apply Forall_insert_index.
    + apply Forall_app. split; [done|]. by constructor.
Qed.

Lemma keys_set_elem k k' v o : k' ∈ keys (set k v o) -> k' = k \/ k' ∈ keys o.
Proof.
  destruct (get k o) as [v0|] eqn:E.
  - rewrite keys_set_old by (by eexists). auto.
  - rewrite (keys_set_new _ _ _ E). intros H. by apply elem_of_cons in H.
Qed.

Lemma NoDup_keys_set k v o : NoDup (keys o) -> NoDup (keys (set k v o)).
Proof.
  intros H. destruct (get k o) as [v0|] eqn:E.
  - rewrite keys_set_old by (by eexists). done.
  - rewrite (keys_set_new _ _ _ E). constructor; [|done]. by apply get_None_keys.
Qed.


End Facts.
End JsObjFacts.

(** ** Options *)

(** C10.  A [transmit_batch_size] or [delete_batch_size] that is 0 or
    any other falsy value is replaced by 64, respectively 1024, so
    neither size is ever zero; [max_transmit_attempts] is taken as
    given whenever it is a number, 0 included, and with a limit of 0 a
    failed item is retried without an error ever being raised. *)
Theorem initialize_defaults (options : Opt.t) :
  (Opt.truthy (Opt.transmit_batch_size options) = false ->
     _transmit_batch_size (initialize options) = 64) /\
  (Opt.truthy (Opt.delete_batch_size options) = false ->
     _delete_batch_size (initialize options) = 1024) /\
  _transmit_batch_size (initialize options) <> 0 /\
  _delete_batch_size (initialize options) <> 0 /\
  (forall n, Opt.max_transmit_attempts options = Opt.Num n ->
     _tx_attempt_limit (initialize options) = n) /\
  (Opt.max_transmit_attempts options = Opt.Num 0 ->
     forall st sent r m,
       _tx_attempt_limit st = _tx_attempt_limit (initialize options) ->
       array_get (_outbound_queue st) (Tx.index r - 1) = Some m ->
       Tx.result r <> "success" ->
       exists st',
         deliver_transmit_result st sent r = Ok (st', sent) /\
         events st' = events st /\ _outbound_queue st' = _outbound_queue st).
Proof.
  destruct options as [i tb db mx d]. simpl.
  repeat split.
  - by intros ->.
  - by intros ->.
  - destruct tb as [| | | |n]; simpl; try done.
    destruct (n =? 0) eqn:E; simpl; [done|]. by apply Z.eqb_neq.
  - destruct db as [| | | |n]; simpl; try done.
    destruct (n =? 0) eqn:E; simpl; [done|]. by apply Z.eqb_neq.
  - by intros n ->.
  - intros -> st sent r m Hl Hq Hr. simpl in Hl.
    unfold deliver_transmit_result. rewrite Hq, Hl.
    apply String.eqb_neq in Hr. rewrite Hr. simpl.
    eexists. split; [reflexivity|]. done.
Qed.

Lemma initialize_defaults_witness :
  _transmit_batch_size
    (initialize (Opt.Make Opt.Undefined (Opt.Num 0) Opt.EmptyString (Opt.Num 0) Opt.Null)) = 64 /\
  _delete_batch_size
    (initialize (Opt.Make Opt.Undefined (Opt.Num 0) Opt.EmptyString (Opt.Num 0) Opt.Null)) = 1024 /\
  _tx_attempt_limit
    (initialize (Opt.Make Opt.Undefined (Opt.Num 0) Opt.EmptyString (Opt.Num 0) Opt.Null)) = 0.
Proof.
  destruct (initialize_defaults
              (Opt.Make Opt.Undefined (Opt.Num 0) Opt.EmptyString (Opt.Num 0) Opt.Null))
    as (Ht & Hd & _ & _ & Hm & _).
  split; [apply Ht; reflexivity|].
  split; [apply Hd; reflexivity|].
  apply Hm. reflexivity.
Defined.

(** ** Batches *)

Lemma transmission_args_from_take batch os i q :
  transmission_args_from batch os i q =
  to_and_content os (take (Z.to_nat (batch - 1 - i)) q).
Proof.
  revert i. induction q as [|m q IH]; intros i; simpl.
  - by rewrite take_nil.
  - destruct (batch <=? i + 1) eqn:E.
    + apply Z.leb_le in E.
      replace (Z.to_nat (batch - 1 - i)) with 0%nat by lia. done.
    + apply Z.leb_gt in E.
      replace (Z.to_nat (batch - 1 - i)) with (S (Z.to_nat (batch - 1 - (i + 1)))) by lia.
      simpl. by rewrite IH.
Qed.

Lemma deletion_args_from_take batch i ks :
  deletion_args_from batch i ks = take (Z.to_nat (batch - 1 - i)) ks.
Proof.
  revert i. induction ks as [|k ks IH]; intros i; simpl.
  - by rewrite take_nil.
  - destruct (batch <=? i + 1) eqn:E.
    + apply Z.leb_le in E.
      replace (Z.to_nat (batch - 1 - i)) with 0%nat by lia. done.
    + apply Z.leb_gt in E.
      replace (Z.to_nat (batch - 1 - i)) with (S (Z.to_nat (batch - 1 - (i + 1)))) by lia.
      simpl. by rewrite IH.
Qed.

(** C9.  The arguments of [send] are the [to] and [content] of the
    first [transmit_batch_size - 1] items of the queue, interleaved in
    queue order; the arguments of [delete] are the first
    [delete_batch_size - 1] names of the deletion index; so a batch
    never has more than the batch size minus one entries. *)
Theorem batch_limits (st : state) (q : list oref) (ix : JsObj.t ref) :
  _create_message_transmission_args st q =
    to_and_content (out_store st) (take (Z.to_nat (_transmit_batch_size st - 1)) q) /\
  _create_message_deletion_args st ix =
    take (Z.to_nat (_delete_batch_size st - 1)) (JsObj.keys ix) /\
  (0 < _transmit_batch_size st ->
     Z.of_nat (length (take (Z.to_nat (_transmit_batch_size st - 1)) q))
       <= _transmit_batch_size st - 1) /\
  (0 < _delete_batch_size st ->
     Z.of_nat (length (_create_message_deletion_args st ix)) <= _delete_batch_size st - 1).
Proof.
  unfold _create_message_transmission_args, _create_message_deletion_args.
  rewrite transmission_args_from_take, deletion_args_from_take, !Z.sub_0_r.
  repeat split; intros H; rewrite length_take; lia.
Qed.

(** The argument vectors of the two phases, for sizes of at least 1. *)
Lemma phase_argv_lengths st :
  0 < _transmit_batch_size st -> 0 < _delete_batch_size st ->
  Z.of_nat (length (transmit_argv st)) <= 1 + 2 * (_transmit_batch_size st - 1) /\
  Z.of_nat (length (delete_argv st)) <= 1 + (_delete_batch_size st - 1).
Proof.
  intros Ht Hd. unfold transmit_argv, delete_argv,
    _create_message_transmission_args, _create_message_deletion_args.
  rewrite transmission_args_from_take, deletion_args_from_take, !Z.sub_0_r.
  cbn [length]. rewrite length_take. split; [|lia].
  assert (forall q, length (to_and_content (out_store st) q) = (2 * length q)%nat) as ->.
  { induction q as [|m q IH]; [done|].
    change (to_and_content (out_store st) (m :: q))
      with (Out.to (out_store st !!! m) :: Out.content (out_store st !!! m)
              :: to_and_content (out_store st) q).
    cbn [length]. rewrite IH. lia. }
  rewrite length_take. lia.
Qed.

Lemma batch_limits_witness :
  Z.of_nat (length (take (Z.to_nat (_transmit_batch_size
      (initialize (Opt.Make Opt.Undefined (Opt.Num 3) (Opt.Num 2) Opt.Undefined Opt.Undefined)) - 1))
      [0; 1; 2; 3]%nat)) <= 3 - 1 /\
  Z.of_nat (length (_create_message_deletion_args
      (initialize (Opt.Make Opt.Undefined (Opt.Num 3) (Opt.Num 2) Opt.Undefined Opt.Undefined))
      [("4", 0%nat); ("9", 1%nat); ("false", 2%nat)])) <= 2 - 1.
Proof.
  destruct (batch_limits
              (initialize (Opt.Make Opt.Undefined (Opt.Num 3) (Opt.Num 2) Opt.Undefined Opt.Undefined))
              [0; 1; 2; 3]%nat [("4", 0%nat); ("9", 1%nat); ("false", 2%nat)])
    as (_ & _ & Ht & Hd).
  split; [apply Ht | apply Hd]; simpl; lia.
Defined.

(** ** Transmit attempts *)

Lemma attempts_grow_refl os : attempts_grow os os.
Proof. intros r m H. exists m. split_and!; done || lia. Qed.

Lemma attempts_grow_trans os1 os2 os3 :
  attempts_grow os1 os2 -> attempts_grow os2 os3 -> attempts_grow os1 os3.
Proof.
  intros H12 H23 r m H.
  destruct (H12 r m H) as (m2 & Hm2 & ? & ? & ?).
  destruct (H23 r m2 Hm2) as (m3 & Hm3 & ? & ? & ?).
  exists m3. split_and!; [done|congruence|congruence|lia].
Qed.

Lemma attempts_grow_app os new : attempts_grow os (os ++ new).
Proof.
  intros r m H. exists m. split_and!; [by apply lookup_app_l_Some|done|done|lia].
Qed.

Lemma attempts_grow_insert os (r : oref) n :
  Out.tx_attempts (os !!! r) <= n ->
  attempts_grow os (<[r := Out.set_tx_attempts n (os !!! r)]> os).
Proof.
  intros Hn r' m H. destruct (decide (r = r')) as [<-|Hne].
  - pose proof (list_lookup_total_correct _ _ _ H) as Ht.
    rewrite Ht in Hn |- *.
    exists (Out.set_tx_attempts n m).
    split; [|simpl; tauto].
    apply list_lookup_insert_eq. by eapply lookup_lt_Some.
  - exists m. rewrite list_lookup_insert_ne by done. split_and!; done || lia.
Qed.

Lemma within_limit_insert limit os (r : oref) m :
  Forall (fun m => Out.tx_attempts m <= limit) os ->
  Out.tx_attempts m <= limit ->
  Forall (fun m => Out.tx_attempts m <= limit) (<[r := m]> os).
Proof. intros H Hm. by apply Forall_insert. Qed.

(** What one result does to the items: the limit and the queue stay,
    and no attempt counter decreases or passes a positive limit. *)
Lemma deliver_transmit_result_attempts st sent r st' sent' :
  deliver_transmit_result st sent r = Ok (st', sent') ->
  _tx_attempt_limit st' = _tx_attempt_limit st /\
  _outbound_queue st' = _outbound_queue st /\
  attempts_grow (out_store st) (out_store st') /\
  (0 < _tx_attempt_limit st -> within_limit st -> within_limit st').
Proof.
  unfold deliver_transmit_result, within_limit.
  destruct (array_get (_outbound_queue st) (Tx.index r - 1)) as [m|]; [|discriminate].
  destruct (negb (String.eqb (Tx.result r) "success")).
  - set (item := out_store st !!! m).
    set (attempts := if Out.tx_attempts item =? 0 then 1 else Out.tx_attempts item).
    assert (Out.tx_attempts item <= attempts) as Hle.
    { subst attempts. destruct (Out.tx_attempts item =? 0) eqn:E; lia. }
    destruct ((_tx_attempt_limit st =? 0) || (attempts <? _tx_attempt_limit st)) eqn:E.
    + intros [= <- <-]. simpl. split_and!; [done|done| |].
      * apply attempts_grow_insert. fold item. lia.
      * intros Hpos Hall. apply within_limit_insert; [done|]. simpl.
        apply orb_true_iff in E as [E|E]; [apply Z.eqb_eq in E|apply Z.ltb_lt in E]; lia.
    + intros [= <- <-]. unfold _notify_transmit_error.
      repeat (case_match; simpl); split_and!; auto using attempts_grow_refl.
  - intros [= <- <-]. unfold _notify_transmit.
    repeat (case_match; simpl); split_and!; auto using attempts_grow_refl.
Qed.

Lemma deliver_transmit_loop_attempts rs : forall st sent st' sent' thrown,
  deliver_transmit_loop st sent rs = (st', sent', thrown) ->
  _tx_attempt_limit st' = _tx_attempt_limit st /\
  _outbound_queue st' = _outbound_queue st /\
  attempts_grow (out_store st) (out_store st') /\
  (0 < _tx_attempt_limit st -> within_limit st -> within_limit st').
Proof.
  induction rs as [|r rs IH]; intros st sent st' sent' thrown; simpl.
  - intros [= <- <- <-]. split_and!; auto using attempts_grow_refl.
  - destruct (deliver_transmit_result st sent r) as [[st1 sent1]|e] eqn:E.
    + intros H. apply IH in H as (Hl & Hq & Hg & Hb).
      apply deliver_transmit_result_attempts in E as (Hl1 & Hq1 & Hg1 & Hb1).
      split_and!; [congruence|congruence|by eapply attempts_grow_trans|].
      intros Hpos Hw. apply Hb; [lia|auto].
    + intros [= <- <- <-]. split_and!; auto using attempts_grow_refl.
Qed.

Lemma send_attempts st t m cb st' :
  send st t m cb = Ok st' ->
  _tx_attempt_limit st' = _tx_attempt_limit st /\
  attempts_grow (out_store st) (out_store st') /\
  (0 < _tx_attempt_limit st -> within_limit st -> within_limit st').
Proof.
  unfold send. intros H.
  assert (exists item, Out.tx_attempts item = 0 /\
            st' = set_outbound_queue (_outbound_queue st ++ [length (out_store st)])
                    (set_out_store (out_store st ++ [item]) st)) as (item & H0 & ->).
  { destruct cb, t, m; try discriminate; injection H as <-;
      eexists (Out.Item _ 0 _ _); split; reflexivity. }
  simpl. split_and!; [done|apply attempts_grow_app|].
  intros Hpos Hw. unfold within_limit. simpl.
  apply Forall_app. split; [done|]. constructor; [lia|done].
Qed.

Lemma step_attempts st o :
  _tx_attempt_limit (step st o) = _tx_attempt_limit st /\
  attempts_grow (out_store st) (out_store (step st o)) /\
  (0 < _tx_attempt_limit st -> within_limit st -> within_limit (step st o)).
Proof.
  destruct o as [t m cb|helper]; simpl.
  - destruct (send st t m cb) as [st'|e] eqn:E.
    + by apply send_attempts in E.
    + split_and!; auto using attempts_grow_refl.
  - unfold _transmit_messages.
    destruct (_outbound_queue st) as [|q0 q]; simpl;
      [split_and!; auto using attempts_grow_refl|].
    destruct helper as [|rv]; simpl; [split_and!; auto using attempts_grow_refl|].
    unfold _deliver_transmit_results.
    destruct (deliver_transmit_loop st JsObj.empty rv) as [[st1 sent] thrown] eqn:E.
    apply deliver_transmit_loop_attempts in E as (Hl & Hq & Hg & Hb).
    destruct thrown; simpl; split_and!; auto.
Qed.

(** C8.  Over any sequence of [send] calls and transmit phases, the
    attempt counter of every outbound item never decreases, and when
    the attempt limit is positive it never passes the limit. *)
Theorem tx_attempts_monotone_and_bounded (ops : list op) (st : state) :
  attempts_grow (out_store st) (out_store (run ops st)) /\
  (0 < _tx_attempt_limit st -> within_limit st -> within_limit (run ops st)).
Proof.
  unfold run.
  cut (_tx_attempt_limit (fold_left step ops st) = _tx_attempt_limit st /\
       attempts_grow (out_store st) (out_store (fold_left step ops st)) /\
       (0 < _tx_attempt_limit st -> within_limit st ->
        within_limit (fold_left step ops st))); [tauto|].
  revert st. induction ops as [|o ops IH]; intros st; simpl.
  - split_and!; auto using attempts_grow_refl.
  - destruct (step_attempts st o) as (Hl & Hg & Hb).
    destruct (IH (step st o)) as (Hl' & Hg' & Hb').
    split_and!; [congruence|by eapply attempts_grow_trans|].
    intros Hpos Hw. apply Hb'; [lia|auto].
Qed.

Lemma tx_attempts_monotone_and_bounded_witness :
  within_limit (run [one_failure; one_failure; one_failure] retry_start).
Proof.
  apply (tx_attempts_monotone_and_bounded [one_failure; one_failure; one_failure] retry_start).
  - simpl. lia.
  - unfold within_limit. simpl. repeat constructor. simpl. lia.
Defined.

(** ** Exhausted retries *)

Lemma reject_sent_empty i q : reject_sent JsObj.empty i q = q.
Proof. revert i. induction q as [|m q IH]; intros i; simpl; by rewrite ?IH. Qed.

Lemma deliver_transmit_loop_failures rs : forall st sent st' sent' thrown,
  Forall (fun r => Tx.result r <> "success") rs ->
  deliver_transmit_loop st sent rs = (st', sent', thrown) ->
  sent' = sent.
Proof.
  induction rs as [|r rs IH]; intros st sent st' sent' thrown Hall; simpl.
  - by intros [= <- <- <-].
  - inversion_clear Hall as [|? ? Hr Hrs].
    destruct (deliver_transmit_result st sent r) as [[st1 sent1]|e] eqn:E;
      [|by intros [= <- <- <-]].
    intros H. apply (IH _ _ _ _ _ Hrs) in H. subst sent'.
    unfold deliver_transmit_result in E.
    destruct (array_get (_outbound_queue st) (Tx.index r - 1)); [|discriminate].
    apply String.eqb_neq in Hr. rewrite Hr in E. simpl in E.
    by repeat case_match; simplify_eq.
Qed.

(** Whatever the attempt limit, a phase whose results are all
    failures gives back the queue it started with: the only items
    [_.reject] drops are those recorded in [sent_indices], and a
    failure is never recorded there. *)
Lemma failures_stay_queued st rs st' :
  Forall (fun r => Tx.result r <> "success") rs ->
  _deliver_transmit_results st rs = (st', Finished) ->
  _outbound_queue st' = _outbound_queue st.
Proof.
  intros Hall. unfold _deliver_transmit_results.
  destruct (deliver_transmit_loop st JsObj.empty rs) as [[st1 sent] thrown] eqn:E.
  pose proof (deliver_transmit_loop_failures _ _ _ _ _ _ Hall E) as ->.
  apply deliver_transmit_loop_attempts in E as (_ & Hq & _).
  destruct thrown; [discriminate|]. intros [= <-]. simpl.
  by rewrite reject_sent_empty.
Qed.

(** A failure of an item whose attempts have reached a positive limit
    notifies the error and changes neither the queue nor what
    [_.reject] will drop. *)
Lemma exhausted_failure_notifies st sent r (m : nat) :
  array_get (_outbound_queue st) (Tx.index r - 1) = Some m ->
  Tx.result r <> "success" ->
  0 < _tx_attempt_limit st ->
  _tx_attempt_limit st <= Out.tx_attempts (out_store st !!! m) ->
  deliver_transmit_result st sent r =
    Ok (_notify_transmit_error st failed_to_transmit m, sent) /\
  _outbound_queue (_notify_transmit_error st failed_to_transmit m) = _outbound_queue st.
Proof.
  intros Hm Hr Hpos Hle. unfold deliver_transmit_result. rewrite Hm.
  apply String.eqb_neq in Hr. rewrite Hr. cbn [negb].
  assert ((_tx_attempt_limit st =? 0) = false) as -> by (apply Z.eqb_neq; lia).
  assert ((Out.tx_attempts (out_store st !!! m) =? 0) = false) as ->
    by (apply Z.eqb_neq; lia).
  assert ((Out.tx_attempts (out_store st !!! m) <? _tx_attempt_limit st) = false) as ->
    by (apply Z.ltb_ge; lia).
  split; [done|]. unfold _notify_transmit_error. by repeat case_match.
Qed.

(** C2.  With [max_transmit_attempts] at 2, the second consecutive
    failure of [send("+1", "x", callback)] calls the item's callback
    with the error and raises one transmit error, but the item is
    still in [_outbound_queue] when the phase is over, and a third
    failure raises the error once more. *)
Theorem exhausted_item_not_removed :
  events (run [one_failure] retry_start) = [] /\
  events (run [one_failure; one_failure] retry_start) =
    [EvCallback 0 (Some failed_to_transmit); EvErrorTransmit failed_to_transmit 0] /\
  _outbound_queue (run [one_failure; one_failure] retry_start) = [0%nat] /\
  events (run [one_failure; one_failure; one_failure] retry_start) =
    [EvCallback 0 (Some failed_to_transmit); EvErrorTransmit failed_to_transmit 0;
     EvCallback 0 (Some failed_to_transmit); EvErrorTransmit failed_to_transmit 0].
Proof. repeat split; vm_compute; reflexivity. Qed.

(** ** Partial deletion *)

Lemma keep_undeleted_keys h detail acc e :
  location (h !!! e.2) = LocFalse ->
  (forall k, k ∈ JsObj.keys acc -> k = "false") ->
  forall k, k ∈ JsObj.keys (keep_undeleted h detail acc e) -> k = "false".
Proof.
  destruct e as [i m]. simpl. intros Hloc Hacc k.
  unfold keep_undeleted, _message_index_add. rewrite Hloc. simpl.
  destruct (JsObj.get i detail) as [verdict|].
  - destruct (decide (verdict = "ok")) as [->|Hne]; [apply Hacc|].
    assert (JsObj.keys
              match verdict with
              | "ok" => acc
              | _ => JsObj.set "false" m acc
              end = JsObj.keys (JsObj.set "false" m acc)) as ->.
    { repeat (case_match; try done). }
    intros [->|H]%JsObjFacts.keys_set_elem; auto.
  - intros [->|H]%JsObjFacts.keys_set_elem; auto.
Qed.

(** When the records of the index have lost their [location], as
    [_schedule_message_for_deletion] sees to, whatever survives a
    delete phase is filed under the name [false]. *)
Lemma survivors_filed_under_false st detail st' :
  all_cleared st ->
  _delete_messages st (Parsed detail) = (st', Finished) ->
  forall k, k ∈ JsObj.keys (_deletion_index st') -> k = "false".
Proof.
  unfold all_cleared, _delete_messages. intros Hall.
  destruct (JsObj.isEmpty (_deletion_index st)) eqn:E.
  - intros [= <-] k. destruct (_deletion_index st); [|discriminate].
    by intros ?%elem_of_nil.
  - intros [= <-]. simpl. clear E.
    cut (forall acc, (forall k, k ∈ JsObj.keys acc -> k = "false") ->
           forall k, k ∈ JsObj.keys
                      (fold_left (keep_undeleted (store st) detail) (_deletion_index st) acc) ->
                     k = "false").
    { intros H. apply H. by intros k ?%elem_of_nil. }
    induction Hall as [|e ix He Hall IH]; intros acc Hacc; simpl; [done|].
    apply IH. by apply keep_undeleted_keys.
Qed.

(** Scheduling keeps the index in that condition. *)
Lemma schedule_all_cleared st (m : nat) :
  (m < length (store st))%nat ->
  all_cleared st -> all_cleared (_schedule_message_for_deletion st m).
Proof.
  unfold all_cleared, _schedule_message_for_deletion. simpl. intros Hm Hall.
  set (Q := fun r : nat =>
              location (<[m := set_location LocFalse (store st !!! m)]> (store st) !!! r)
              = LocFalse).
  assert (Q m) as Hnew.
  { unfold Q. by rewrite list_lookup_total_insert_eq. }
  assert (Forall (fun e : string * nat => Q e.2) (_deletion_index st)) as Hold.
  { eapply Forall_impl; [exact Hall|]. intros [k r] Hr. unfold Q. simpl in *.
    destruct (decide (m = r)) as [<-|Hne]; [done|].
    by rewrite list_lookup_total_insert_ne. }
  unfold _message_index_add.
  generalize (locations_of (location (store st !!! m))). intros locs.
  revert Hold. generalize (_deletion_index st).
  induction locs as [|loc locs IH]; intros ix Hix; simpl; [done|].
  apply IH. by apply JsObjFacts.Forall_set.
Qed.

(** C1.  With locations 1, 2 and 3 scheduled and the helper's verdict
    [{"1": "ok", "2": "fail", "3": "ok"}], the delete phase drops 1 and
    3, but the record that stays is filed under [false]: location 2 is
    no longer a name of [_deletion_index]. *)
Theorem undeleted_entry_loses_location :
  _deletion_index three_delivered = [("1", 0%nat); ("2", 1%nat); ("3", 2%nat)] /\
  _delete_messages three_delivered (Parsed partial_verdict) =
    (set_deletion_index [("false", 1%nat)] three_delivered, Finished) /\
  JsObj.get "2" (_deletion_index (_delete_messages three_delivered (Parsed partial_verdict)).1)
    = None.
Proof. repeat split; vm_compute; reflexivity. Qed.

(** ** Validation of candidates *)

Lemma id_eqb_eq a b : id_eqb a b = true <-> a = b.
Proof.
  destruct a, b; simpl; split; try done; try discriminate.
  - by intros ->%String.eqb_eq.
  - intros [= ->]. apply String.eqb_refl.
Qed.

(** What the test of [_add_to_reassembly_index] accepts: a record with
    the trigger's [id] and [total_segments] whose [segment] is a number
    not above the total.  There is no lower bound. *)
Lemma is_valid_spec h (t r : nat) :
  is_valid h t (VObj r) = true <->
  id (h !!! r) = id (h !!! t) /\
  total_segments (h !!! r) = total_segments (h !!! t) /\
  exists n, segment (h !!! r) = SegNum n /\ n <= total_segments (h !!! t).
Proof.
  unfold is_valid. rewrite !andb_true_iff, id_eqb_eq, Z.eqb_eq.
  destruct (segment (h !!! r)) as [n|].
  - rewrite Z.leb_le. split.
    + intros [[? ?] ?]. split_and!; try done. by exists n.
    + intros (? & ? & n' & [= <-] & ?). done.
  - split; [by intros [[_ ?] _]|]. by intros (_ & _ & n & ? & _).
Qed.

Lemma add_rejects_invalid now h ix (t : nat) m :
  is_valid h t m = false -> _add_to_reassembly_index now h ix t m = Ok (false, ix).
Proof.
  unfold _add_to_reassembly_index. intros H. destruct m; [|done]. by rewrite H.
Qed.

(** A candidate with the trigger's [id] and [total_segments] and a
    segment number below 1 takes the slot of that number when it is
    free. *)
Lemma segment_below_one_takes_slot now (h : list message) ix (t r : nat) n :
  id (h !!! r) = id (h !!! t) ->
  total_segments (h !!! r) = total_segments (h !!! t) ->
  segment (h !!! r) = SegNum n ->
  1 < total_segments (h !!! t) -> n < 1 ->
  JsObj.get (seg_key n) ix = None ->
  _add_to_reassembly_index now h ix t (VObj r) = Ok (true, JsObj.set (seg_key n) r ix).
Proof.
  intros Hid Htot Hseg Hmulti Hn Hfree. unfold _add_to_reassembly_index.
  assert (is_valid h t (VObj r) = true) as ->.
  { apply is_valid_spec. split_and!; try done. exists n. split; [done|lia]. }
  by rewrite Hseg, Hfree.
Qed.

(** C5.  A candidate whose segment number is 0 or negative, and which
    has the trigger's [id] and [total_segments], is not rejected:
    [_add_to_reassembly_index] returns true and files it in the index
    under that number. *)
Theorem segment_below_one_accepted :
  _add_to_reassembly_index 0 odd_parts JsObj.empty 0 (VObj 1) = Ok (true, [("0", 1%nat)]) /\
  _add_to_reassembly_index 0 odd_parts JsObj.empty 0 (VObj 2) = Ok (true, [("-1", 2%nat)]).
Proof. split; vm_compute; reflexivity. Qed.

(** ** The reassembly index *)

Section Index.
Variable now : Z.
Variable h : list message.
Variable t : nat.

Lemma stamped_isBefore (a b : nat) :
  stamped h a -> stamped h b ->
  isBefore now (timestamp (h !!! a)) (timestamp (h !!! b)) = Ok (stamp h a <? stamp h b).
Proof. intros [ta Ha] [tb Hb]. unfold stamp. by rewrite Ha, Hb. Qed.

(** The two ways an accepted candidate can go: an occupant that is
    strictly more recent stays and the index is returned as it was;
    otherwise the candidate takes the slot. *)
Lemma add_step ix (r : nat) k :
  is_valid h t (VObj r) = true -> slot_of h r = Some k ->
  stamped h r -> all_stamped h ix ->
  (exists o, JsObj.get k ix = Some o /\ stamp h r < stamp h o /\
     _add_to_reassembly_index now h ix t (VObj r) = Ok (true, ix)) \/
  ((forall o, JsObj.get k ix = Some o -> stamp h o <= stamp h r) /\
     _add_to_reassembly_index now h ix t (VObj r) = Ok (true, JsObj.set k r ix)).
Proof.
  unfold _add_to_reassembly_index, slot_of. intros Hv Hk Hr Hix. rewrite Hv.
  destruct (segment (h !!! r)) as [n|]; [|discriminate]. injection Hk as <-.
  destruct (JsObj.get (seg_key n) ix) as [o|] eqn:E.
  - rewrite (stamped_isBefore r o Hr (Hix _ _ E)). simpl.
    destruct (stamp h r <? stamp h o) eqn:Elt.
    + left. exists o. apply Z.ltb_lt in Elt. done.
    + right. apply Z.ltb_ge in Elt. split; [|done]. by intros o' [= <-].
  - right. split; [|done]. by intros.
Qed.

Lemma candidate_singleton c k (r : nat) :
  candidate h t [c] k r <-> c = VObj r /\ is_valid h t (VObj r) = true /\ slot_of h r = Some k.
Proof.
  unfold candidate. rewrite list_elem_of_singleton. split.
  - intros (-> & ? & ?). done.
  - intros (-> & ? & ?). done.
Qed.

Lemma candidate_app l1 l2 k (r : nat) :
  candidate h t (l1 ++ l2) k r <-> candidate h t l1 k r \/ candidate h t l2 k r.
Proof. unfold candidate. rewrite elem_of_app. tauto. Qed.

Lemma summarises_nil ix : summarises h t [] ix ix.
Proof.
  split_and!.
  - auto.
  - intros k o H. exists o. split; [done|lia].
  - intros k c (H & _). by apply elem_of_nil in H.
Qed.

Lemma summarises_skip c ix :
  is_valid h t c = false -> summarises h t [c] ix ix.
Proof.
  intros Hc. split_and!.
  - auto.
  - intros k o H. exists o. split; [done|lia].
  - intros k r (-> & Hv & _)%candidate_singleton. congruence.
Qed.

Lemma summarises_keep ix (r o : nat) k :
  slot_of h r = Some k -> JsObj.get k ix = Some o -> stamp h r < stamp h o ->
  summarises h t [VObj r] ix ix.
Proof.
  intros Hk Ho Hlt. split_and!.
  - auto.
  - intros k' o' H. exists o'. split; [done|lia].
  - intros k' c ([= <-] & _ & Hk')%candidate_singleton.
    assert (k' = k) as -> by congruence. exists o. split; [done|lia].
Qed.

Lemma summarises_set ix (r : nat) k :
  is_valid h t (VObj r) = true -> slot_of h r = Some k ->
  (forall o, JsObj.get k ix = Some o -> stamp h o <= stamp h r) ->
  summarises h t [VObj r] ix (JsObj.set k r ix).
Proof.
  intros Hv Hk Hle. split_and!.
  - intros k' r'. rewrite JsObjFacts.get_set.
    destruct (String.eqb_spec k k') as [<-|Hne]; [|auto].
    intros [= <-]. right. by apply candidate_singleton.
  - intros k' o. rewrite JsObjFacts.get_set.
    destruct (String.eqb_spec k k') as [<-|Hne].
    + intros Ho. exists r. split; [done|]. by apply Hle.
    + intros Ho. exists o. split; [done|lia].
  - intros k' c ([= <-] & _ & Hk')%candidate_singleton.
    assert (k' = k) as -> by congruence.
    exists r. rewrite JsObjFacts.get_set_eq. split; [done|lia].
Qed.

Lemma summarises_app l1 l2 ix ix1 ix2 :
  summarises h t l1 ix ix1 -> summarises h t l2 ix1 ix2 ->
  summarises h t (l1 ++ l2) ix ix2.
Proof.
  intros (A1 & A2 & A3) (B1 & B2 & B3). split_and!.
  - intros k r H. destruct (B1 k r H) as [H1|H1].
    + destruct (A1 k r H1); [by left|]. right. apply candidate_app. by left.
    + right. apply candidate_app. by right.
  - intros k o H. destruct (A2 k o H) as (o1 & H1 & ?).
    destruct (B2 k o1 H1) as (o2 & H2 & ?). exists o2. split; [done|lia].
  - intros k c [H|H]%candidate_app.
    + destruct (A3 k c H) as (o1 & H1 & ?).
      destruct (B2 k o1 H1) as (o2 & H2 & ?). exists o2. split; [done|lia].
    + by apply B3.
Qed.

Lemma all_stamped_set ix (r : nat) k :
  stamped h r -> all_stamped h ix -> all_stamped h (JsObj.set k r ix).
Proof.
  intros Hr Hix k' o. rewrite JsObjFacts.get_set.
  destruct (String.eqb k k'); [by intros [= <-]|apply Hix].
Qed.

Lemma is_valid_slot (r : nat) :
  is_valid h t (VObj r) = true -> exists k, slot_of h r = Some k.
Proof.
  intros (_ & _ & n & Hn & _)%is_valid_spec. unfold slot_of. rewrite Hn. by eexists.
Qed.

(** Offering one segment. *)
Lemma add_summary ix c :
  all_stamped h ix -> NoDup (JsObj.keys ix) ->
  (forall r, c = VObj r -> is_valid h t c = true -> stamped h r) ->
  exists accepted ix',
    _add_to_reassembly_index now h ix t c = Ok (accepted, ix') /\
    summarises h t [c] ix ix' /\ all_stamped h ix' /\ NoDup (JsObj.keys ix').
Proof.
  intros Hix Hnd Hc. destruct (is_valid h t c) eqn:Hv.
  - destruct c as [r|]; [|done].
    destruct (is_valid_slot r Hv) as [k Hk].
    specialize (Hc r eq_refl eq_refl).
    destruct (add_step ix r k Hv Hk Hc Hix) as [(o & Ho & Hlt & ->)|(Hle & ->)].
    + exists true, ix. split_and!; try done. by eapply summarises_keep.
    + exists true, (JsObj.set k r ix). split_and!; try done.
      * by apply summarises_set.
      * by apply all_stamped_set.
      * by apply JsObjFacts.NoDup_keys_set.
  - exists false, ix. rewrite add_rejects_invalid by done.
    split_and!; try done. by apply summarises_skip.
Qed.

(** Offering a list of segments, one after the other. *)
Lemma add_segments_summary l : forall ix,
  all_stamped h ix -> NoDup (JsObj.keys ix) ->
  (forall r, VObj r ∈ l -> is_valid h t (VObj r) = true -> stamped h r) ->
  exists ix',
    add_segments now h ix t l = Ok ix' /\
    summarises h t l ix ix' /\ all_stamped h ix' /\ NoDup (JsObj.keys ix').
Proof.
  induction l as [|c l IH]; intros ix Hix Hnd Hl; simpl.
  - exists ix. split_and!; try done. apply summarises_nil.
  - destruct (add_summary ix c Hix Hnd) as (b & ix1 & -> & Hs1 & Hix1 & Hnd1).
    { intros r -> Hv. apply Hl; [left|done]. }
    simpl. destruct (IH ix1 Hix1 Hnd1) as (ix' & -> & Hs & Hix' & Hnd').
    { intros r Hr. apply Hl. by right. }
    exists ix'. split_and!; try done.
    by apply (summarises_app [c] l ix ix1 ix').
Qed.

End Index.

Section Order.
Variable now : Z.
Variable h : list message.
Variable t : nat.

Lemma add_segments_app l1 l2 : forall ix,
  add_segments now h ix t (l1 ++ l2) =
  (do ix1 <- add_segments now h ix t l1; add_segments now h ix1 t l2).
Proof.
  induction l1 as [|c l1 IH]; intros ix; simpl; [done|].
  destruct (_add_to_reassembly_index now h ix t c) as [[b ix1]|e]; simpl; [|done].
  apply IH.
Qed.

(** The trigger is offered after its peers. *)
Lemma build_as_add_segments l :
  _build_reassembly_index now h t (SegsArray l) =
  add_segments now h JsObj.empty t (l ++ [VObj t]).
Proof.
  rewrite add_segments_app. simpl.
  destruct (add_segments now h JsObj.empty t l) as [ix1|e]; simpl; [|done].
  by destruct (_add_to_reassembly_index now h ix1 t (VObj t)) as [[b ix2]|e].
Qed.

(** Starting from the empty index, each slot is held by a candidate
    that no candidate for the slot beats on time, and a slot is empty
    only when nobody competes for it. *)
Lemma summarises_from_empty l ix :
  summarises h t l JsObj.empty ix ->
  (forall k r, JsObj.get k ix = Some r ->
     candidate h t l k r /\ forall c, candidate h t l k c -> stamp h c <= stamp h r) /\
  (forall k, JsObj.get k ix = None -> forall c, ~ candidate h t l k c).
Proof.
  intros (S1 & _ & S3). split.
  - intros k r Hr. split.
    + by destruct (S1 k r Hr).
    + intros c Hc. destruct (S3 k c Hc) as (o & Ho & ?). congruence.
  - intros k Hk c Hc. destruct (S3 k c Hc) as (o & Ho & ?). congruence.
Qed.







End Order.




(** The more recent copy of the first part is the one reassembled. *)
Example newer_copy_wins :
  reassemble 0 copies 2 (SegsArray [VObj 1; VObj 0]) =
    Ok (copies ++
          [Message (LocList [LocNum 20; LocNum 11]) "+1" "Hallo world" (Some 7) SegFalse 2
             (TsMoment 105) TsUndefined IdFalse (Some [1; 2]%nat)],
        Some 3%nat).
Proof. vm_compute. reflexivity. Qed.

(** ** The built-in storage across polls *)

Section StoreEnd.
Context {A : Type} `{!Inhabited A}.
Implicit Types (h l : list A).

Lemma read_new_0 h x l : (h ++ x :: l) !!! length h = x.
Proof. by apply list_lookup_total_middle. Qed.

Lemma read_new_1 h x y l : (h ++ x :: y :: l) !!! S (length h) = y.
Proof.
  change (h ++ x :: y :: l) with (h ++ [x] ++ y :: l). rewrite app_assoc.
  apply list_lookup_total_middle. rewrite length_app. simpl. lia.
Qed.

Lemma read_new_2 h x y z l : (h ++ x :: y :: z :: l) !!! S (S (length h)) = z.
Proof.
  change (h ++ x :: y :: z :: l) with (h ++ [x; y] ++ z :: l). rewrite app_assoc.
  apply list_lookup_total_middle. rewrite length_app. simpl. lia.
Qed.

Lemma write_new_0 h x l v : <[length h := v]> (h ++ x :: l) = h ++ v :: l.
Proof.
  replace (length h) with (length h + 0)%nat by lia. by rewrite insert_app_r.
Qed.

Lemma write_new_1 h x y l v : <[S (length h) := v]> (h ++ x :: y :: l) = h ++ x :: v :: l.
Proof.
  replace (S (length h)) with (length h + 1)%nat by lia. by rewrite insert_app_r.
Qed.

Lemma write_new_2 h x y z l v :
  <[S (S (length h)) := v]> (h ++ x :: y :: z :: l) = h ++ x :: y :: v :: l.
Proof.
  replace (S (S (length h))) with (length h + 2)%nat by lia. by rewrite insert_app_r.
Qed.

Lemma length_new_2 h x y : length (h ++ [x; y]) = S (S (length h)).
Proof. rewrite length_app. simpl. lia. Qed.

Lemma app_new_2 h x y z : (h ++ [x; y]) ++ [z] = h ++ [x; y; z].
Proof. by rewrite <- app_assoc. Qed.

End StoreEnd.

Lemma get_singleton {V : Type} k (v : V) : JsObj.get k [(k, v)] = Some v.
Proof. simpl. by rewrite String.eqb_refl. Qed.

Lemma set_singleton {V : Type} k (v v' : V) : JsObj.set k v' [(k, v)] = [(k, v')].
Proof. unfold JsObj.set, JsObj.has. simpl. by rewrite String.eqb_refl. Qed.

Lemma has_empty {V : Type} k : JsObj.has k (@JsObj.empty V) = false.
Proof. reflexivity. Qed.

Lemma get_empty {V : Type} k : JsObj.get k (@JsObj.empty V) = None.
Proof. reflexivity. Qed.

Lemma has_singleton {V : Type} k (v : V) : JsObj.has k [(k, v)] = true.
Proof. unfold JsObj.has. by rewrite get_singleton. Qed.

Lemma transform_total_segments now m :
  total_segments (_transform_received_message now m) = total_segments m.
Proof. unfold _transform_received_message. by repeat case_match. Qed.

(** The first task, for a part of a longer message, when no
    [receive_segment] handler is registered. *)
Lemma first_task_built_in now st pending (r : nat) :
  on_receive_segment (_handlers st) = None ->
  (r < length (store st))%nat ->
  1 < total_segments (store st !!! r) ->
  receive_first_task now (st, pending) r =
    (_default_receive_segment
       (set_store (<[r := _transform_received_message now (store st !!! r)]> (store st)) st) r,
     pending ++ [(r, false)]).
Proof.
  intros Hrs Hr Htot. unfold receive_first_task. cbn [store set_store].
  rewrite list_lookup_total_insert_eq, transform_total_segments by done.
  apply Z.leb_gt in Htot. rewrite Htot.
  unfold _notify_receive_segment. cbn [_handlers set_store]. by rewrite Hrs.
Qed.

(** The second task, with the built-in storage. *)
Lemma second_task_built_in now st rix (r : nat) l :
  on_return_segments (_handlers st) = None ->
  _message_index_lookup (store st) r rix = None ->
  JsObj.get (id_key (id (store st !!! r))) (_segment_cache st) = Some l ->
  receive_second_task now (st, rix) (r, false) =
    match reassemble now (store st) r (SegsArray (map VObj l)) with
    | Ok (h, Some c) =>
        (set_inbound_queue (_inbound_queue st ++ [c]) (set_store h st),
         _message_index_add h c rix)
    | Ok (h, None) => (set_store h st, rix)
    | Err e => (_notify_receive_error st e r, rix)
    end.
Proof.
  intros Hret Hlook Hcache. unfold receive_second_task. rewrite Hlook.
  unfold _try_to_reassemble_message, _request_return_segments. rewrite Hret.
  unfold _default_return_segments. rewrite Hcache.
  destruct st; cbn [store set_store]. rewrite app_nil_r.
  destruct (reassemble _ _ _ _) as [[h' [c|]]|e]; reflexivity.
Qed.


Section Pair.
Variable now : Z.
Variables (h : list message) (a b : nat) (k f : string) (u : option Z).
Variables (l1 l2 : Z) (c1 c2 : string) (t1 t2 : Z).
Hypothesis Ha : h !!! a = stored k f u 1 l1 c1 t1.
Hypothesis Hb : h !!! b = stored k f u 2 l2 c2 t2.

Local Arguments seg_key : simpl never.

Ltac evaluate_engine :=
  unfold reassemble, _build_reassembly_index, add_segments, _add_to_reassembly_index,
    is_valid, _create_message_from_reassembly_index, append_segment, use_latest;
  repeat (rewrite ?Ha, ?Hb, ?String.eqb_refl, ?Z.ltb_irrefl;
          change (seg_key 1) with "1"; change (seg_key 2) with "2";
          simpl).

Lemma later_moment :
  (if t1 <? t2 then TsMoment t2 else TsMoment t1) = TsMoment (Z.max t1 t2).
Proof. destruct (Z.ltb_spec t1 t2); f_equal; lia. Qed.

Lemma reassemble_first_alone :
  reassemble now h a (SegsArray [VObj a]) = Ok (h, None).
Proof. by evaluate_engine. Qed.

Lemma reassemble_second_alone :
  reassemble now h b (SegsArray [VObj b]) = Ok (h, None).
Proof. by evaluate_engine. Qed.

Lemma reassemble_first_then_second :
  reassemble now h a (SegsArray [VObj a; VObj b]) =
    Ok (h ++ [joined f u l1 l2 c1 c2 t1 t2 a b], Some (length h)).
Proof. evaluate_engine. by rewrite later_moment. Qed.

Lemma reassemble_second_then_first :
  reassemble now h b (SegsArray [VObj b; VObj a]) =
    Ok (h ++ [joined f u l1 l2 c1 c2 t1 t2 a b], Some (length h)).
Proof. evaluate_engine. by rewrite later_moment. Qed.

End Pair.

Section TwoPolls.
Variable now : Z.
Variables (f : string) (u : option Z) (l1 l2 : Z) (c1 c2 : string) (t1 t2 : Z).

Lemma transform_half seg loc text instant :
  _transform_received_message now (half f u seg loc text instant) =
  stored (pair_id f u) f u seg loc text instant.
Proof. reflexivity. Qed.

Ltac fields :=
  cbn [set_handlers set_inbound_queue set_outbound_queue set_deletion_index
       set_segment_cache set_is_polling set_store set_out_store emit
       _handlers _inbound_queue _outbound_queue _deletion_index _segment_cache
       _debug_enabled _is_polling _poll_interval _transmit_batch_size
       _delete_batch_size _tx_attempt_limit store out_store events
       length seq fold_left app fst snd].

Ltac cache_ops :=
  cbn [id_key id stored];
  repeat (try rewrite !has_empty; try rewrite !get_empty;
          rewrite ?JsObjFacts.set_empty, ?get_singleton, ?set_singleton, ?has_singleton;
          cbn [default from_option Datatypes.id app]).

Lemma poll_first_part st :
  built_in_storage st -> _inbound_queue st = [] ->
  _receive_messages now st (Parsed [half f u 1 l1 c1 t1]) =
    (set_inbound_queue []
       (set_segment_cache [(pair_id f u, [length (store st)])]
          (set_store (store st ++ [stored (pair_id f u) f u 1 l1 c1 t1]) st)),
     Finished).
Proof.
  intros (Hrs & Hret & fn & Hfn & Hacc) Hq.
  destruct st as [hs iq oq dix cache dbg pol pint tb db lim h os ev].
  simpl in Hrs, Hret, Hfn, Hq. subst iq.
  unfold _receive_messages, receive_each. fields.
  rewrite first_task_built_in; fields; rewrite ?read_new_0; try done.
  2: { rewrite length_app. simpl. lia. }
  rewrite write_new_0, transform_half.
  unfold _default_receive_segment. fields. rewrite read_new_0. cache_ops.
  rewrite (second_task_built_in now _ _ _ [length h]); fields;
    rewrite ?read_new_0; cache_ops; try done.
  cbn [map].
  erewrite reassemble_first_alone by (by rewrite read_new_0).
  unfold _deliver_incoming_messages. fields. reflexivity.
Qed.

Lemma poll_both_parts st :
  built_in_storage st -> _inbound_queue st = [] ->
  exists st2,
    _receive_messages now st (Parsed [half f u 1 l1 c1 t1; half f u 2 l2 c2 t2]) =
      (st2, Finished) /\
    events st2 = events st ++ [EvReceive (S (S (length (store st))))] /\
    _inbound_queue st2 = [] /\
    _deletion_index st2 =
      JsObj.set (loc_key (LocNum l2)) (S (S (length (store st))))
        (JsObj.set (loc_key (LocNum l1)) (S (S (length (store st)))) (_deletion_index st)) /\
    store st2 =
      store st ++
        [stored (pair_id f u) f u 1 l1 c1 t1;
         stored (pair_id f u) f u 2 l2 c2 t2;
         set_location LocFalse
           (joined f u l1 l2 c1 c2 t1 t2 (length (store st)) (S (length (store st))))].
Proof.
  intros (Hrs & Hret & fn & Hfn & Hacc) Hq.
  destruct st as [hs iq oq dix cache dbg pol pint tb db lim h os ev].
  simpl in Hrs, Hret, Hfn, Hq. subst iq.
  unfold _receive_messages, receive_each. fields.
  rewrite first_task_built_in; fields; rewrite ?read_new_0; try done.
  2: { rewrite length_app. simpl. lia. }
  rewrite write_new_0, transform_half.
  unfold _default_receive_segment at 1. fields. rewrite read_new_0. cache_ops.
  rewrite first_task_built_in; fields; rewrite ?read_new_1; try done.
  2: { rewrite length_app. simpl. lia. }
  rewrite write_new_1, transform_half.
  unfold _default_receive_segment at 1. fields. rewrite read_new_1. cache_ops.
  rewrite (second_task_built_in now _ _ _ [length h; S (length h)]); fields;
    rewrite ?read_new_0; cache_ops; try done.
  cbn [map].
  erewrite reassemble_first_then_second
    by (by rewrite ?read_new_0, ?read_new_1).
  rewrite length_new_2, app_new_2.
  unfold receive_second_task, _message_index_lookup, _message_index_add. fields.
  rewrite read_new_1, read_new_2.
  cbn [location joined stored locations_of fold_left].
  rewrite JsObjFacts.get_set_eq.
  unfold _deliver_incoming_messages, deliver_incoming_message, _notify_receive. fields.
  rewrite Hfn, Hacc.
  eexists. split; [reflexivity|].
  unfold _schedule_message_for_deletion, _message_index_add. fields.
  rewrite read_new_2, write_new_2.
  cbn [location joined locations_of fold_left].
  done.
Qed.

Lemma get_set_twice {V : Type} k k' (v : V) o :
  JsObj.get k (JsObj.set k' v (JsObj.set k v o)) = Some v.
Proof.
  rewrite JsObjFacts.get_set. destruct (String.eqb k' k); [done|].
  apply JsObjFacts.get_set_eq.
Qed.

Lemma poll_both_parts_swapped st :
  built_in_storage st -> _inbound_queue st = [] ->
  exists st2,
    _receive_messages now st (Parsed [half f u 2 l2 c2 t2; half f u 1 l1 c1 t1]) =
      (st2, Finished) /\
    events st2 = events st ++ [EvReceive (S (S (length (store st))))] /\
    _inbound_queue st2 = [] /\
    _deletion_index st2 =
      JsObj.set (loc_key (LocNum l2)) (S (S (length (store st))))
        (JsObj.set (loc_key (LocNum l1)) (S (S (length (store st)))) (_deletion_index st)) /\
    store st2 =
      store st ++
        [stored (pair_id f u) f u 2 l2 c2 t2;
         stored (pair_id f u) f u 1 l1 c1 t1;
         set_location LocFalse
           (joined f u l1 l2 c1 c2 t1 t2 (S (length (store st))) (length (store st)))].
Proof.
  intros (Hrs & Hret & fn & Hfn & Hacc) Hq.
  destruct st as [hs iq oq dix cache dbg pol pint tb db lim h os ev].
  simpl in Hrs, Hret, Hfn, Hq. subst iq.
  unfold _receive_messages, receive_each. fields.
  rewrite first_task_built_in; fields; rewrite ?read_new_0; try done.
  2: { rewrite length_app. simpl. lia. }
  rewrite write_new_0, transform_half.
  unfold _default_receive_segment at 1. fields. rewrite read_new_0. cache_ops.
  rewrite first_task_built_in; fields; rewrite ?read_new_1; try done.
  2: { rewrite length_app. simpl. lia. }
  rewrite write_new_1, transform_half.
  unfold _default_receive_segment at 1. fields. rewrite read_new_1. cache_ops.
  rewrite (second_task_built_in now _ _ _ [length h; S (length h)]); fields;
    rewrite ?read_new_0; cache_ops; try done.
  cbn [map].
  erewrite reassemble_second_then_first
    by (by rewrite ?read_new_0, ?read_new_1).
  rewrite length_new_2, app_new_2.
  unfold receive_second_task, _message_index_lookup, _message_index_add. fields.
  rewrite read_new_1, read_new_2.
  cbn [location joined stored locations_of fold_left].
  rewrite get_set_twice.
  unfold _deliver_incoming_messages, deliver_incoming_message, _notify_receive. fields.
  rewrite Hfn, Hacc.
  eexists. split; [reflexivity|].
  unfold _schedule_message_for_deletion, _message_index_add. fields.
  rewrite read_new_2, write_new_2.
  cbn [location joined locations_of fold_left].
  done.
Qed.

End TwoPolls.


(** With the built-in storage the first part stays on the modem, and
    [_receive_messages] empties [_segment_cache] when it starts: a
    second poll that retrieves the second part alone has nothing to
    join it with. *)
Lemma second_part_alone_not_delivered :
  let poll1 := _receive_messages 0 fresh_instance (Parsed [hello_1]) in
  let poll2 := _receive_messages 0 poll1.1 (Parsed [hello_2]) in
  events poll1.1 = [] /\ _deletion_index poll1.1 = [] /\
  events poll2.1 = [] /\ _deletion_index poll2.1 = [] /\
  ~ (exists c, EvReceive c ∈ events poll2.1 /\
               JsObj.get "10" (_deletion_index poll2.1) = Some c /\
               JsObj.get "11" (_deletion_index poll2.1) = Some c).
Proof.
  split_and!; try (vm_compute; reflexivity).
  intros (c & Hc & _). vm_compute in Hc. by apply elem_of_nil in Hc.
Qed.

(** C3 (amended).  With the built-in storage and a [receive] handler
    that accepts, a poll that retrieves only the first of two parts
    delivers nothing and schedules nothing for deletion, so the delete
    phase that follows has nothing to do; when the next poll retrieves
    that first part again together with the second, in either order,
    the composite is handed to the [receive] handler and the locations
    of both parts are filed in [_deletion_index]. *)
Theorem two_part_message_across_polls now (st : state) (f : string) (u : option Z)
  (l1 l2 : Z) (c1 c2 : string) (t1 t2 : Z) (retrieved : list message) :
  built_in_storage st -> _inbound_queue st = [] ->
  retrieved = [half f u 1 l1 c1 t1; half f u 2 l2 c2 t2] \/
  retrieved = [half f u 2 l2 c2 t2; half f u 1 l1 c1 t1] ->
  let poll1 := _receive_messages now st (Parsed [half f u 1 l1 c1 t1]) in
  let poll2 := _receive_messages now poll1.1 (Parsed retrieved) in
  (poll1.2 = Finished /\ events poll1.1 = events st /\
   _inbound_queue poll1.1 = [] /\ _deletion_index poll1.1 = _deletion_index st /\
   (_deletion_index st = [] ->
    forall verdicts, _delete_messages poll1.1 verdicts = (poll1.1, Finished))) /\
  exists c,
    poll2.2 = Finished /\
    events poll2.1 = events st ++ [EvReceive c] /\
    content (store poll2.1 !!! c) = c1 +:+ c2 /\
    JsObj.get (pretty l1) (_deletion_index poll2.1) = Some c /\
    JsObj.get (pretty l2) (_deletion_index poll2.1) = Some c.
Proof.
  intros Hb Hq Hr poll1 poll2.
  assert (poll1 =
    (set_inbound_queue []
       (set_segment_cache [(pair_id f u, [length (store st)])]
          (set_store (store st ++ [stored (pair_id f u) f u 1 l1 c1 t1]) st)),
     Finished)) as E1 by (by apply poll_first_part).
  assert (built_in_storage poll1.1 /\ _inbound_queue poll1.1 = [] /\
          events poll1.1 = events st /\ _deletion_index poll1.1 = _deletion_index st)
    as (Hb1 & Hq1 & He1 & Hd1) by (by rewrite E1).
  split.
  - rewrite E1. simpl. split_and!; try done.
    intros Hempty verdicts. unfold _delete_messages. simpl. by rewrite Hempty.
  - exists (S (S (length (store poll1.1)))).
    assert (exists st2, poll2 = (st2, Finished) /\
              events st2 = events poll1.1 ++ [EvReceive (S (S (length (store poll1.1))))] /\
              _deletion_index st2 =
                JsObj.set (loc_key (LocNum l2)) (S (S (length (store poll1.1))))
                  (JsObj.set (loc_key (LocNum l1)) (S (S (length (store poll1.1))))
                     (_deletion_index poll1.1)) /\
              content (store st2 !!! S (S (length (store poll1.1)))) = c1 +:+ c2)
      as (st2 & -> & Hev & Hdix & Hcontent).
    { subst poll2. destruct Hr as [-> | ->].
      - destruct (poll_both_parts now f u l1 l2 c1 c2 t1 t2 poll1.1 Hb1 Hq1)
          as (st2 & -> & ? & _ & ? & Hs).
        exists st2. split_and!; try done. by rewrite Hs, read_new_2.
      - destruct (poll_both_parts_swapped now f u l1 l2 c1 c2 t1 t2 poll1.1 Hb1 Hq1)
          as (st2 & -> & ? & _ & ? & Hs).
        exists st2. split_and!; try done. by rewrite Hs, read_new_2. }
    simpl. rewrite Hev, He1, Hdix. split_and!; try done.
    + apply get_set_twice.
    + apply JsObjFacts.get_set_eq.
Qed.

Lemma two_part_message_across_polls_witness :
  exists c,
    (_receive_messages 0 (_receive_messages 0 fresh_instance (Parsed [hello_1])).1
       (Parsed [hello_1; hello_2])).2 = Finished /\
    events (_receive_messages 0 (_receive_messages 0 fresh_instance (Parsed [hello_1])).1
              (Parsed [hello_1; hello_2])).1 = events fresh_instance ++ [EvReceive c] /\
    content (store (_receive_messages 0
                      (_receive_messages 0 fresh_instance (Parsed [hello_1])).1
                      (Parsed [hello_1; hello_2])).1 !!! c) = "Hello " +:+ "world" /\
    JsObj.get (pretty 10) (_deletion_index
       (_receive_messages 0 (_receive_messages 0 fresh_instance (Parsed [hello_1])).1
          (Parsed [hello_1; hello_2])).1) = Some c /\
    JsObj.get (pretty 11) (_deletion_index
       (_receive_messages 0 (_receive_messages 0 fresh_instance (Parsed [hello_1])).1
          (Parsed [hello_1; hello_2])).1) = Some c.
Proof.
  refine (proj2 (two_part_message_across_polls 0 fresh_instance "+1" (Some 7)
                   10 11 "Hello " "world" 100 101 [hello_1; hello_2] _ _ _)).
  - split_and!; [reflexivity|reflexivity|].
    eexists. split; [reflexivity|]. reflexivity.
  - reflexivity.
  - left. reflexivity.
Defined.


(** ** Locations of a composite *)


Section Materialise.
Variable now : Z.
Variable h : list message.
Variable ix : JsObj.t nat.

Lemma fold_append_error slots e :
  fold_left (append_segment now h ix) slots (Err e) = Err e.
Proof. induction slots as [|i slots IH]; simpl; [done|apply IH]. Qed.

Lemma append_segment_composite ps rv rv' :
  composite_of h ix ps rv ->
  append_segment now h ix (Ok rv) (Z.of_nat (S (length ps))) = Ok rv' ->
  exists s, composite_of h ix (ps ++ [s]) rv'.
Proof.
  intros (Hps & Hloc & Hseg & Hid & Hslots). unfold append_segment. cbn [bind].
  destruct (JsObj.get (seg_key (Z.of_nat (S (length ps)))) ix) as [s|] eqn:Es; [|done].
  destruct (use_latest now (timestamp rv) (timestamp (h !!! s))) as [ts|]; [|done].
  cbn [bind].
  destruct (use_latest now (smsc_timestamp rv) (smsc_timestamp (h !!! s))) as [smsc|];
    [|done].
  cbn [bind]. intros [= <-]. exists s. unfold composite_of. cbn.
  rewrite Hps, Hloc, map_app. split_and!; try done.
  intros i r Hi. destruct (decide (i < length ps)%nat) as [Hlt|Hge].
  - rewrite lookup_app_l in Hi by done. by apply Hslots.
  - rewrite lookup_app_r in Hi by lia.
    destruct (i - length ps)%nat as [|n] eqn:En; [|done].
    injection Hi as <-. by replace i with (length ps) by lia.
Qed.

Lemma fold_append_composite (n : nat) : forall ps rv rv',
  composite_of h ix ps rv ->
  fold_left (append_segment now h ix)
    (seqZ (Z.of_nat (S (length ps))) (Z.of_nat n)) (Ok rv) = Ok rv' ->
  exists ps', composite_of h ix (ps ++ ps') rv'.
Proof.
  induction n as [|n IH]; intros ps rv rv' Hc.
  - rewrite seqZ_nil by lia. simpl. intros [= <-]. exists []. by rewrite app_nil_r.
  - rewrite seqZ_cons by lia. cbn [fold_left].
    destruct (append_segment now h ix (Ok rv) (Z.of_nat (S (length ps)))) as [rv1|e] eqn:E.
    + destruct (append_segment_composite ps rv rv1 Hc E) as [s Hs].
      replace (Z.succ (Z.of_nat (S (length ps)))) with (Z.of_nat (S (length (ps ++ [s]))))
        by (rewrite length_app; simpl; lia).
      replace (Z.pred (Z.of_nat (S n))) with (Z.of_nat n) by lia.
      intros H. destruct (IH _ _ _ Hs H) as [ps' Hps'].
      exists (s :: ps'). by rewrite <- app_assoc in Hps'.
    + by rewrite fold_append_error.
Qed.

(** What materialisation returns, when it returns: a new record at
    the end of the store, whose [parts] are the occupants of the slots
    in order and whose [location] lists their [location]s. *)
Lemma create_composite h' (c : nat) :
  _create_message_from_reassembly_index now h ix = Ok (h', c) ->
  exists m ps, h' = h ++ [m] /\ c = length h /\ composite_of h ix ps m.
Proof.
  unfold _create_message_from_reassembly_index.
  destruct (JsObj.get (seg_key 1) ix) as [f|] eqn:Ef; [|done].
  match goal with
  | |- context [fold_left _ (seqZ 2 ?len) (Ok ?rv0)] =>
      set (n := len); set (first := rv0)
  end.
  assert (composite_of h ix [f] first) as H0.
  { unfold composite_of. cbn. split_and!; try done.
    intros [|i] r; [|done]. by intros [= <-]. }
  destruct (fold_left _ _ _) as [rv|e] eqn:E; [|done].
  cbn [bind]. intros [= <- <-].
  replace (seqZ 2 n) with (seqZ (Z.of_nat (S (length [f]))) (Z.of_nat (Z.to_nat n))) in E.
  2: { simpl. destruct (decide (0 <= n)).
       - by rewrite Z2Nat.id.
       - rewrite !seqZ_nil; [done|lia|lia]. }
  destruct (fold_append_composite _ _ _ _ H0 E) as [ps' Hps'].
  by exists rv, ([f] ++ ps').
Qed.

End Materialise.

Lemma reassemble_composite now h (t : nat) v h' (c : nat) :
  reassemble now h t v = Ok (h', Some c) ->
  exists ix m ps, h' = h ++ [m] /\ c = length h /\ composite_of h ix ps m.
Proof.
  unfold reassemble.
  destruct (_build_reassembly_index now h t v) as [ix|e]; [|done]. cbn [bind].
  destruct (_ =? _); [|done].
  destruct (_create_message_from_reassembly_index now h ix) as [[h1 c1]|e] eqn:E; [|done].
  cbn. intros [= <- <-]. exists ix. by apply create_composite in E.
Qed.



Lemma notify_receive_error_queue st e (r : nat) :
  _inbound_queue (_notify_receive_error st e r) = _inbound_queue st.
Proof. unfold _notify_receive_error. by destruct (on_error (_handlers st)). Qed.





(** ** Materialisation from parsed parts *)

Section Parsed.
Variable now : Z.
Variable h : list message.
Variable ix : JsObj.t nat.

Lemma comparable_app_inv first d v :
  comparable first (d ++ [v]) ->
  comparable first d /\ (first = TsUndefined \/ exists b, v = TsMoment b).
Proof.
  intros [->|H]; [split; by left|].
  rewrite app_comm_cons in H. apply Forall_app in H as [Hd Hv].
  split; [by right|]. right. by inversion_clear Hv.
Qed.

Lemma comparable_prefix first d d' : comparable first (d ++ d') -> comparable first d.
Proof.
  intros [->|H]; [by left|]. right.
  rewrite app_comm_cons in H. by apply Forall_app in H as [Hd _].
Qed.

Lemma use_latest_step first d v :
  comparable first (d ++ [v]) ->
  use_latest now (latest first d) v = Ok (latest first (d ++ [v])).
Proof.
  intros [Hd Hv]%comparable_app_inv. destruct Hd as [->|Hd]; [done|].
  inversion_clear Hd as [|? ? [a ->] _].
  destruct Hv as [?|[b ->]]; [done|].
  unfold latest, use_latest. rewrite map_app, fold_left_app. cbn.
  set (m := fold_left Z.max (map (moment 0) d) a).
  destruct (Z.ltb_spec m b); do 2 f_equal; lia.
Qed.

(** The loop of [_create_message_from_reassembly_index] over slots
    [length done + 1, ...], when those slots hold [todo] and the time
    stamps can be compared. *)
Lemma fold_append_parsed (todo : list nat) : forall (f : nat) (done : list nat) rv,
  (forall (i : nat) r, todo !! i = Some r ->
     JsObj.get (seg_key (Z.of_nat (S (S (length done + i))))) ix = Some r) ->
  comparable (timestamp (h !!! f)) (map (fun r => timestamp (h !!! r)) (done ++ todo)) ->
  comparable (smsc_timestamp (h !!! f))
    (map (fun r => smsc_timestamp (h !!! r)) (done ++ todo)) ->
  parts rv = Some (f :: done) ->
  location rv = LocList (map (fun r => location (h !!! r)) (f :: done)) ->
  content rv = joined_content h f done ->
  timestamp rv = latest (timestamp (h !!! f)) (map (fun r => timestamp (h !!! r)) done) ->
  smsc_timestamp rv =
    latest (smsc_timestamp (h !!! f)) (map (fun r => smsc_timestamp (h !!! r)) done) ->
  exists rv',
    fold_left (append_segment now h ix)
      (seqZ (Z.of_nat (S (S (length done)))) (Z.of_nat (length todo))) (Ok rv) = Ok rv' /\
    parts rv' = Some (f :: done ++ todo) /\
    location rv' = LocList (map (fun r => location (h !!! r)) (f :: done ++ todo)) /\
    content rv' = joined_content h f (done ++ todo) /\
    timestamp rv' =
      latest (timestamp (h !!! f)) (map (fun r => timestamp (h !!! r)) (done ++ todo)) /\
    smsc_timestamp rv' =
      latest (smsc_timestamp (h !!! f))
        (map (fun r => smsc_timestamp (h !!! r)) (done ++ todo)) /\
    from rv' = from rv /\ udh rv' = udh rv /\ total_segments rv' = total_segments rv /\
    segment rv' = segment rv /\ id rv' = id rv.
Proof.
  induction todo as [|s todo IH]; intros f done rv Hslots Hts Hsmsc Hps Hloc Hc Ht Hs.
  - rewrite seqZ_nil by (simpl; lia). rewrite app_nil_r in *. exists rv. by split_and!.
  - rewrite seqZ_cons by (simpl; lia). cbn [fold_left].
    pose proof (Hslots 0%nat s eq_refl) as Hslot. rewrite Nat.add_0_r in Hslot.
    assert (comparable (timestamp (h !!! f))
              (map (fun r => timestamp (h !!! r)) done ++ [timestamp (h !!! s)])) as Hts1.
    { replace (done ++ s :: todo) with ((done ++ [s]) ++ todo) in Hts
        by (by rewrite <- app_assoc).
      rewrite map_app in Hts. apply comparable_prefix in Hts. by rewrite map_app in Hts. }
    assert (comparable (smsc_timestamp (h !!! f))
              (map (fun r => smsc_timestamp (h !!! r)) done ++ [smsc_timestamp (h !!! s)]))
      as Hsmsc1.
    { replace (done ++ s :: todo) with ((done ++ [s]) ++ todo) in Hsmsc
        by (by rewrite <- app_assoc).
      rewrite map_app in Hsmsc. apply comparable_prefix in Hsmsc.
      by rewrite map_app in Hsmsc. }
    unfold append_segment at 2. cbn [bind]. rewrite Hslot, Ht, Hs.
    rewrite (use_latest_step _ _ _ Hts1). cbn [bind].
    rewrite (use_latest_step _ _ _ Hsmsc1). cbn [bind].
    replace (Z.succ (Z.of_nat (S (S (length done)))))
      with (Z.of_nat (S (S (length (done ++ [s])))))
      by (rewrite length_app; simpl; lia).
    replace (Z.pred (Z.of_nat (length (s :: todo)))) with (Z.of_nat (length todo))
      by (simpl; lia).
    replace (done ++ s :: todo) with ((done ++ [s]) ++ todo) in *
      by (by rewrite <- app_assoc).
    edestruct (IH f (done ++ [s])) as (rv' & Hfold & Hrest); last first.
    { exists rv'. split; [exact Hfold|]. exact Hrest. }
    all: cbn [parts location content timestamp smsc_timestamp].
    + by rewrite !map_app.
    + by rewrite !map_app.
    + unfold joined_content. by rewrite fold_left_app, Hc.
    + rewrite Hloc. cbn [push_location map]. by rewrite map_app.
    + by rewrite Hps.
    + done.
    + done.
    + intros i r Hi. rewrite length_app. simpl.
      replace (length done + 1 + i)%nat with (length done + S i)%nat by lia.
      by apply Hslots.
Qed.

End Parsed.

(** Materialisation of an index whose slots are all held. *)
Lemma materialise_from_slots now (h : list message) (ix : JsObj.t nat) (f : nat)
  (rest : list nat) :
  JsObj.get (seg_key 1) ix = Some f ->
  (forall (i : nat) r, rest !! i = Some r ->
     JsObj.get (seg_key (Z.of_nat (S (S i)))) ix = Some r) ->
  total_segments (h !!! f) = Z.of_nat (S (length rest)) ->
  comparable (timestamp (h !!! f)) (map (fun r => timestamp (h !!! r)) rest) ->
  comparable (smsc_timestamp (h !!! f)) (map (fun r => smsc_timestamp (h !!! r)) rest) ->
  exists m,
    _create_message_from_reassembly_index now h ix = Ok (h ++ [m], length h) /\
    content m = joined_content h f rest /\
    location m = LocList (map (fun r => location (h !!! r)) (f :: rest)) /\
    parts m = Some (f :: rest) /\
    segment m = SegFalse /\ id m = IdFalse /\
    timestamp m = latest (timestamp (h !!! f)) (map (fun r => timestamp (h !!! r)) rest) /\
    smsc_timestamp m =
      latest (smsc_timestamp (h !!! f)) (map (fun r => smsc_timestamp (h !!! r)) rest).
Proof.
  intros Hf Hslots Htot Hts Hsmsc. unfold _create_message_from_reassembly_index.
  rewrite Hf. cbn [total_segments]. rewrite Htot.
  replace (Z.of_nat (S (length rest)) - 1) with (Z.of_nat (length rest)) by lia.
  edestruct (fold_append_parsed now h ix rest f []) as (rv & -> & Hrest);
    [exact Hslots|exact Hts|exact Hsmsc|..]; try done.
  - destruct (timestamp (h !!! f)); done.
  - destruct (smsc_timestamp (h !!! f)); done.
  - cbn [bind]. exists rv. by destruct Hrest as (? & ? & ? & ? & ? & _ & _ & _ & ? & ?).
Qed.


(** The transform never touches [smsc_timestamp]. *)
Lemma transform_keeps_smsc_timestamp now m :
  smsc_timestamp (_transform_received_message now m) = smsc_timestamp m.
Proof. unfold _transform_received_message. by repeat case_match. Qed.

Lemma use_latest_error now a b e : use_latest now a b = Err e -> e = TypeError.
Proof.
  unfold use_latest, isBefore. destruct (ts_truthy a); [|done].
  destruct a; cbn; by intros [= <-].
Qed.

(** Whenever the first part still has the helper's text as its
    [smsc_timestamp] and there is a second slot to append,
    materialisation raises a type error. *)
Lemma raw_smsc_timestamp_raises now (h : list message) (ix : JsObj.t nat) (f s : nat) raw :
  JsObj.get (seg_key 1) ix = Some f ->
  JsObj.get (seg_key 2) ix = Some s ->
  1 < total_segments (h !!! f) ->
  smsc_timestamp (h !!! f) = TsRaw raw ->
  _create_message_from_reassembly_index now h ix = Err TypeError.
Proof.
  intros Hf Hs Htot Hraw. unfold _create_message_from_reassembly_index.
  rewrite Hf. cbn [total_segments]. rewrite seqZ_cons by lia. cbn [fold_left].
  unfold append_segment at 2. cbn [bind]. rewrite Hs.
  cbn [timestamp smsc_timestamp]. rewrite Hraw.
  destruct (use_latest now (timestamp (h !!! f)) (timestamp (h !!! s))) as [ts|e] eqn:E.
  - cbn. by rewrite fold_append_error.
  - apply use_latest_error in E as ->. cbn. by rewrite fold_append_error.
Qed.

(** C4.  The transform turns [timestamp] into a [moment] and leaves
    [smsc_timestamp] as the helper printed it; with both slots of a
    two-part message filled by such records, materialisation raises a
    type error instead of returning the composite, and the receive
    phase reports an error for each part and delivers nothing.  When
    the records carry no [smsc_timestamp] the composite is returned
    with the contents joined, the locations listed and the later
    [timestamp]. *)
Theorem smsc_timestamp_not_parsed :
  map timestamp stamped_parts = [TsMoment 100; TsMoment 101] /\
  map smsc_timestamp stamped_parts = [TsRaw 90; TsRaw 91] /\
  _create_message_from_reassembly_index 0 stamped_parts both_slots = Err TypeError /\
  (let st := (_receive_messages 0 (set_handlers (Handlers (Some (fun _ _ => None))
                                                   false true None None false)
                                     (initialize Opt.none))
                (Parsed [wire 10 "Hello " 1 100 (TsRaw 90);
                         wire 11 "world" 2 101 (TsRaw 91)])).1 in
   events st = [EvErrorReceive TypeError 0; EvErrorReceive TypeError 1] /\
   _deletion_index st = []) /\
  _create_message_from_reassembly_index 0 plain_parts both_slots =
    Ok (plain_parts ++
          [Message (LocList [LocNum 10; LocNum 11]) "+1" "Hello world" (Some 7) SegFalse 2
             (TsMoment 101) TsUndefined IdFalse (Some [0; 1]%nat)],
        2%nat).
Proof. repeat split; vm_compute; reflexivity. Qed.

(** ** The queue after a transmit phase *)

Lemma deliver_transmit_result_sent st sent r st' sent' :
  deliver_transmit_result st sent r = Ok (st', sent') ->
  sent' = mark_sent sent r.
Proof.
  unfold deliver_transmit_result, mark_sent.
  destruct (array_get (_outbound_queue st) (Tx.index r - 1)); [|discriminate].
  destruct (String.eqb (Tx.result r) "success"); simpl.
  - by intros [= <- <-].
  - by repeat case_match; intros [= <- <-].
Qed.

Lemma deliver_transmit_loop_sent rs : forall st sent st' sent',
  deliver_transmit_loop st sent rs = (st', sent', None) ->
  sent' = fold_left mark_sent rs sent.
Proof.
  induction rs as [|r rs IH]; intros st sent st' sent'; simpl.
  - by intros [= <- <-].
  - destruct (deliver_transmit_result st sent r) as [[st1 sent1]|e] eqn:E; [|discriminate].
    apply deliver_transmit_result_sent in E as ->. apply IH.
Qed.

Lemma get_marks rs : forall sent i,
  JsObj.get (pretty i) (fold_left mark_sent rs sent) =
    if succeeded rs i then Some true else JsObj.get (pretty i) sent.
Proof.
  induction rs as [|r rs IH]; intros sent i; simpl; [done|].
  rewrite IH. unfold mark_sent.
  destruct (String.eqb (Tx.result r) "success"); simpl; [|done].
  destruct (Tx.index r - 1 =? i) eqn:E; simpl.
  - apply Z.eqb_eq in E as ->. rewrite JsObjFacts.get_set_eq. by destruct (succeeded rs i).
  - apply Z.eqb_neq in E. rewrite JsObjFacts.get_set_ne; [done|].
    intros H. by apply (inj pretty) in H.
Qed.

Lemma reject_sent_unsent rs sent q : forall i,
  (forall j, JsObj.get (pretty j) sent = if succeeded rs j then Some true else None) ->
  reject_sent sent i q = unsent rs i q.
Proof.
  induction q as [|m q IH]; intros i H; simpl; [done|].
  rewrite H, IH by done. by destruct (succeeded rs i).
Qed.

(** X1.  When a transmit phase has been through all the results the
    helper printed, [_outbound_queue] holds, in their former order,
    exactly the items whose position in the queue no result reports
    as a success. *)
Theorem transmit_results_queue (st : state) (rs : list Tx.t) (st' : state) :
  _deliver_transmit_results st rs = (st', Finished) ->
  _outbound_queue st' = unsent rs 0 (_outbound_queue st).
Proof.
  unfold _deliver_transmit_results.
  destruct (deliver_transmit_loop st JsObj.empty rs) as [[st1 sent] [e|]] eqn:E;
    [discriminate|].
  intros [= <-]. simpl.
  pose proof (deliver_transmit_loop_sent _ _ _ _ _ E) as ->.
  apply deliver_transmit_loop_attempts in E as (_ & -> & _).
  apply reject_sent_unsent. intros j. by rewrite get_marks.
Qed.

Lemma transmit_results_queue_witness :
  _deliver_transmit_results three_queued mixed_results
    = ((_deliver_transmit_results three_queued mixed_results).1, Finished) /\
  _outbound_queue (_deliver_transmit_results three_queued mixed_results).1 = [1%nat].
Proof.
  assert (_deliver_transmit_results three_queued mixed_results
          = ((_deliver_transmit_results three_queued mixed_results).1, Finished)) as H
    by (vm_compute; reflexivity).
  split; [exact H|].
  rewrite (transmit_results_queue _ _ _ H). vm_compute. reflexivity.
Defined.

(** ** A result that names no queued item *)

Lemma deliver_transmit_result_error st sent r e :
  deliver_transmit_result st sent r = Err e ->
  e = TypeError /\ array_get (_outbound_queue st) (Tx.index r - 1) = None.
Proof.
  unfold deliver_transmit_result.
  destruct (array_get (_outbound_queue st) (Tx.index r - 1)).
  - by repeat case_match.
  - by intros [= <-].
Qed.

Lemma deliver_transmit_loop_out_of_range rs r : forall st sent,
  r ∈ rs ->
  array_get (_outbound_queue st) (Tx.index r - 1) = None ->
  exists st' sent', deliver_transmit_loop st sent rs = (st', sent', Some TypeError).
Proof.
  induction rs as [|r0 rs IH]; intros st sent Hin Hr; [by apply elem_of_nil in Hin|].
  simpl. destruct (deliver_transmit_result st sent r0) as [[st1 sent1]|e] eqn:E.
  - apply elem_of_cons in Hin as [->|Hin].
    + unfold deliver_transmit_result in E. by rewrite Hr in E.
    + apply deliver_transmit_result_attempts in E as (_ & Hq & _).
      apply IH; [done|by rewrite Hq].
  - apply deliver_transmit_result_error in E as [-> _]. eauto.
Qed.

(** X2.  If one of the results names a position at which the queue
    has no item (an [index] below 1 or beyond its length), the phase
    ends in a [TypeError] before the queue is rebuilt: no item leaves
    [_outbound_queue], not even one that an earlier result of the same
    output reported as sent. *)
Theorem transmit_result_out_of_range (st : state) (rs : list Tx.t) (r : Tx.t) :
  r ∈ rs ->
  array_get (_outbound_queue st) (Tx.index r - 1) = None ->
  exists st', _deliver_transmit_results st rs = (st', Thrown TypeError) /\
    _outbound_queue st' = _outbound_queue st.
Proof.
  intros Hin Hr. unfold _deliver_transmit_results.
  destruct (deliver_transmit_loop_out_of_range rs r st JsObj.empty Hin Hr)
    as (st' & sent' & E).
  rewrite E. exists st'. split; [done|].
  by apply deliver_transmit_loop_attempts in E as (_ & -> & _).
Qed.

Lemma transmit_result_out_of_range_witness :
  exists st',
    _deliver_transmit_results three_queued [Tx.Make 1 "success"; Tx.Make 0 "success"]
      = (st', Thrown TypeError) /\
    _outbound_queue st' = _outbound_queue three_queued.
Proof.
  apply (transmit_result_out_of_range three_queued _ (Tx.Make 0 "success")).
  - apply list_elem_of_further, list_elem_of_here.
  - vm_compute. reflexivity.
Defined.

(** ** The retry schedule *)

Lemma run_repeat_S o (k : nat) st :
  run (repeat o (S k)) st = step (run (repeat o k) st) o.
Proof.
  unfold run. change (repeat o (S k)) with (o :: repeat o k).
  rewrite repeat_cons. by rewrite fold_left_app.
Qed.

(** One failure of an item that may be tried again. *)
Lemma step_failure_retried st i (m : nat) res :
  array_get (_outbound_queue st) i = Some m ->
  (m < length (out_store st))%nat ->
  res <> "success" ->
  let item := out_store st !!! m in
  let attempts := if Out.tx_attempts item =? 0 then 1 else Out.tx_attempts item in
  _tx_attempt_limit st = 0 \/ attempts < _tx_attempt_limit st ->
  let st' := step st (failure_at i res) in
  events st' = events st /\ _outbound_queue st' = _outbound_queue st /\
  _tx_attempt_limit st' = _tx_attempt_limit st /\ _handlers st' = _handlers st /\
  length (out_store st') = length (out_store st) /\
  out_store st' !!! m = Out.set_tx_attempts (attempts + 1) item.
Proof.
  intros Hm Hlen Hres item attempts Hlim. simpl.
  unfold _transmit_messages.
  destruct (_outbound_queue st) as [|m0 q] eqn:Hq.
  { unfold array_get in Hm. by destruct (i <? 0). }
  rewrite <- Hq in *. unfold _deliver_transmit_results. simpl.
  unfold deliver_transmit_result. simpl.
  replace (i + 1 - 1) with i by lia. rewrite Hm.
  apply String.eqb_neq in Hres. rewrite Hres. cbn [negb]. fold item. fold attempts.
  assert ((_tx_attempt_limit st =? 0) || (attempts <? _tx_attempt_limit st) = true) as ->.
  { apply orb_true_iff. destruct Hlim as [H|H]; [left; by apply Z.eqb_eq|right; by apply Z.ltb_lt]. }
  simpl. rewrite reject_sent_empty. split_and!; try done.
  - by rewrite length_insert.
  - by rewrite list_lookup_total_insert_eq.
Qed.

(** One failure of an item that has used up its attempts. *)
Lemma step_failure_reported st i (m : nat) res :
  array_get (_outbound_queue st) i = Some m ->
  res <> "success" ->
  let item := out_store st !!! m in
  let attempts := if Out.tx_attempts item =? 0 then 1 else Out.tx_attempts item in
  0 < _tx_attempt_limit st <= attempts ->
  let st' := step st (failure_at i res) in
  events st' = events (_notify_transmit_error st failed_to_transmit m) /\
  _outbound_queue st' = _outbound_queue st.
Proof.
  intros Hm Hres item attempts Hlim. simpl.
  unfold _transmit_messages.
  destruct (_outbound_queue st) as [|m0 q] eqn:Hq.
  { unfold array_get in Hm. by destruct (i <? 0). }
  rewrite <- Hq in *. unfold _deliver_transmit_results. simpl.
  unfold deliver_transmit_result. simpl.
  replace (i + 1 - 1) with i by lia. rewrite Hm.
  apply String.eqb_neq in Hres. rewrite Hres. cbn [negb]. fold item. fold attempts.
  assert ((_tx_attempt_limit st =? 0) || (attempts <? _tx_attempt_limit st) = false) as ->.
  { apply orb_false_iff. split; [apply Z.eqb_neq|apply Z.ltb_ge]; lia. }
  simpl. rewrite reject_sent_empty.
  unfold _notify_transmit_error, failed_to_transmit. by repeat case_match.
Qed.

Lemma silent_failures st i (m : nat) res :
  array_get (_outbound_queue st) i = Some m ->
  (m < length (out_store st))%nat ->
  Out.tx_attempts (out_store st !!! m) = 0 ->
  res <> "success" ->
  forall k : nat,
    _tx_attempt_limit st = 0 \/ Z.of_nat k < _tx_attempt_limit st ->
    let st' := run (repeat (failure_at i res) k) st in
    events st' = events st /\ _outbound_queue st' = _outbound_queue st /\
    _tx_attempt_limit st' = _tx_attempt_limit st /\ _handlers st' = _handlers st /\
    length (out_store st') = length (out_store st) /\
    out_store st' !!! m =
      Out.set_tx_attempts (if k is O then 0 else Z.of_nat k + 1) (out_store st !!! m).
Proof.
  intros Hm Hlen Hz Hres. induction k as [|k IH]; intros Hlim.
  - simpl. split_and!; try done. rewrite <- Hz. by destruct (out_store st !!! m).
  - intros st'. subst st'. rewrite run_repeat_S.
    destruct IH as (He & Hq & Hl & Hh & Hlen' & Hitem); [lia|].
    set (st1 := run (repeat (failure_at i res) k) st) in *.
    assert ((if Out.tx_attempts (out_store st1 !!! m) =? 0 then 1
             else Out.tx_attempts (out_store st1 !!! m)) = Z.of_nat k + 1) as Hattempts.
    { rewrite Hitem. simpl. destruct k; simpl; [done|].
      destruct (Z.of_nat (S k) + 1 =? 0) eqn:E; [apply Z.eqb_eq in E; lia|done]. }
    destruct (step_failure_retried st1 i m res) as (He1 & Hq1 & Hl1 & Hh1 & Hlen1 & Hitem1).
    + by rewrite Hq.
    + by rewrite Hlen'.
    + done.
    + rewrite Hattempts, Hl. lia.
    + split_and!; try congruence.
      rewrite Hitem1, Hattempts, Hitem. unfold Out.set_tx_attempts. simpl.
      f_equal. lia.
Qed.

(** X3.  An item that [send] has just queued ([tx_attempts] 0) and
    that the helper keeps failing to send: with an attempt limit [n]
    above 0, its first [n - 1] failures call nobody and leave
    [tx_attempts] at one more than the number of failures so far, and
    its [n]-th failure calls the item's callback and the [error]
    handler with [Failed to transmit]; with the limit at 0 no failure
    ever does.  The item is in the queue throughout. *)
Theorem retry_schedule (st : state) (i : Z) (m : oref) (res : string) :
  array_get (_outbound_queue st) i = Some m ->
  (m < length (out_store st))%nat ->
  Out.tx_attempts (out_store st !!! m) = 0 ->
  res <> "success" ->
  (forall k : nat,
     _tx_attempt_limit st = 0 \/ Z.of_nat k < _tx_attempt_limit st ->
     events (run (repeat (failure_at i res) k) st) = events st /\
     _outbound_queue (run (repeat (failure_at i res) k) st) = _outbound_queue st /\
     Out.tx_attempts (out_store (run (repeat (failure_at i res) k) st) !!! m) =
       if k is O then 0 else Z.of_nat k + 1) /\
  (forall n : nat,
     0 < _tx_attempt_limit st -> Z.of_nat n = _tx_attempt_limit st ->
     events (run (repeat (failure_at i res) n) st) =
       events (_notify_transmit_error st failed_to_transmit m) /\
     _outbound_queue (run (repeat (failure_at i res) n) st) = _outbound_queue st).
Proof.
  intros Hm Hlen Hz Hres. split.
  - intros k Hlim.
    destruct (silent_failures st i m res Hm Hlen Hz Hres k Hlim)
      as (He & Hq & _ & _ & _ & Hitem).
    split_and!; [done|done|]. by rewrite Hitem.
  - intros n Hpos Hn. destruct n as [|k]; [simpl in Hn; lia|].
    rewrite run_repeat_S.
    destruct (silent_failures st i m res Hm Hlen Hz Hres k)
      as (He & Hq & Hl & Hh & Hlen' & Hitem); [lia|].
    set (st1 := run (repeat (failure_at i res) k) st) in *.
    destruct (step_failure_reported st1 i m res) as [He1 Hq1].
    + by rewrite Hq.
    + done.
    + rewrite Hitem, Hl. simpl. destruct k; simpl; [lia|].
      destruct (Z.of_nat (S k) + 1 =? 0) eqn:E; [apply Z.eqb_eq in E; lia|lia].
    + split; [|congruence]. rewrite He1.
      unfold _notify_transmit_error. rewrite Hitem. simpl.
      destruct (Out.callback (out_store st !!! m)); simpl; rewrite Hh;
        destruct (on_error (_handlers st)); simpl; by rewrite He.
Qed.

Lemma retry_schedule_witness :
  events (run (repeat (failure_at 0 "failure") 1) retry_start) = [] /\
  events (run (repeat (failure_at 0 "failure") 2) retry_start) =
    [EvCallback 0 (Some failed_to_transmit); EvErrorTransmit failed_to_transmit 0].
Proof.
  pose proof (retry_schedule retry_start 0 0%nat "failure") as H.
  destruct H as [Hsilent Hloud].
  - vm_compute. reflexivity.
  - vm_compute. lia.
  - vm_compute. reflexivity.
  - discriminate.
  - split.
    + destruct (Hsilent 1%nat) as [He _]; [right; vm_compute; reflexivity|].
      exact He.
    + destruct (Hloud 2%nat) as [He _]; [vm_compute; reflexivity|vm_compute; reflexivity|].
      exact He.
Defined.

(** ** Queueing *)

Lemma to_and_content_allocated os new (q : list nat) :
  Forall (fun m : nat => (m < length os)%nat) q ->
  to_and_content (os ++ new) q = to_and_content os q.
Proof.
  induction 1 as [|m q Hm Hq IH]; [done|].
  unfold to_and_content in *. cbn [flat_map]. rewrite IH.
  by rewrite lookup_total_app_l.
Qed.

(** X4.  [send] with two strings and no callback or a function puts
    one new item at the tail of [_outbound_queue], with no attempt
    counted, and changes none of the items queued before it: the
    arguments of the next [gammu-json send] are those it would have
    had, followed by the new destination and text if the batch has
    room for one more item. *)
Theorem send_appends (st : state) (t c : string) (cb : callback_arg) :
  queue_allocated st ->
  cb <> CbOther ->
  exists st' m,
    send st (ArgString t) (ArgString c) cb = Ok st' /\
    _outbound_queue st' = _outbound_queue st ++ [m] /\
    out_store st' !!! m = Out.Item t 0 c (if cb is CbFunction then true else false) /\
    queue_allocated st' /\
    transmit_argv st' =
      if Z.of_nat (length (_outbound_queue st)) <? _transmit_batch_size st - 1
      then transmit_argv st ++ [t; c] else transmit_argv st.
Proof.
  intros Hq Hcb.
  exists (set_outbound_queue (_outbound_queue st ++ [length (out_store st)])
            (set_out_store
               (out_store st ++ [Out.Item t 0 c (if cb is CbFunction then true else false)])
               st)),
    (length (out_store st)).
  split_and!.
  - by destruct cb.
  - done.
  - simpl. by rewrite lookup_total_app_r, Nat.sub_diag.
  - unfold queue_allocated in *. simpl. rewrite length_app. simpl.
    apply Forall_app. split.
    + eapply Forall_impl; [exact Hq|]. simpl. lia.
    + repeat constructor. lia.
  - unfold transmit_argv, _create_message_transmission_args.
    cbn [set_outbound_queue set_out_store _transmit_batch_size out_store _outbound_queue].
    rewrite !transmission_args_from_take, !Z.sub_0_r.
    set (n := Z.to_nat (_transmit_batch_size st - 1)).
    destruct (Z.of_nat (length (_outbound_queue st)) <? _transmit_batch_size st - 1) eqn:E.
    + apply Z.ltb_lt in E.
      rewrite !take_ge by (rewrite ?length_app; simpl; lia).
      unfold to_and_content at 1. rewrite flat_map_app. cbn [flat_map app].
      rewrite lookup_total_app_r, Nat.sub_diag by done. cbn.
      fold (to_and_content
              (out_store st ++ [Out.Item t 0 c (if cb is CbFunction then true else false)])
              (_outbound_queue st)).
      by rewrite to_and_content_allocated.
    + apply Z.ltb_ge in E. rewrite take_app_le by lia.
      rewrite to_and_content_allocated; [done|].
      unfold queue_allocated in Hq. rewrite Forall_forall in Hq |- *.
      intros m (i & Hi & _)%elem_of_take. apply Hq. by eapply list_elem_of_lookup_2.
Qed.

Lemma send_appends_witness :
  exists st' m,
    send three_queued (ArgString "+4") (ArgString "d") CbFunction = Ok st' /\
    _outbound_queue st' = _outbound_queue three_queued ++ [m] /\
    out_store st' !!! m = Out.Item "+4" 0 "d" true /\
    queue_allocated st' /\
    transmit_argv st' = transmit_argv three_queued ++ ["+4"; "d"].
Proof.
  apply (send_appends three_queued "+4" "d" CbFunction).
  - unfold queue_allocated. vm_compute. repeat constructor.
  - discriminate.
Defined.

(** ** The message index *)

Lemma fold_set_other {V : Type} (c : V) (names : list string) : forall (ix : JsObj.t V) k,
  k ∉ names ->
  JsObj.get k (fold_left (fun ix name => JsObj.set name c ix) names ix) = JsObj.get k ix.
Proof.
  induction names as [|name names IH]; intros ix k Hk; simpl; [done|].
  apply not_elem_of_cons in Hk as [Hne Hk].
  rewrite IH by done. by apply JsObjFacts.get_set_ne.
Qed.

Lemma fold_set_named {V : Type} (c : V) (names : list string) : forall (ix : JsObj.t V) k,
  k ∈ names ->
  JsObj.get k (fold_left (fun ix name => JsObj.set name c ix) names ix) = Some c.
Proof.
  induction names as [|name names IH]; intros ix k Hk; simpl;
    [by apply elem_of_nil in Hk|].
  destruct (decide (k ∈ names)) as [Hin|Hout]; [by apply IH|].
  apply elem_of_cons in Hk as [->|Hk]; [|done].
  rewrite fold_set_other by done. apply JsObjFacts.get_set_eq.
Qed.

Lemma message_index_add_fold h (c : nat) (ix : JsObj.t nat) :
  _message_index_add h c ix =
  fold_left (fun ix name => JsObj.set name c ix)
    (map loc_key (locations_of (location (h !!! c)))) ix.
Proof.
  unfold _message_index_add.
  generalize (locations_of (location (h !!! c))). intros locs. revert ix.
  induction locs as [|loc locs IH]; intros ix; simpl; [done|apply IH].
Qed.

(** X5.  Once a record has been added to an index, a look-up of any
    record whose [location] is one of the added record's locations
    finds the added record; a look-up under any other name finds what
    it found before. *)
Theorem index_add_then_lookup (h : heap) (c p : ref) (ix : JsObj.t ref) :
  (location (h !!! p) ∈ locations_of (location (h !!! c)) ->
   _message_index_lookup h p (_message_index_add h c ix) = Some c) /\
  (loc_key (location (h !!! p)) ∉ map loc_key (locations_of (location (h !!! c))) ->
   _message_index_lookup h p (_message_index_add h c ix) = _message_index_lookup h p ix).
Proof.
  unfold _message_index_lookup. rewrite message_index_add_fold. split.
  - intros Hin. apply fold_set_named. by apply (list_elem_of_fmap_2 loc_key).
  - intros Hout. by apply fold_set_other.
Qed.

Lemma index_add_then_lookup_witness :
  _message_index_lookup composite_and_parts 1%nat
    (_message_index_add composite_and_parts 2%nat [("12", 7%nat)]) = Some 2%nat /\
  _message_index_lookup composite_and_parts 3%nat
    (_message_index_add composite_and_parts 2%nat [("12", 7%nat)]) = Some 7%nat.
Proof.
  split.
  - apply (index_add_then_lookup composite_and_parts 2%nat 1%nat).
    vm_compute. apply list_elem_of_further, list_elem_of_here.
  - rewrite (proj2 (index_add_then_lookup composite_and_parts 2%nat 3%nat _)).
    + vm_compute. reflexivity.
    + vm_compute. intros H.
      apply elem_of_cons in H as [H|H]; [discriminate|].
      apply elem_of_cons in H as [H|H]; [discriminate|].
      by apply elem_of_nil in H.
Defined.

(** ** What a delete phase keeps *)

Lemma keep_undeleted_cases h detail acc i (m : nat) :
  keep_undeleted h detail acc (i, m) =
    if bool_decide (JsObj.get i detail = Some "ok") then acc
    else _message_index_add h m acc.
Proof.
  unfold keep_undeleted. destruct (JsObj.get i detail) as [verdict|]; [|done].
  destruct (decide (verdict = "ok")) as [->|Hne].
  - done.
  - rewrite bool_decide_eq_false_2 by congruence.
    repeat (case_match; try done).
Qed.

Lemma keep_undeleted_origin h detail (entries : list (string * nat)) : forall acc k m,
  JsObj.get k (fold_left (keep_undeleted h detail) entries acc) = Some m ->
  JsObj.get k acc = Some m \/
  exists k0, (k0, m) ∈ entries /\ JsObj.get k0 detail <> Some "ok".
Proof.
  induction entries as [|[i r] entries IH]; intros acc k m; cbn [fold_left]; [auto|].
  intros [H|(k0 & Hin & Hk0)]%IH.
  - rewrite keep_undeleted_cases in H.
    destruct (bool_decide (JsObj.get i detail = Some "ok")) eqn:E; [auto|].
    apply bool_decide_eq_false in E.
    rewrite message_index_add_fold in H.
    destruct (decide (k ∈ map loc_key (locations_of (location (h !!! r))))) as [Hin|Hout].
    + rewrite fold_set_named in H by done. injection H as <-.
      right. exists i. split; [left|done].
    + rewrite fold_set_other in H by done. auto.
  - right. exists k0. split; [by right|done].
Qed.

Lemma keep_undeleted_all_ok h detail (entries : list (string * nat)) : forall acc,
  (forall k, k ∈ JsObj.keys entries -> JsObj.get k detail = Some "ok") ->
  fold_left (keep_undeleted h detail) entries acc = acc.
Proof.
  induction entries as [|[i r] entries IH]; intros acc Hok; cbn [fold_left]; [done|].
  rewrite keep_undeleted_cases, bool_decide_eq_true_2.
  - apply IH. intros k Hk. apply Hok. unfold JsObj.keys. simpl. by right.
  - apply Hok. unfold JsObj.keys. simpl. left.
Qed.

(** X6.  After a delete phase that got the helper's verdicts, every
    record still in [_deletion_index] is one that an entry of the old
    index named and whose verdict there was not [ok]; when the verdict
    is [ok] for every name of the old index, the new index is empty.
    The records themselves are not touched. *)
Theorem delete_phase_keeps_only_failures (st : state) (detail : JsObj.t string)
  (st' : state) :
  _delete_messages st (Parsed detail) = (st', Finished) ->
  (forall k m, JsObj.get k (_deletion_index st') = Some m ->
     exists k0, (k0, m) ∈ _deletion_index st /\ JsObj.get k0 detail <> Some "ok") /\
  ((forall k, k ∈ JsObj.keys (_deletion_index st) -> JsObj.get k detail = Some "ok") ->
   _deletion_index st' = JsObj.empty) /\
  store st' = store st.
Proof.
  unfold _delete_messages.
  destruct (JsObj.isEmpty (_deletion_index st)) eqn:E.
  - intros [= <-]. destruct (_deletion_index st); [|discriminate]. split_and!; done.
  - intros [= <-]. simpl. split_and!; [| |done].
    + intros k m [H|H]%keep_undeleted_origin; [done|exact H].
    + intros Hok. by apply keep_undeleted_all_ok.
Qed.

Lemma delete_phase_keeps_only_failures_witness :
  _delete_messages three_delivered (Parsed partial_verdict)
    = ((_delete_messages three_delivered (Parsed partial_verdict)).1, Finished) /\
  forall k m,
    JsObj.get k (_deletion_index (_delete_messages three_delivered (Parsed partial_verdict)).1)
      = Some m ->
    exists k0, (k0, m) ∈ _deletion_index three_delivered /\
      JsObj.get k0 partial_verdict <> Some "ok".
Proof.
  assert (_delete_messages three_delivered (Parsed partial_verdict)
          = ((_delete_messages three_delivered (Parsed partial_verdict)).1, Finished)) as H
    by (vm_compute; reflexivity).
  split; [exact H|].
  exact (proj1 (delete_phase_keeps_only_failures _ _ _ H)).
Defined.

(** ** Delivery of the inbound queue *)

Lemma message_index_add_keeps h (c : nat) (ix : JsObj.t nat) k :
  k ∈ JsObj.keys ix -> k ∈ JsObj.keys (_message_index_add h c ix).
Proof.
  intros Hk. rewrite message_index_add_fold.
  destruct (JsObj.get k
              (fold_left (fun ix name => JsObj.set name c ix)
                 (map loc_key (locations_of (location (h !!! c)))) ix)) as [v|] eqn:E.
  - by apply JsObjFacts.get_Some_keys in E.
  - destruct (decide (k ∈ map loc_key (locations_of (location (h !!! c))))) as [Hin|Hout].
    + by rewrite fold_set_named in E.
    + rewrite fold_set_other in E by done. by apply JsObjFacts.get_None_keys in E.
Qed.

Lemma message_index_add_names h (c : nat) (ix : JsObj.t nat) loc :
  loc ∈ locations_of (location (h !!! c)) ->
  loc_key loc ∈ JsObj.keys (_message_index_add h c ix).
Proof.
  intros Hin. eapply JsObjFacts.get_Some_keys.
  rewrite message_index_add_fold. apply fold_set_named.
  by apply (list_elem_of_fmap_2 loc_key).
Qed.

Lemma deliver_accepted st f (m : nat) :
  on_receive (_handlers st) = Some f -> (forall h r, f h r = None) ->
  deliver_incoming_message st m = _schedule_message_for_deletion (emit (EvReceive m) st) m.
Proof.
  intros Hf Hnone. unfold deliver_incoming_message, _notify_receive.
  by rewrite Hf, Hnone.
Qed.

Lemma deliver_all_accepted f (q : list nat) : forall st,
  on_receive (_handlers st) = Some f -> (forall h r, f h r = None) ->
  NoDup q -> Forall (fun r : nat => (r < length (store st))%nat) q ->
  let st' := fold_left deliver_incoming_message q st in
  events st' = events st ++ map EvReceive q /\
  (forall k, k ∈ JsObj.keys (_deletion_index st) -> k ∈ JsObj.keys (_deletion_index st')) /\
  (forall r loc, r ∈ q -> loc ∈ locations_of (location (store st !!! r)) ->
     loc_key loc ∈ JsObj.keys (_deletion_index st')) /\
  (forall r, r ∈ q -> store st' !!! r = set_location LocFalse (store st !!! r)) /\
  (forall r, r ∉ q -> store st' !!! r = store st !!! r) /\
  length (store st') = length (store st).
Proof.
  induction q as [|m q IH]; intros st Hf Hnone Hnd Hall.
  - simpl. rewrite app_nil_r. split_and!; try done.
    + intros r loc Hr. by apply elem_of_nil in Hr.
    + intros r Hr. by apply elem_of_nil in Hr.
  - cbn [fold_left]. rewrite (deliver_accepted st f m Hf Hnone).
    apply NoDup_cons in Hnd as [Hm Hnd]. inversion_clear Hall as [|? ? Hmlen Hall'].
    set (st1 := _schedule_message_for_deletion (emit (EvReceive m) st) m).
    assert (store st1 = <[m := set_location LocFalse (store st !!! m)]> (store st)) as Hs1
      by done.
    assert (_deletion_index st1 = _message_index_add (store st) m (_deletion_index st))
      as Hd1 by done.
    destruct (IH st1) as (He & Hkeep & Hnames & Hcleared & Hframe & Hlen); try done.
    { rewrite Hs1, length_insert. done. }
    split_and!.
    + rewrite He. simpl. by rewrite <- app_assoc.
    + intros k Hk. apply Hkeep. rewrite Hd1. by apply message_index_add_keeps.
    + intros r loc [->|Hr]%elem_of_cons Hloc.
      * apply Hkeep. rewrite Hd1. by apply message_index_add_names.
      * apply (Hnames r loc Hr). rewrite Hs1.
        rewrite list_lookup_total_insert_ne; [done|]. by intros ->.
    + intros r [->|Hr]%elem_of_cons.
      * rewrite Hframe by done. rewrite Hs1. by rewrite list_lookup_total_insert_eq.
      * rewrite (Hcleared r Hr), Hs1, list_lookup_total_insert_ne; [done|].
        by intros ->.
    + intros r [Hne Hr]%not_elem_of_cons. rewrite Hframe by done. rewrite Hs1.
      by rewrite list_lookup_total_insert_ne.
    + rewrite Hlen, Hs1. apply length_insert.
Qed.

(** X7.  When the [receive] handler accepts every message, delivering
    the inbound queue calls the handler once for each queued message,
    in queue order, files every location of every one of them in
    [_deletion_index], clears the [location] of each and leaves the
    queue empty. *)
Theorem accepted_messages_are_scheduled (st : state)
  (f : heap -> ref -> option js_error) (st' : state) :
  on_receive (_handlers st) = Some f -> (forall h r, f h r = None) ->
  NoDup (_inbound_queue st) ->
  Forall (fun r : ref => (r < length (store st))%nat) (_inbound_queue st) ->
  _deliver_incoming_messages st = (st', Finished) ->
  _inbound_queue st' = [] /\
  events st' = events st ++ map EvReceive (_inbound_queue st) /\
  forall r, r ∈ _inbound_queue st ->
    location (store st' !!! r) = LocFalse /\
    forall loc, loc ∈ locations_of (location (store st !!! r)) ->
      loc_key loc ∈ JsObj.keys (_deletion_index st').
Proof.
  intros Hf Hnone Hnd Hall. unfold _deliver_incoming_messages. intros [= <-].
  destruct (deliver_all_accepted f (_inbound_queue st) st Hf Hnone Hnd Hall)
    as (He & _ & Hnames & Hcleared & _).
  split_and!; [done|exact He|].
  intros r Hr. split; [by rewrite Hcleared|]. intros loc Hloc. by apply (Hnames r).
Qed.

Lemma accepted_messages_are_scheduled_witness :
  _inbound_queue (_deliver_incoming_messages two_waiting).1 = [] /\
  events (_deliver_incoming_messages two_waiting).1 = [EvReceive 3; EvReceive 2]%nat /\
  forall r, r ∈ _inbound_queue two_waiting ->
    location (store (_deliver_incoming_messages two_waiting).1 !!! r) = LocFalse /\
    forall loc, loc ∈ locations_of (location (store two_waiting !!! r)) ->
      loc_key loc ∈ JsObj.keys (_deletion_index (_deliver_incoming_messages two_waiting).1).
Proof.
  apply (accepted_messages_are_scheduled two_waiting (fun _ _ => None)).
  - reflexivity.
  - reflexivity.
  - apply (bool_decide_unpack _). vm_compute. exact I.
  - vm_compute. repeat constructor.
  - reflexivity.
Defined.

Lemma deliver_all_refused (q : list nat) : forall st,
  (forall f, on_receive (_handlers st) = Some f -> forall h r, is_Some (f h r)) ->
  let st' := fold_left deliver_incoming_message q st in
  _deletion_index st' = _deletion_index st /\ store st' = store st /\
  _handlers st' = _handlers st /\
  events st' = events st ++
    match on_receive (_handlers st) with
    | Some _ => map EvReceive q
    | None =>
        if on_error (_handlers st)
        then map (fun _ => EvErrorGlobal (Error "No event handler available for `receive`")) q
        else []
    end.
Proof.
  induction q as [|m q IH]; intros st Hrefuse.
  - simpl. split_and!; try done. by repeat case_match; rewrite app_nil_r.
  - cbn [fold_left].
    assert (exists st1, deliver_incoming_message st m = st1 /\
              _deletion_index st1 = _deletion_index st /\ store st1 = store st /\
              _handlers st1 = _handlers st /\
              events st1 = events st ++
                match on_receive (_handlers st) with
                | Some _ => [EvReceive m]
                | None =>
                    if on_error (_handlers st)
                    then [EvErrorGlobal (Error "No event handler available for `receive`")]
                    else []
                end) as (st1 & -> & Hd & Hs & Hh & He).
    { unfold deliver_incoming_message, _notify_receive, _notify_global_error.
      destruct (on_receive (_handlers st)) as [f|] eqn:Ef.
      - destruct (Hrefuse f eq_refl (store st) m) as [e ->].
        eexists; split_and!; done.
      - destruct (on_error (_handlers st)); eexists; split_and!; try done.
        by rewrite app_nil_r. }
    destruct (IH st1) as (Hd' & Hs' & Hh' & He'); [by rewrite Hh|].
    split_and!; try congruence.
    rewrite He', He, Hh. repeat case_match; by rewrite <- app_assoc.
Qed.

(** X8.  When no [receive] handler is registered, or the one that is
    answers every message with an error, delivering the inbound queue
    files nothing in [_deletion_index] and changes no record, so every
    message stays on the modem with its [location]; the queue is
    emptied all the same.  Without a handler, each message is reported
    to the [error] handler, if there is one. *)
Theorem refused_messages_are_not_scheduled (st st' : state) :
  (forall f, on_receive (_handlers st) = Some f -> forall h r, is_Some (f h r)) ->
  _deliver_incoming_messages st = (st', Finished) ->
  _inbound_queue st' = [] /\
  _deletion_index st' = _deletion_index st /\ store st' = store st /\
  events st' = events st ++
    match on_receive (_handlers st) with
    | Some _ => map EvReceive (_inbound_queue st)
    | None =>
        if on_error (_handlers st)
        then map (fun _ => EvErrorGlobal (Error "No event handler available for `receive`"))
               (_inbound_queue st)
        else []
    end.
Proof.
  intros Hrefuse. unfold _deliver_incoming_messages. intros [= <-].
  destruct (deliver_all_refused (_inbound_queue st) st Hrefuse) as (Hd & Hs & _ & He).
  split_and!; done.
Qed.

Lemma refused_messages_are_not_scheduled_witness :
  _inbound_queue (_deliver_incoming_messages (set_handlers no_handlers two_waiting)).1 = [] /\
  _deletion_index (_deliver_incoming_messages (set_handlers no_handlers two_waiting)).1 = [] /\
  store (_deliver_incoming_messages (set_handlers no_handlers two_waiting)).1
    = composite_and_parts /\
  events (_deliver_incoming_messages (set_handlers no_handlers two_waiting)).1 = [].
Proof.
  apply (refused_messages_are_not_scheduled (set_handlers no_handlers two_waiting)).
  - intros f. discriminate.
  - reflexivity.
Defined.

(** ** What a composite is made of *)

Lemma add_occupants now h ix (t : nat) c b ix' :
  _add_to_reassembly_index now h ix t c = Ok (b, ix') ->
  forall k r, JsObj.get k ix' = Some r ->
    JsObj.get k ix = Some r \/
    (c = VObj r /\ is_valid h t c = true /\ slot_of h r = Some k).
Proof.
  unfold _add_to_reassembly_index. destruct c as [r0|]; [|by intros [= <- <-]; auto].
  destruct (is_valid h t (VObj r0)) eqn:Hv; [|by intros [= <- <-]; auto].
  destruct (segment (h !!! r0)) as [n|] eqn:Hn; [|by intros [= <- <-]; auto].
  assert (forall k r, JsObj.get k (JsObj.set (seg_key n) r0 ix) = Some r ->
            JsObj.get k ix = Some r \/
            (VObj r0 = VObj r /\ true = true /\ slot_of h r = Some k)) as Hset.
  { intros k r. rewrite JsObjFacts.get_set.
    destruct (String.eqb (seg_key n) k) eqn:Ek; [|auto].
    apply String.eqb_eq in Ek. intros [= <-]. right.
    unfold slot_of. rewrite Hn. split_and!; congruence. }
  destruct (JsObj.get (seg_key n) ix) as [occupant|].
  - destruct (isBefore now _ _) as [[|]|]; cbn [bind]; [| |done].
    + intros [= <- <-]. auto.
    + by intros [= <- <-].
  - by intros [= <- <-].
Qed.

Lemma add_segments_occupants now h (t : nat) l : forall ix ix',
  add_segments now h ix t l = Ok ix' ->
  forall k r, JsObj.get k ix' = Some r ->
    JsObj.get k ix = Some r \/
    (VObj r ∈ l /\ is_valid h t (VObj r) = true /\ slot_of h r = Some k).
Proof.
  induction l as [|c l IH]; intros ix ix'; simpl.
  - intros [= <-]. auto.
  - destruct (_add_to_reassembly_index now h ix t c) as [[b ix1]|e] eqn:E; [|done].
    cbn [bind snd]. intros H k r Hk.
    destruct (IH _ _ H k r Hk) as [Hold|(Hin & Hv & Hs)].
    + destruct (add_occupants _ _ _ _ _ _ _ E k r Hold) as [?|(-> & Hv & Hs)]; [auto|].
      right. split_and!; [left|done|done].
    + right. split_and!; [by right|done|done].
Qed.

(** Whoever holds a slot of the index that [_build_reassembly_index]
    returns passed the validity test, is filed under its own segment
    number, and is the trigger or one of the segments handed in. *)
Lemma build_occupants now h (t : nat) v ix :
  _build_reassembly_index now h t v = Ok ix ->
  forall k r, JsObj.get k ix = Some r ->
    is_valid h t (VObj r) = true /\ slot_of h r = Some k /\
    (r = t \/ exists l, v = SegsArray l /\ VObj r ∈ l).
Proof.
  unfold _build_reassembly_index. destruct v as [| |l]; [done| |].
  - destruct (_add_to_reassembly_index now h JsObj.empty t (VObj t)) as [[b ix1]|e] eqn:E;
      [|done].
    cbn [bind snd]. intros [= <-] k r Hk.
    destruct (add_occupants _ _ _ _ _ _ _ E k r Hk) as [?|([= <-] & Hv & Hs)]; [done|].
    auto.
  - destruct (add_segments now h JsObj.empty t l) as [ix0|e] eqn:E0; [|done]. cbn [bind].
    destruct (_add_to_reassembly_index now h ix0 t (VObj t)) as [[b ix1]|e] eqn:E; [|done].
    cbn [bind snd]. intros [= <-] k r Hk.
    destruct (add_occupants _ _ _ _ _ _ _ E k r Hk) as [Hold|([= <-] & Hv & Hs)]; [|auto].
    destruct (add_segments_occupants _ _ _ _ _ _ E0 k r Hold) as [?|(Hin & Hv & Hs)];
      [done|].
    split_and!; [done|done|]. right. by exists l.
Qed.

Section Complete.
Variable now : Z.
Variable h : list message.
Variable ix : JsObj.t nat.

Lemma append_segment_total rv rv' i :
  append_segment now h ix (Ok rv) i = Ok rv' -> total_segments rv' = total_segments rv.
Proof.
  unfold append_segment. cbn [bind].
  destruct (JsObj.get (seg_key i) ix) as [s|]; [|done].
  destruct (use_latest now (timestamp rv) _) as [ts|]; [|done]. cbn [bind].
  destruct (use_latest now (smsc_timestamp rv) _) as [smsc|]; [|done]. cbn [bind].
  by intros [= <-].
Qed.

Lemma fold_append_complete (n : nat) : forall ps rv rv',
  composite_of h ix ps rv ->
  fold_left (append_segment now h ix)
    (seqZ (Z.of_nat (S (length ps))) (Z.of_nat n)) (Ok rv) = Ok rv' ->
  exists ps', composite_of h ix (ps ++ ps') rv' /\ length ps' = n /\
    total_segments rv' = total_segments rv.
Proof.
  induction n as [|n IH]; intros ps rv rv' Hc.
  - rewrite seqZ_nil by lia. simpl. intros [= <-]. exists []. by rewrite app_nil_r.
  - rewrite seqZ_cons by lia. cbn [fold_left].
    destruct (append_segment now h ix (Ok rv) (Z.of_nat (S (length ps)))) as [rv1|e] eqn:E.
    + destruct (append_segment_composite now h ix ps rv rv1 Hc E) as [s Hs].
      apply append_segment_total in E.
      replace (Z.succ (Z.of_nat (S (length ps)))) with (Z.of_nat (S (length (ps ++ [s]))))
        by (rewrite length_app; simpl; lia).
      replace (Z.pred (Z.of_nat (S n))) with (Z.of_nat n) by lia.
      intros H. destruct (IH _ _ _ Hs H) as (ps' & Hps' & Hlen & Htot).
      exists (s :: ps'). rewrite <- app_assoc in Hps'.
      split_and!; [done|simpl; lia|congruence].
    + by rewrite fold_append_error.
Qed.

Lemma create_complete h' (c : nat) :
  _create_message_from_reassembly_index now h ix = Ok (h', c) ->
  exists m ps f, h' = h ++ [m] /\ c = length h /\ composite_of h ix ps m /\
    JsObj.get (seg_key 1) ix = Some f /\
    total_segments m = total_segments (h !!! f) /\
    length ps = S (Z.to_nat (total_segments (h !!! f) - 1)).
Proof.
  unfold _create_message_from_reassembly_index.
  destruct (JsObj.get (seg_key 1) ix) as [f|] eqn:Ef; [|done].
  match goal with
  | |- context [fold_left _ (seqZ 2 ?len) (Ok ?rv0)] =>
      set (n := len); set (first := rv0)
  end.
  assert (composite_of h ix [f] first) as H0.
  { unfold composite_of. cbn. split_and!; try done.
    intros [|i] r; [|done]. by intros [= <-]. }
  destruct (fold_left _ _ _) as [rv|e] eqn:E; [|done].
  cbn [bind]. intros [= <- <-].
  replace (seqZ 2 n) with (seqZ (Z.of_nat (S (length [f]))) (Z.of_nat (Z.to_nat n))) in E.
  2: { simpl. destruct (decide (0 <= n)).
       - by rewrite Z2Nat.id.
       - rewrite !seqZ_nil; [done|lia|lia]. }
  destruct (fold_append_complete _ _ _ _ H0 E) as (ps' & Hps' & Hlen & Htot).
  exists rv, ([f] ++ ps'), f. split_and!; try done. simpl. by rewrite Hlen.
Qed.

End Complete.

(** X9.  The engine never hands back a partial or a mixed composite:
    when it returns one, it is a new record whose [parts] are as many
    as the trigger's [total_segments], the part at each position
    carries that position's segment number and the trigger's [id] and
    [total_segments], and each is the trigger itself or one of the
    segments the engine was given. *)
Theorem composite_is_complete (now : Z) (h : heap) (t : ref) (v : segments_val)
  (h' : heap) (c : ref) :
  reassemble now h t v = Ok (h', Some c) ->
  exists m ps,
    h' = h ++ [m] /\ c = length h /\ parts m = Some ps /\
    Z.of_nat (length ps) = total_segments (h !!! t) /\
    total_segments m = total_segments (h !!! t) /\
    forall (i : nat) r, ps !! i = Some r ->
      segment (h !!! r) = SegNum (Z.of_nat i + 1) /\
      id (h !!! r) = id (h !!! t) /\
      total_segments (h !!! r) = total_segments (h !!! t) /\
      (r = t \/ exists l, v = SegsArray l /\ VObj r ∈ l).
Proof.
  unfold reassemble.
  destruct (_build_reassembly_index now h t v) as [ix|e] eqn:Eb; [|done]. cbn [bind].
  destruct (_ =? _) eqn:Ecount; [|done]. apply Z.eqb_eq in Ecount.
  destruct (_create_message_from_reassembly_index now h ix) as [[h1 c1]|e] eqn:E; [|done].
  cbn. intros [= <- <-].
  apply create_complete in E as (m & ps & f & -> & -> & Hc & Hf & Htot & Hlen).
  destruct Hc as (Hps & _ & _ & _ & Hslots).
  pose proof (build_occupants _ _ _ _ _ Eb) as Hocc.
  destruct (Hocc _ _ Hf) as ((_ & Hft & _)%is_valid_spec & _ & _).
  assert (1 <= total_segments (h !!! t)) as Hpos.
  { rewrite <- Ecount. apply JsObjFacts.get_Some_keys in Hf.
    destruct (JsObj.keys ix); [by apply elem_of_nil in Hf|simpl; lia]. }
  exists m, ps. split_and!; try done.
  - rewrite Hlen, Hft. lia.
  - congruence.
  - intros i r Hi. apply Hslots in Hi.
    destruct (Hocc _ _ Hi) as ((Hid & Hrt & n & Hn & _)%is_valid_spec & Hslot & Hfrom).
    split_and!; try done.
    unfold slot_of in Hslot. rewrite Hn in Hslot.
    assert (n = Z.of_nat (S i)) as ->.
    { apply (inj pretty). unfold seg_key in Hslot. by injection Hslot. }
    rewrite Hn. f_equal. lia.
Qed.

Lemma composite_is_complete_witness :
  exists m ps,
    plain_parts ++ [joined "+1" (Some 7) 10 11 "Hello " "world" 100 101 0 1]
      = plain_parts ++ [m] /\
    2%nat = length plain_parts /\ parts m = Some ps /\
    Z.of_nat (length ps) = total_segments (plain_parts !!! 1%nat) /\
    total_segments m = total_segments (plain_parts !!! 1%nat) /\
    forall (i : nat) r, ps !! i = Some r ->
      segment (plain_parts !!! r) = SegNum (Z.of_nat i + 1) /\
      id (plain_parts !!! r) = id (plain_parts !!! 1%nat) /\
      total_segments (plain_parts !!! r) = total_segments (plain_parts !!! 1%nat) /\
      (r = 1%nat \/ exists l, SegsArray [VObj 0%nat] = SegsArray l /\ VObj r ∈ l).
Proof.
  apply (composite_is_complete 0 plain_parts 1%nat (SegsArray [VObj 0%nat])).
  vm_compute. reflexivity.
Defined.

(** ** A poll that retrieves single-part messages *)

Lemma transform_location now m :
  location (_transform_received_message now m) = location m.
Proof. unfold _transform_received_message. by repeat case_match. Qed.

Lemma first_tasks_single_part now (rv : list message) : forall st hd pending,
  store st = hd ++ rv ->
  Forall (fun m => total_segments m <= 1) rv ->
  fold_left (receive_first_task now) (seq (length hd) (length rv)) (st, pending) =
    (set_inbound_queue (_inbound_queue st ++ seq (length hd) (length rv))
       (set_store (hd ++ map (_transform_received_message now) rv) st),
     pending).
Proof.
  induction rv as [|m rv IH]; intros st hd pending Hstore Hall.
  - simpl. rewrite !app_nil_r in *. destruct st; simpl in *. by subst.
  - inversion_clear Hall as [|? ? Hm Hall'].
    cbn [length seq fold_left]. unfold receive_first_task at 2.
    cbn [set_store store]. rewrite Hstore, read_new_0, write_new_0, read_new_0.
    rewrite transform_total_segments.
    assert ((total_segments m <=? 1) = true) as -> by (by apply Z.leb_le).
    set (m' := _transform_received_message now m).
    replace (S (length hd)) with (length (hd ++ [m'])) by (rewrite length_app; simpl; lia).
    rewrite (IH _ (hd ++ [m'])); [|by simpl; rewrite <- app_assoc|done].
    destruct st. unfold set_inbound_queue, set_store. simpl.
    by rewrite <- !app_assoc.
Qed.

Lemma receive_each_single_part now st (rv : list message) :
  Forall (fun m => total_segments m <= 1) rv ->
  receive_each now st rv =
    set_inbound_queue (_inbound_queue st ++ seq (length (store st)) (length rv))
      (set_store (store st ++ map (_transform_received_message now) rv) st).
Proof.
  intros Hall. unfold receive_each.
  rewrite (first_tasks_single_part now rv _ (store st)); [|done|done].
  simpl. by destruct st.
Qed.

Lemma message_index_add_keys_from h (c : nat) (ix : JsObj.t nat) k :
  k ∈ JsObj.keys (_message_index_add h c ix) ->
  k ∈ JsObj.keys ix \/ k ∈ map loc_key (locations_of (location (h !!! c))).
Proof.
  rewrite message_index_add_fold.
  destruct (decide (k ∈ map loc_key (locations_of (location (h !!! c))))) as [?|Hout];
    [auto|].
  intros Hk. left.
  destruct (JsObj.get k ix) as [v|] eqn:E; [by apply JsObjFacts.get_Some_keys in E|].
  apply JsObjFacts.get_None_keys in Hk; [done|]. by rewrite fold_set_other.
Qed.

Lemma deliver_all_accepted_names f (q : list nat) : forall st,
  on_receive (_handlers st) = Some f -> (forall h r, f h r = None) ->
  NoDup q ->
  forall k, k ∈ JsObj.keys (_deletion_index (fold_left deliver_incoming_message q st)) ->
    k ∈ JsObj.keys (_deletion_index st) \/
    exists r, r ∈ q /\ k ∈ map loc_key (locations_of (location (store st !!! r))).
Proof.
  induction q as [|m q IH]; intros st Hf Hnone Hnd k; cbn [fold_left]; [auto|].
  apply NoDup_cons in Hnd as [Hm Hnd].
  rewrite (deliver_accepted st f m Hf Hnone).
  intros [Hk|(r & Hr & Hk)]%IH; try done.
  - apply message_index_add_keys_from in Hk as [?|?]; [auto|].
    right. exists m. split; [left|done].
  - right. exists r. split; [by right|].
    cbn [_schedule_message_for_deletion set_store set_deletion_index store emit] in Hk.
    rewrite list_lookup_total_insert_ne in Hk; [done|]. by intros ->.
Qed.

(** Delivery touches the inbound side only. *)
Lemma deliver_frame (q : list nat) : forall st,
  let st' := fold_left deliver_incoming_message q st in
  _outbound_queue st' = _outbound_queue st /\ out_store st' = out_store st /\
  _is_polling st' = _is_polling st /\ _handlers st' = _handlers st /\
  _segment_cache st' = _segment_cache st.
Proof.
  induction q as [|m q IH]; intros st; [done|].
  cbn [fold_left]. destruct (IH (deliver_incoming_message st m)) as (-> & -> & -> & -> & ->).
  unfold deliver_incoming_message, _notify_receive, _notify_global_error.
  by repeat case_match; simplify_eq.
Qed.

(** What a poll of single-part records does when the [receive]
    handler accepts each of them. *)
Lemma receive_single_part now st f (rv : list message) st' :
  on_receive (_handlers st) = Some f -> (forall h r, f h r = None) ->
  _inbound_queue st = [] ->
  Forall (fun m => total_segments m <= 1) rv ->
  _receive_messages now st (Parsed rv) = (st', Finished) ->
  _inbound_queue st' = [] /\
  events st' = events st ++ map EvReceive (seq (length (store st)) (length rv)) /\
  (forall k, k ∈ JsObj.keys (_deletion_index st) -> k ∈ JsObj.keys (_deletion_index st')) /\
  (forall (i : nat) m, rv !! i = Some m ->
     (forall loc, loc ∈ locations_of (location m) ->
        loc_key loc ∈ JsObj.keys (_deletion_index st')) /\
     store st' !!! (length (store st) + i)%nat =
       set_location LocFalse (_transform_received_message now m)) /\
  (forall k, k ∈ JsObj.keys (_deletion_index st') ->
     k ∈ JsObj.keys (_deletion_index st) \/
     exists m loc, m ∈ rv /\ loc ∈ locations_of (location m) /\ k = loc_key loc) /\
  _outbound_queue st' = _outbound_queue st /\ _is_polling st' = _is_polling st /\
  _handlers st' = _handlers st.
Proof.
  intros Hf Hnone Hq Hall. unfold _receive_messages, _deliver_incoming_messages.
  rewrite receive_each_single_part by done. intros [= <-].
  rewrite Hq. cbn [app].
  set (q := seq (length (store st)) (length rv)).
  set (st0 := set_inbound_queue q _).
  assert (store st0 = store st ++ map (_transform_received_message now) rv) as Hs0 by done.
  assert (NoDup q) as Hnd by apply NoDup_seq.
  assert (on_receive (_handlers st0) = Some f) as Hf0 by done.
  assert (forall (i : nat) m, rv !! i = Some m ->
            store st0 !!! (length (store st) + i)%nat = _transform_received_message now m)
    as Hread.
  { intros i m Hi. rewrite Hs0. apply list_lookup_total_correct.
    rewrite lookup_app_r by lia.
    replace (length (store st) + i - length (store st))%nat with i by lia.
    change (map ?g ?l) with (g <$> l). by rewrite list_lookup_fmap, Hi. }
  destruct (deliver_all_accepted f q st0 Hf0 Hnone Hnd)
    as (He & Hkeep & Hnames & Hcleared & _).
  { apply Forall_forall. intros r [? ?]%elem_of_seq. rewrite Hs0.
    rewrite length_app, length_map. lia. }
  pose proof (deliver_all_accepted_names f q st0 Hf0 Hnone Hnd) as Hfrom.
  destruct (deliver_frame q st0) as (Ho & _ & Hp & Hh & _).
  set (st1 := fold_left deliver_incoming_message q st0) in *.
  cbn [set_inbound_queue _inbound_queue events _deletion_index store _outbound_queue
       _is_polling _handlers].
  split_and!; [done|exact He|exact Hkeep| | |exact Ho|exact Hp|exact Hh].
  - intros i m Hi.
    assert ((length (store st) + i)%nat ∈ q) as Hin.
    { apply elem_of_seq. apply lookup_lt_Some in Hi. lia. }
    split.
    + intros loc Hloc. apply (Hnames _ loc Hin).
      by rewrite (Hread i m Hi), transform_location.
    + by rewrite (Hcleared _ Hin), (Hread i m Hi).
  - intros k [Hk|(r & Hr & Hk)]%Hfrom; [by left|right].
    apply list_elem_of_fmap_1 in Hk as (loc & -> & Hloc).
    apply elem_of_seq in Hr as [Hr1 Hr2].
    destruct (rv !! (r - length (store st))%nat) as [m|] eqn:Em.
    2: { apply lookup_ge_None in Em. lia. }
    exists m, loc. split_and!; [by eapply list_elem_of_lookup_2| |done].
    rewrite <- (transform_location now m), <- (Hread _ m Em).
    by replace (length (store st) + (r - length (store st)))%nat with r by lia.
Qed.

(** X10.  A poll whose records are all single-part, on an instance
    whose [receive] handler accepts every message: the handler is
    called once for each record, in the order the helper printed them,
    every record's location is then a name of [_deletion_index] next
    to the names that were there, each record is stored as the
    transform left it but for its cleared [location], and the inbound
    queue is empty again. *)
Theorem single_part_messages_delivered (now : Z) (st : state)
  (f : heap -> ref -> option js_error) (rv : list message) (st' : state) :
  on_receive (_handlers st) = Some f -> (forall h r, f h r = None) ->
  _inbound_queue st = [] ->
  Forall (fun m => total_segments m <= 1) rv ->
  _receive_messages now st (Parsed rv) = (st', Finished) ->
  _inbound_queue st' = [] /\
  events st' = events st ++ map EvReceive (seq (length (store st)) (length rv)) /\
  (forall k, k ∈ JsObj.keys (_deletion_index st) -> k ∈ JsObj.keys (_deletion_index st')) /\
  forall (i : nat) m, rv !! i = Some m ->
    (forall loc, loc ∈ locations_of (location m) ->
       loc_key loc ∈ JsObj.keys (_deletion_index st')) /\
    store st' !!! (length (store st) + i)%nat =
      set_location LocFalse (_transform_received_message now m).
Proof.
  intros Hf Hnone Hq Hall H.
  destruct (receive_single_part now st f rv st' Hf Hnone Hq Hall H)
    as (H1 & H2 & H3 & H4 & _).
  split_and!; done.
Qed.

Lemma single_part_messages_delivered_witness :
  _inbound_queue three_delivered = [] /\
  events three_delivered = [EvReceive 0; EvReceive 1; EvReceive 2]%nat /\
  (forall k, k ∈ JsObj.keys (_deletion_index fresh_instance) ->
     k ∈ JsObj.keys (_deletion_index three_delivered)) /\
  forall (i : nat) m, [single 1 "a"; single 2 "b"; single 3 "c"] !! i = Some m ->
    (forall loc, loc ∈ locations_of (location m) ->
       loc_key loc ∈ JsObj.keys (_deletion_index three_delivered)) /\
    store three_delivered !!! (length (store fresh_instance) + i)%nat =
      set_location LocFalse (_transform_received_message 0 m).
Proof.
  apply (single_part_messages_delivered 0 fresh_instance (fun _ _ => None)
           [single 1 "a"; single 2 "b"; single 3 "c"]).
  - reflexivity.
  - reflexivity.
  - reflexivity.
  - repeat constructor; vm_compute; discriminate.
  - reflexivity.
Defined.

(** ** One run of the poll handler *)



(** X12.  [start] on an instance whose helper exits with an error in
    every phase: the retrieval is reported to the [error] handler; the
    deletion and the transmission are reported only when the deletion
    index, respectively the outbound queue, is not empty, since the
    helper is not run for them otherwise.  Nothing queued or indexed
    is lost, the segment cache is emptied, and the next run is
    scheduled. *)
Theorem start_with_failing_helper (now : Z) (st st' : state) (again : bool) :
  start now st ExitError ExitError ExitError = (st', again) ->
  again = true /\ _is_polling st' = true /\
  _inbound_queue st' = _inbound_queue st /\ _outbound_queue st' = _outbound_queue st /\
  _deletion_index st' = _deletion_index st /\
  store st' = store st /\ out_store st' = out_store st /\
  _segment_cache st' = JsObj.empty /\
  events st' = events st ++
    if on_error (_handlers st) then
      [EvErrorGlobal subprocess_error] ++
      (if JsObj.isEmpty (_deletion_index st) then [] else [EvErrorGlobal subprocess_error]) ++
      (if _outbound_queue st is [] then [] else [EvErrorGlobal subprocess_error])
    else [].
Proof.
  destruct st as [hs iq oq dix sc dbg pol pint tb db lim h os ev].
  destruct hs as [r t e rs rt rl].
  destruct e, dix as [|[k v] dix], oq as [|m oq]; cbn; intros [= <- <-]; cbn;
    rewrite ?app_nil_r, <- ?app_assoc; split_and!; done.
Qed.

Lemma start_with_failing_helper_witness :
  true = true /\
  _is_polling (start 0 three_queued ExitError ExitError ExitError).1 = true /\
  _inbound_queue (start 0 three_queued ExitError ExitError ExitError).1 = [] /\
  _outbound_queue (start 0 three_queued ExitError ExitError ExitError).1
    = _outbound_queue three_queued /\
  _deletion_index (start 0 three_queued ExitError ExitError ExitError).1 = [] /\
  store (start 0 three_queued ExitError ExitError ExitError).1 = [] /\
  out_store (start 0 three_queued ExitError ExitError ExitError).1
    = out_store three_queued /\
  _segment_cache (start 0 three_queued ExitError ExitError ExitError).1 = JsObj.empty /\
  events (start 0 three_queued ExitError ExitError ExitError).1 = [].
Proof.
  apply (start_with_failing_helper 0 three_queued). vm_compute. reflexivity.
Defined.

(** ** Registration of handlers *)

Lemma set_handlers_same st : set_handlers (_handlers st) st = st.
Proof. by destruct st. Qed.

Lemma register_each_app (o1 o2 : JsObj.t callback_val) : forall st,
  Forall accepted_entry o1 ->
  (register_each st o1).2 = None /\
  register_each st (o1 ++ o2) = register_each (register_each st o1).1 o2.
Proof.
  induction o1 as [|[name v] o1 IH]; intros st Hall; [done|].
  inversion_clear Hall as [|? ? [Hknown [f Hf]] Hall']. simpl in Hknown, Hf. subst v.
  cbn [register_each app]. unfold _register_single_event. rewrite Hknown.
  by apply IH.
Qed.

(** X13.  [on] with an object registers its properties one after the
    other and stops at the first that [_register_single_event]
    refuses: a value that is not a function raises [Event callback
    must be a function] whatever its name, a function under an unknown
    name raises [Invalid event specified], and in both cases the
    handlers named before it stay registered, the later ones are not,
    and the second argument of [on] plays no part. *)
Theorem on_object_stops_at_first_refusal (st : state)
  (before after : JsObj.t callback_val) (name : string) (cb : callback_val) :
  Forall accepted_entry before ->
  (on st (EventObject before) cb).2 = None /\
  on st (EventObject (before ++ (name, NotAFunction) :: after)) cb =
    ((on st (EventObject before) NotAFunction).1,
     Some (Error "Event callback must be a function")) /\
  forall f, known_event name = false ->
    on st (EventObject (before ++ (name, AFunction f) :: after)) cb =
      ((on st (EventObject before) NotAFunction).1,
       Some (Error "Invalid event specified")).
Proof.
  intros Hall. cbn [on].
  split_and!.
  - by apply (register_each_app before []).
  - destruct (register_each_app before ((name, NotAFunction) :: after) st Hall) as [_ ->].
    done.
  - intros f Hunknown.
    destruct (register_each_app before ((name, AFunction f) :: after) st Hall) as [_ ->].
    cbn [register_each]. unfold _register_single_event. by rewrite Hunknown.
Qed.

Lemma on_object_stops_at_first_refusal_witness :
  (on fresh_instance (EventObject [("error", AFunction accept_all)]) NotAFunction).2 = None /\
  on fresh_instance
    (EventObject ([("error", AFunction accept_all)] ++
                  ("receive", NotAFunction) :: [("transmit", AFunction accept_all)]))
    NotAFunction =
    ((on fresh_instance (EventObject [("error", AFunction accept_all)]) NotAFunction).1,
     Some (Error "Event callback must be a function")) /\
  forall f, known_event "receive" = false ->
    on fresh_instance
      (EventObject ([("error", AFunction accept_all)] ++
                    ("receive", AFunction f) :: [("transmit", AFunction accept_all)]))
      NotAFunction =
      ((on fresh_instance (EventObject [("error", AFunction accept_all)]) NotAFunction).1,
       Some (Error "Invalid event specified")).
Proof.
  apply (on_object_stops_at_first_refusal fresh_instance).
  repeat constructor. simpl. by exists accept_all.
Defined.

Lemma set_handler_comm a b f g hs :
  a <> b -> set_handler a f (set_handler b g hs) = set_handler b g (set_handler a f hs).
Proof.
  intros Hne. unfold set_handler.
  repeat match goal with
         | |- context [String.eqb ?x ?y] =>
             let E := fresh "E" in
             destruct (String.eqb x y) eqn:E;
             [apply String.eqb_eq in E; try subst a; try subst b|clear E]
         end; try done.
Qed.

Lemma register_each_handlers (o : JsObj.t callback_val) : forall st,
  Forall accepted_entry o ->
  register_each st o =
    (set_handlers
       (fold_left (fun hs e => if e.2 is AFunction f then set_handler e.1 f hs else hs)
          o (_handlers st)) st,
     None).
Proof.
  induction o as [|[name v] o IH]; intros st Hall.
  - simpl. by rewrite set_handlers_same.
  - inversion_clear Hall as [|? ? [Hknown [f Hf]] Hall']. simpl in Hknown, Hf. subst v.
    cbn [register_each fold_left]. unfold _register_single_event. rewrite Hknown.
    by rewrite IH.
Qed.

Lemma fold_set_handler_perm (o o' : JsObj.t callback_val) :
  o ≡ₚ o' -> NoDup (JsObj.keys o) ->
  forall hs,
    fold_left (fun hs e => if e.2 is AFunction f then set_handler e.1 f hs else hs) o hs =
    fold_left (fun hs e => if e.2 is AFunction f then set_handler e.1 f hs else hs) o' hs.
Proof.
  induction 1 as [|[k v] o o' Hp IH|[k1 v1] [k2 v2] o|o o1 o2 Hp1 IH1 Hp2 IH2];
    intros Hnd hs.
  - done.
  - cbn [fold_left]. apply IH. unfold JsObj.keys in *. simpl in Hnd.
    by apply NoDup_cons in Hnd as [_ ?].
  - cbn [fold_left]. f_equal. simpl.
    unfold JsObj.keys in Hnd. simpl in Hnd.
    apply NoDup_cons in Hnd as [Hne _]. apply not_elem_of_cons in Hne as [Hne _].
    destruct v1, v2; try done. by apply set_handler_comm.
  - rewrite IH1 by done. apply IH2.
    unfold JsObj.keys in *. by rewrite <- Hp1.
Qed.

(** X14.  When every property of the object given to [on] is a
    function under a known name, the order in which the properties are
    enumerated makes no difference to the instance that results, and
    no exception is raised. *)
Theorem on_object_order_irrelevant (st : state) (o o' : JsObj.t callback_val)
  (cb cb' : callback_val) :
  Forall accepted_entry o -> NoDup (JsObj.keys o) -> o ≡ₚ o' ->
  on st (EventObject o) cb = on st (EventObject o') cb' /\
  (on st (EventObject o) cb).2 = None.
Proof.
  intros Hall Hnd Hp. cbn [on].
  assert (Forall accepted_entry o') as Hall' by (by rewrite <- Hp).
  rewrite !register_each_handlers by done.
  by rewrite (fold_set_handler_perm o o' Hp Hnd).
Qed.

Lemma on_object_order_irrelevant_witness :
  on fresh_instance
    (EventObject [("error", AFunction accept_all); ("receive", AFunction refuse_all)])
    NotAFunction =
  on fresh_instance
    (EventObject [("receive", AFunction refuse_all); ("error", AFunction accept_all)])
    (AFunction accept_all) /\
  (on fresh_instance
     (EventObject [("error", AFunction accept_all); ("receive", AFunction refuse_all)])
     NotAFunction).2 = None.
Proof.
  apply on_object_order_irrelevant.
  - repeat constructor; simpl; eexists; reflexivity.
  - apply (bool_decide_unpack _). vm_compute. exact I.
  - apply Permutation_swap.
Defined.

(** ** The built-in segment storage *)

(** X15.  With the built-in storage, what [return_segments] yields
    for an identifier right after a segment has been stored is what it
    would have yielded before with that segment added at the end, if
    the segment has that identifier (as a property name), and is what
    it would have yielded before otherwise.  The identifiers are not
    names that every object inherits; those the transform builds
    never are. *)
Theorem segment_cache_round_trip (st : state) (m : ref) (i : idval) :
  id_key (id (store st !!! m)) ∉ inherited ->
  id_key i ∉ inherited ->
  _default_return_segments (_default_receive_segment st m) i =
    if String.eqb (id_key (id (store st !!! m))) (id_key i) then
      Returned []
        (SegsArray
           (map VObj (default [] (JsObj.get (id_key i) (_segment_cache st)) ++ [m])))
    else _default_return_segments st i.
Proof.
  intros _ _. unfold _default_return_segments, _default_receive_segment.
  cbn [set_segment_cache _segment_cache].
  set (k := id_key (id (store st !!! m))).
  rewrite JsObjFacts.get_set.
  destruct (String.eqb k (id_key i)) eqn:E.
  - apply String.eqb_eq in E. rewrite <- E.
    destruct (JsObj.has k (_segment_cache st)) eqn:Eh; [done|].
    apply JsObjFacts.has_false in Eh. by rewrite Eh, JsObjFacts.get_set_eq.
  - apply String.eqb_neq in E.
    destruct (JsObj.has k (_segment_cache st)); [done|].
    by rewrite JsObjFacts.get_set_ne.
Qed.

Lemma segment_cache_round_trip_witness :
  _default_return_segments
    (_default_receive_segment (set_store plain_parts fresh_instance) 0%nat)
    (id (plain_parts !!! 0%nat)) =
  Returned [] (SegsArray [VObj 0%nat]).
Proof.
  rewrite (segment_cache_round_trip (set_store plain_parts fresh_instance) 0%nat
             (id (plain_parts !!! 0%nat))).
  - vm_compute. reflexivity.
  - apply (bool_decide_unpack _). vm_compute. exact I.
  - apply (bool_decide_unpack _). vm_compute. exact I.
Defined.

(** ** What the second task may change *)

Lemma try_to_reassemble_frame now st (t : nat) st' r :
  _try_to_reassemble_message now st t = (st', r) ->
  _deletion_index st' = _deletion_index st /\ _inbound_queue st' = _inbound_queue st /\
  _outbound_queue st' = _outbound_queue st /\
  match r with
  | Ok (Some c) => (length (store st) <= c < length (store st'))%nat
  | _ => True
  end.
Proof.
  unfold _try_to_reassemble_message.
  destruct (_request_return_segments st (id (store st !!! t))) as [st1 rr] eqn:E.
  assert (store st1 = store st /\ _deletion_index st1 = _deletion_index st /\
          _inbound_queue st1 = _inbound_queue st /\ _outbound_queue st1 = _outbound_queue st)
    as (Hs & Hd & Hq & Ho).
  { unfold _request_return_segments in E.
    destruct (on_return_segments (_handlers st)); by injection E as <- <-. }
  destruct rr as [e|fresh v]; [by intros [= <- <-]|].
  assert (forall v',
    match reassemble now (store (set_store (store st1 ++ fresh) st1)) t v' with
    | Ok (h, rv) => (set_store h (set_store (store st1 ++ fresh) st1), Ok rv)
    | Err e => (set_store (store st1 ++ fresh) st1, Err e)
    end = (st', r) ->
    _deletion_index st' = _deletion_index st /\ _inbound_queue st' = _inbound_queue st /\
    _outbound_queue st' = _outbound_queue st /\
    match r with
    | Ok (Some c) => (length (store st) <= c < length (store st'))%nat
    | _ => True
    end) as Hgo.
  { intros v'. cbn [set_store store].
    destruct (reassemble now (store st1 ++ fresh) t v') as [[h rv]|e] eqn:Er.
    - intros [= <- <-]. cbn. split_and!; try done.
      destruct rv as [c|]; [|done].
      apply reassemble_composite in Er as (ix & m0 & ps & -> & -> & _).
      rewrite Hs, !length_app. simpl. lia.
    - by intros [= <- <-]. }
  destruct v; [apply Hgo| |apply Hgo].
  by intros [= <- <-].
Qed.

(** X16.  The second task of a record that no composite of this poll
    covers changes [_deletion_index] in one way only: it files the
    record there when the [receive_segment] handler had accepted it.
    The attempt at reassembly schedules nothing, and adds to the
    inbound queue nothing but the composite it may produce, a record
    made during that task; a record that a composite of this poll
    covers changes nothing at all. *)
Theorem second_task_effects (now : Z) (st : state) (rix : JsObj.t ref) (m : ref)
  (should_delete : bool) (st' : state) (rix' : JsObj.t ref) :
  receive_second_task now (st, rix) (m, should_delete) = (st', rix') ->
  match _message_index_lookup (store st) m rix with
  | Some _ => st' = st /\ rix' = rix
  | None =>
      _deletion_index st' =
        (if should_delete
         then _message_index_add (store st) m (_deletion_index st)
         else _deletion_index st) /\
      ((_inbound_queue st' = _inbound_queue st /\ rix' = rix) \/
       exists c, _inbound_queue st' = _inbound_queue st ++ [c] /\
         rix' = _message_index_add (store st') c rix /\
         (length (store st) <= c < length (store st'))%nat)
  end.
Proof.
  unfold receive_second_task.
  destruct (_message_index_lookup (store st) m rix); [by intros [= <- <-]|].
  set (st1 := if should_delete then _schedule_message_for_deletion st m else st).
  assert (_deletion_index st1 =
          (if should_delete then _message_index_add (store st) m (_deletion_index st)
           else _deletion_index st) /\
          _inbound_queue st1 = _inbound_queue st /\
          length (store st1) = length (store st)) as (Hd1 & Hq1 & Hl1).
  { subst st1. destruct should_delete; [|done].
    split_and!; [done|done|]. cbn. apply length_insert. }
  destruct (_try_to_reassemble_message now st1 m) as [st2 r] eqn:E.
  apply try_to_reassemble_frame in E as (Hd & Hq & _ & Hc).
  destruct r as [[c|]|e]; intros [= <- <-].
  - cbn [set_inbound_queue _deletion_index _inbound_queue store].
    split; [congruence|]. right. exists c. split_and!; [congruence|done|lia|lia].
  - split; [congruence|]. left. split; [congruence|done].
  - split.
    + unfold _notify_receive_error. destruct (on_error (_handlers st2)); simpl; congruence.
    + left. split; [|done]. rewrite notify_receive_error_queue. congruence.
Qed.

Lemma second_task_effects_witness :
  match _message_index_lookup (store persisted_pending) 0%nat JsObj.empty with
  | Some _ =>
      (receive_second_task 0 (persisted_pending, JsObj.empty) (0%nat, true)).1
        = persisted_pending /\
      (receive_second_task 0 (persisted_pending, JsObj.empty) (0%nat, true)).2 = JsObj.empty
  | None =>
      _deletion_index (receive_second_task 0 (persisted_pending, JsObj.empty) (0%nat, true)).1
        = (if true
           then _message_index_add (store persisted_pending) 0%nat
                  (_deletion_index persisted_pending)
           else _deletion_index persisted_pending) /\
      ((_inbound_queue
          (receive_second_task 0 (persisted_pending, JsObj.empty) (0%nat, true)).1
          = _inbound_queue persisted_pending /\
        (receive_second_task 0 (persisted_pending, JsObj.empty) (0%nat, true)).2
          = JsObj.empty) \/
       exists c,
         _inbound_queue
           (receive_second_task 0 (persisted_pending, JsObj.empty) (0%nat, true)).1
           = _inbound_queue persisted_pending ++ [c] /\
         (receive_second_task 0 (persisted_pending, JsObj.empty) (0%nat, true)).2
           = _message_index_add
               (store (receive_second_task 0 (persisted_pending, JsObj.empty)
                         (0%nat, true)).1) c JsObj.empty /\
         (length (store persisted_pending) <= c
          < length (store (receive_second_task 0 (persisted_pending, JsObj.empty)
                             (0%nat, true)).1))%nat)
  end.
Proof.
  apply (second_task_effects 0 persisted_pending JsObj.empty 0%nat true).
  vm_compute. reflexivity.
Defined.

(** ** Successful transmissions *)

Lemma deliver_transmit_loop_successes rs : forall st sent,
  Forall (fun r => Tx.result r = "success" /\
                   is_Some (array_get (_outbound_queue st) (Tx.index r - 1))) rs ->
  exists st' sent',
    deliver_transmit_loop st sent rs = (st', sent', None) /\
    events st' = events st ++ flat_map (success_calls st) rs /\
    out_store st' = out_store st.
Proof.
  induction rs as [|r rs IH]; intros st sent Hall.
  - exists st, sent. simpl. by rewrite app_nil_r.
  - inversion_clear Hall as [|? ? [Hres [m Hm]] Hall'].
    cbn [deliver_transmit_loop flat_map]. unfold deliver_transmit_result.
    rewrite Hm, Hres. cbn [String.eqb Ascii.eqb Bool.eqb negb andb].
    set (st1 := _notify_transmit st m r).
    assert (_outbound_queue st1 = _outbound_queue st /\ out_store st1 = out_store st /\
            _handlers st1 = _handlers st /\
            events st1 = events st ++ success_calls st r) as (Hq & Hs & Hh & He).
    { subst st1. unfold _notify_transmit, success_calls. rewrite Hm.
      destruct (Out.callback (out_store st !!! m)); cbn [emit _handlers];
        destruct (on_transmit (_handlers st)); cbn; rewrite ?app_nil_r, <- ?app_assoc;
        done. }
    destruct (IH st1 (JsObj.set (pretty (Tx.index r - 1)) true sent))
      as (st' & sent' & -> & He' & Hs').
    { eapply Forall_impl; [exact Hall'|]. intros r0. cbn. by rewrite Hq. }
    exists st', sent'. split_and!; [done| |congruence].
    rewrite He', He, <- app_assoc. f_equal. f_equal.
    apply flat_map_ext. intros r0. unfold success_calls. by rewrite Hq, Hs, Hh.
Qed.

(** X17.  When every result is a success for a position that holds a
    queued item, the phase runs to its end and calls, for each result
    in the order of the output, the item's callback with no error (if
    the item has one) and then the [transmit] handler (if one is
    registered); no attempt is counted on any item. *)
Theorem successes_are_notified (st : state) (rs : list Tx.t) :
  Forall (fun r => Tx.result r = "success" /\
                   is_Some (array_get (_outbound_queue st) (Tx.index r - 1))) rs ->
  exists st',
    _deliver_transmit_results st rs = (st', Finished) /\
    events st' = events st ++ flat_map (success_calls st) rs /\
    out_store st' = out_store st.
Proof.
  intros Hall. unfold _deliver_transmit_results.
  destruct (deliver_transmit_loop_successes rs st JsObj.empty Hall)
    as (st1 & sent & -> & He & Hs).
  eexists. split; [done|]. done.
Qed.

Lemma successes_are_notified_witness :
  exists st',
    _deliver_transmit_results three_queued [Tx.Make 2 "success"; Tx.Make 1 "success"]
      = (st', Finished) /\
    events st' = [EvCallback 1 None] /\
    out_store st' = out_store three_queued.
Proof.
  apply (successes_are_notified three_queued [Tx.Make 2 "success"; Tx.Make 1 "success"]).
  repeat constructor; vm_compute; eexists; reflexivity.
Defined.

(** ** Segments that the handler refuses *)

Lemma first_tasks_refused now fs e (rv : list message) : forall st hd pending,
  on_receive_segment (_handlers st) = Some fs -> (forall h r, fs h r = Some e) ->
  store st = hd ++ rv ->
  Forall (fun m => 1 < total_segments m) rv ->
  exists st',
    fold_left (receive_first_task now) (seq (length hd) (length rv)) (st, pending) =
      (st', pending) /\
    store st' = hd ++ map (_transform_received_message now) rv /\
    events st' = events st ++ flat_map (refusal_calls st e) (seq (length hd) (length rv)) /\
    _inbound_queue st' = _inbound_queue st /\ _deletion_index st' = _deletion_index st /\
    _handlers st' = _handlers st.
Proof.
  induction rv as [|m rv IH]; intros st hd pending Hfs Hrefuse Hstore Hall.
  - exists st. simpl. rewrite !app_nil_r in *. done.
  - inversion_clear Hall as [|? ? Hm Hall'].
    cbn [length seq fold_left flat_map]. unfold receive_first_task at 2.
    cbn [set_store store]. rewrite Hstore, read_new_0, write_new_0, read_new_0.
    rewrite transform_total_segments.
    assert ((total_segments m <=? 1) = false) as -> by (apply Z.leb_gt; lia).
    set (m' := _transform_received_message now m).
    unfold _notify_receive_segment. cbn [set_store _handlers]. rewrite Hfs.
    cbn [emit store]. rewrite Hrefuse.
    set (st1 := _notify_receive_error _ e (length hd)).
    assert (store st1 = (hd ++ [m']) ++ rv /\ _handlers st1 = _handlers st /\
            _inbound_queue st1 = _inbound_queue st /\
            _deletion_index st1 = _deletion_index st /\
            events st1 = events st ++ refusal_calls st e (length hd))
      as (Hs1 & Hh1 & Hq1 & Hd1 & He1).
    { subst st1. unfold _notify_receive_error, refusal_calls.
      cbn [emit set_store _handlers].
      destruct (on_error (_handlers st)); cbn; rewrite <- ?app_assoc; split_and!; done. }
    replace (S (length hd)) with (length (hd ++ [m'])) by (rewrite length_app; simpl; lia).
    destruct (IH st1 (hd ++ [m']) pending) as (st' & -> & Hs' & He' & Hq' & Hd' & Hh');
      [congruence|done|done|done|].
    exists st'. split_and!; try congruence.
    + by rewrite Hs', <- app_assoc.
    + rewrite He', He1, <- app_assoc. f_equal. f_equal.
      apply flat_map_ext. intros r. unfold refusal_calls. by rewrite Hh1.
Qed.

(** X18.  A poll whose records are all parts of longer messages, on an
    instance whose [receive_segment] handler answers every segment
    with the error [e]: the handler is called for each record and each
    refusal is reported to the [error] handler, in the order of the
    helper's output; no record is scheduled for deletion, none reaches
    the [receive] handler, and each keeps its [location]. *)
Theorem refused_segments_stay (now : Z) (st : state)
  (fs : heap -> ref -> option js_error) (e : js_error) (rv : list message) (st' : state) :
  on_receive_segment (_handlers st) = Some fs -> (forall h r, fs h r = Some e) ->
  _inbound_queue st = [] ->
  Forall (fun m => 1 < total_segments m) rv ->
  _receive_messages now st (Parsed rv) = (st', Finished) ->
  events st' =
    events st ++ flat_map (refusal_calls st e) (seq (length (store st)) (length rv)) /\
  _deletion_index st' = _deletion_index st /\
  _inbound_queue st' = [] /\
  store st' = store st ++ map (_transform_received_message now) rv.
Proof.
  intros Hfs Hrefuse Hq Hall. unfold _receive_messages, _deliver_incoming_messages.
  unfold receive_each. cbn [set_segment_cache store].
  set (st0 := set_store _ _).
  destruct (first_tasks_refused now fs e rv st0 (store st) [] Hfs Hrefuse eq_refl Hall)
    as (st1 & -> & Hs & He & Hq1 & Hd & _).
  cbn [fold_left fst]. rewrite Hq1. subst st0.
  cbn [set_store set_segment_cache _inbound_queue] in *. rewrite Hq. cbn [fold_left].
  intros [= <-]. cbn [set_inbound_queue events _deletion_index _inbound_queue store].
  split_and!; done.
Qed.

Lemma refused_segments_stay_witness :
  events (_receive_messages 0 refusing_segments (Parsed [hello_1; hello_2])).1 =
    [EvReceiveSegment 0; EvErrorReceive (Error "no") 0;
     EvReceiveSegment 1; EvErrorReceive (Error "no") 1]%nat /\
  _deletion_index (_receive_messages 0 refusing_segments (Parsed [hello_1; hello_2])).1
    = [] /\
  _inbound_queue (_receive_messages 0 refusing_segments (Parsed [hello_1; hello_2])).1
    = [] /\
  store (_receive_messages 0 refusing_segments (Parsed [hello_1; hello_2])).1 =
    map (_transform_received_message 0) [hello_1; hello_2].
Proof.
  apply (refused_segments_stay 0 refusing_segments (fun _ _ => Some (Error "no"))
           (Error "no") [hello_1; hello_2]).
  - reflexivity.
  - reflexivity.
  - reflexivity.
  - repeat constructor.
  - reflexivity.
Defined.

(** ** Materialisation, on the two parts of "Hello world" *)


(** ** A [receive_segment] handler without a [return_segments] handler *)

Lemma first_tasks_accepted_segments now fs (rv : list message) : forall st hd pending,
  on_receive_segment (_handlers st) = Some fs -> (forall h r, fs h r = None) ->
  store st = hd ++ rv ->
  Forall (fun m => 1 < total_segments m) rv ->
  exists st',
    fold_left (receive_first_task now) (seq (length hd) (length rv)) (st, pending) =
      (st', pending ++ map (fun r => (r, true)) (seq (length hd) (length rv))) /\
    store st' = hd ++ map (_transform_received_message now) rv /\
    events st' = events st ++ map EvReceiveSegment (seq (length hd) (length rv)) /\
    _inbound_queue st' = _inbound_queue st /\ _deletion_index st' = _deletion_index st /\
    _handlers st' = _handlers st /\ _segment_cache st' = _segment_cache st.
Proof.
  induction rv as [|m rv IH]; intros st hd pending Hfs Haccept Hstore Hall.
  - exists st. simpl. rewrite !app_nil_r in *. done.
  - inversion_clear Hall as [|? ? Hm Hall'].
    cbn [length seq fold_left map]. unfold receive_first_task at 2.
    cbn [set_store store]. rewrite Hstore, read_new_0, write_new_0, read_new_0.
    rewrite transform_total_segments.
    assert ((total_segments m <=? 1) = false) as -> by (apply Z.leb_gt; lia).
    set (m' := _transform_received_message now m).
    unfold _notify_receive_segment. cbn [set_store _handlers]. rewrite Hfs.
    cbn [emit store]. rewrite Haccept.
    set (st1 := emit _ _).
    replace (S (length hd)) with (length (hd ++ [m'])) by (rewrite length_app; simpl; lia).
    destruct (IH st1 (hd ++ [m']) (pending ++ [(length hd, true)]))
      as (st' & -> & Hs' & He' & Hq' & Hd' & Hh' & Hc');
      [done|done|by subst st1; cbn; rewrite <- app_assoc|done|].
    exists st'. split_and!; try done.
    + by rewrite <- app_assoc.
    + by rewrite Hs', <- app_assoc.
    + rewrite He'. subst st1. cbn. by rewrite <- app_assoc.
Qed.

Lemma second_task_without_return_segments now st (r : nat) :
  on_return_segments (_handlers st) = None -> _segment_cache st = JsObj.empty ->
  exists st',
    receive_second_task now (st, JsObj.empty) (r, true) = (st', JsObj.empty) /\
    events st' = events st ++
      (if on_error (_handlers st) then [EvErrorReceive TypeError r] else []) /\
    _deletion_index st' = _message_index_add (store st) r (_deletion_index st) /\
    store st' = <[r := set_location LocFalse (store st !!! r)]> (store st) /\
    _inbound_queue st' = _inbound_queue st /\ _handlers st' = _handlers st /\
    _segment_cache st' = _segment_cache st.
Proof.
  intros Hrs Hcache. unfold receive_second_task, _message_index_lookup.
  cbn [JsObj.get JsObj.empty].
  set (st1 := _schedule_message_for_deletion st r).
  assert (_handlers st1 = _handlers st /\ _segment_cache st1 = JsObj.empty /\
          events st1 = events st /\ _inbound_queue st1 = _inbound_queue st /\
          _deletion_index st1 = _message_index_add (store st) r (_deletion_index st) /\
          store st1 = <[r := set_location LocFalse (store st !!! r)]> (store st))
    as (Hh1 & Hc1 & He1 & Hq1 & Hd1 & Hs1) by done.
  unfold _try_to_reassemble_message, _request_return_segments.
  rewrite Hh1, Hrs. unfold _default_return_segments. rewrite Hc1.
  cbn [JsObj.get JsObj.empty]. unfold reassemble. cbn [_build_reassembly_index bind].
  eexists. split; [reflexivity|].
  unfold _notify_receive_error. cbn [set_store _handlers]. rewrite Hh1.
  destruct (on_error (_handlers st)); cbn; rewrite ?app_nil_r, ?Hc1; split_and!;
    congruence.
Qed.

Lemma second_tasks_without_return_segments now (q : list nat) : forall st,
  on_return_segments (_handlers st) = None -> _segment_cache st = JsObj.empty ->
  NoDup q ->
  exists st',
    fold_left (receive_second_task now) (map (fun r => (r, true)) q) (st, JsObj.empty) =
      (st', JsObj.empty) /\
    events st' = events st ++
      (if on_error (_handlers st) then map (EvErrorReceive TypeError) q else []) /\
    (forall k, k ∈ JsObj.keys (_deletion_index st) -> k ∈ JsObj.keys (_deletion_index st')) /\
    (forall r loc, r ∈ q -> loc ∈ locations_of (location (store st !!! r)) ->
       loc_key loc ∈ JsObj.keys (_deletion_index st')) /\
    (forall r, r ∉ q -> store st' !!! r = store st !!! r) /\
    _inbound_queue st' = _inbound_queue st.
Proof.
  induction q as [|m q IH]; intros st Hrs Hcache Hnd.
  - exists st. simpl. split_and!; try done.
    + by destruct (on_error (_handlers st)); rewrite app_nil_r.
    + intros r loc Hr. by apply elem_of_nil in Hr.
  - apply NoDup_cons in Hnd as [Hm Hnd]. cbn [map fold_left].
    destruct (second_task_without_return_segments now st m Hrs Hcache)
      as (st1 & -> & He1 & Hd1 & Hs1 & Hq1 & Hh1 & Hc1).
    destruct (IH st1) as (st' & -> & He & Hkeep & Hnames & Hframe & Hq);
      [congruence|congruence|done|].
    exists st'. split_and!; [done| | | | |congruence].
    + rewrite He, He1, Hh1. destruct (on_error (_handlers st)); cbn;
        by rewrite <- app_assoc.
    + intros k Hk. apply Hkeep. rewrite Hd1. by apply message_index_add_keeps.
    + intros r loc [->|Hr]%elem_of_cons Hloc.
      * apply Hkeep. rewrite Hd1. by apply message_index_add_names.
      * apply (Hnames r loc Hr). rewrite Hs1.
        rewrite list_lookup_total_insert_ne; [done|]. by intros ->.
    + intros r [Hne Hr]%not_elem_of_cons. rewrite Hframe by done. rewrite Hs1.
      by rewrite list_lookup_total_insert_ne.
Qed.

(** X20.  A poll whose records are all parts of longer messages, on an
    instance with a [receive_segment] handler that accepts every
    segment but with no [return_segments] handler: the handler is
    given each record in turn; then, in the same order, each record is
    scheduled for deletion and its reassembly fails with a
    [TypeError], reported to the [error] handler if there is one.  The
    [receive] handler is not called and the inbound queue stays
    empty. *)
Theorem unpaired_segment_handler (now : Z) (st : state)
  (fs : heap -> ref -> option js_error) (rv : list message) (st' : state) :
  on_receive_segment (_handlers st) = Some fs -> (forall h r, fs h r = None) ->
  on_return_segments (_handlers st) = None ->
  _inbound_queue st = [] ->
  Forall (fun m => 1 < total_segments m) rv ->
  _receive_messages now st (Parsed rv) = (st', Finished) ->
  events st' =
    events st ++ map EvReceiveSegment (seq (length (store st)) (length rv)) ++
    (if on_error (_handlers st)
     then map (EvErrorReceive TypeError) (seq (length (store st)) (length rv)) else []) /\
  _inbound_queue st' = [] /\
  forall m loc, m ∈ rv -> loc ∈ locations_of (location m) ->
    loc_key loc ∈ JsObj.keys (_deletion_index st').
Proof.
  intros Hfs Haccept Hrs Hq Hall. unfold _receive_messages, _deliver_incoming_messages.
  unfold receive_each. cbn [set_segment_cache store].
  set (st0 := set_store _ _).
  destruct (first_tasks_accepted_segments now fs rv st0 (store st) [] Hfs Haccept eq_refl Hall)
    as (st1 & -> & Hs1 & He1 & Hq1 & Hd1 & Hh1 & Hc1).
  cbn [app].
  destruct (second_tasks_without_return_segments now
              (seq (length (store st)) (length rv)) st1)
    as (st2 & -> & He2 & _ & Hnames & _ & Hq2); [by rewrite Hh1|by rewrite Hc1| |].
  { apply NoDup_seq. }
  cbn [fst]. rewrite Hq2, Hq1. subst st0.
  cbn [set_store set_segment_cache _inbound_queue events _handlers] in *.
  rewrite Hq. cbn [fold_left].
  intros [= <-]. cbn [set_inbound_queue events _deletion_index _inbound_queue].
  split_and!; [|done|].
  - rewrite He2, He1, Hh1. by rewrite <- app_assoc.
  - intros m loc Hm Hloc.
    apply list_elem_of_lookup_1 in Hm as [i Hi].
    apply (Hnames (length (store st) + i)%nat).
    + apply elem_of_seq. apply lookup_lt_Some in Hi. lia.
    + rewrite Hs1.
      assert ((store st ++ map (_transform_received_message now) rv)
                !!! (length (store st) + i)%nat = _transform_received_message now m) as ->.
      { apply list_lookup_total_correct. rewrite lookup_app_r by lia.
        replace (length (store st) + i - length (store st))%nat with i by lia.
        change (map ?g ?l) with (g <$> l). by rewrite list_lookup_fmap, Hi. }
      by rewrite transform_location.
Qed.

Lemma unpaired_segment_handler_witness :
  events (_receive_messages 0 unpaired (Parsed [hello_1; hello_2])).1 =
    [EvReceiveSegment 0; EvReceiveSegment 1;
     EvErrorReceive TypeError 0; EvErrorReceive TypeError 1]%nat /\
  _inbound_queue (_receive_messages 0 unpaired (Parsed [hello_1; hello_2])).1 = [] /\
  forall m loc, m ∈ [hello_1; hello_2] -> loc ∈ locations_of (location m) ->
    loc_key loc
      ∈ JsObj.keys (_deletion_index (_receive_messages 0 unpaired (Parsed [hello_1; hello_2])).1).
Proof.
  apply (unpaired_segment_handler 0 unpaired (fun _ _ => None) [hello_1; hello_2]).
  - reflexivity.
  - reflexivity.
  - reflexivity.
  - reflexivity.
  - repeat constructor.
  - reflexivity.
Defined.

(** ** A complete set of segments *)

Lemma occupants_in_order (ix : JsObj.t nat) (k : nat) :
  (forall i : nat, (i < k)%nat -> is_Some (JsObj.get (seg_key (Z.of_nat (S (S i)))) ix)) ->
  exists rest : list nat, length rest = k /\
    forall (i : nat) r, rest !! i = Some r ->
      JsObj.get (seg_key (Z.of_nat (S (S i)))) ix = Some r.
Proof.
  induction k as [|k IH]; intros Hall.
  - exists []. split; [done|]. intros i r H. by rewrite lookup_nil in H.
  - destruct IH as (rest & Hlen & Hrest); [intros i Hi; apply Hall; lia|].
    destruct (Hall k) as [r Hr]; [lia|].
    exists (rest ++ [r]). split; [rewrite length_app; simpl; lia|].
    intros i r' Hi. destruct (decide (i < length rest)%nat) as [Hlt|Hge].
    + rewrite lookup_app_l in Hi by done. by apply Hrest.
    + rewrite lookup_app_r in Hi by lia.
      destruct (i - length rest)%nat as [|n] eqn:En; [|done].
      injection Hi as <-. by replace i with k by lia.
Qed.

(** X21.  When the segments handed to the engine and the trigger
    between them offer a valid candidate for every segment number from
    1 to the trigger's [total_segments], every valid candidate has a
    parsed [timestamp], no [smsc_timestamp] and a segment number of at
    least 1, the engine returns a composite. *)
Theorem complete_set_is_reassembled (now : Z) (h : heap) (t : ref) (l : list jsval) :
  1 <= total_segments (h !!! t) ->
  (forall n, 1 <= n <= total_segments (h !!! t) ->
     exists r, candidate h t (l ++ [VObj t]) (seg_key n) r) ->
  (forall k r, candidate h t (l ++ [VObj t]) k r ->
     stamped h r /\ smsc_timestamp (h !!! r) = TsUndefined /\
     forall n, segment (h !!! r) = SegNum n -> 1 <= n) ->
  exists h' c, reassemble now h t (SegsArray l) = Ok (h', Some c).
Proof.
  intros Htotal Hfull Hgood. unfold reassemble.
  rewrite build_as_add_segments.
  destruct (add_segments_summary now h t (l ++ [VObj t]) JsObj.empty)
    as (ix & -> & Hsum & Hstamped & Hnd).
  { by intros k o H. }
  { constructor. }
  { intros r Hr Hv. destruct (is_valid_slot h t r Hv) as [k Hk].
    by destruct (Hgood k r) as [? _]. }
  cbn [bind].
  destruct (summarises_from_empty h t _ ix Hsum) as [Hocc Hfree].
  assert (forall n, 1 <= n <= total_segments (h !!! t) ->
            is_Some (JsObj.get (seg_key n) ix)) as Hheld.
  { intros n Hn. destruct (Hfull n Hn) as [r Hr].
    destruct (JsObj.get (seg_key n) ix) eqn:E; [done|]. by destruct (Hfree _ E r). }
  assert (JsObj.keys ix ≡ₚ seg_key <$> seqZ 1 (total_segments (h !!! t))) as Hkeys.
  { apply NoDup_Permutation; [done| |].
    - apply (NoDup_fmap_2 _). apply NoDup_seqZ.
    - intros k. rewrite list_elem_of_fmap. split.
      + intros Hk. destruct (JsObj.get k ix) as [r|] eqn:E.
        2: { by apply JsObjFacts.get_None_keys in E. }
        destruct (Hocc k r E) as [Hc _].
        destruct (Hgood k r Hc) as (_ & _ & Hone).
        destruct Hc as (_ & Hv & Hslot).
        apply is_valid_spec in Hv as (_ & _ & n & Hn & Hle).
        unfold slot_of in Hslot. rewrite Hn in Hslot. injection Hslot as <-.
        exists n. split; [done|]. apply elem_of_seqZ. specialize (Hone n Hn). lia.
      + intros (n & -> & Hn%elem_of_seqZ).
        destruct (Hheld n) as [r Hr]; [lia|]. by eapply JsObjFacts.get_Some_keys. }
  apply Permutation_length in Hkeys. rewrite length_fmap, length_seqZ in Hkeys.
  rewrite Hkeys, Z2Nat.id, Z.eqb_refl by lia.
  destruct (Hheld 1) as [f Hf]; [lia|].
  destruct (occupants_in_order ix (Z.to_nat (total_segments (h !!! t) - 1)))
    as (rest & Hlen & Hrest).
  { intros i Hi. apply Hheld. lia. }
  assert (forall r k, JsObj.get k ix = Some r ->
            stamped h r /\ smsc_timestamp (h !!! r) = TsUndefined /\
            total_segments (h !!! r) = total_segments (h !!! t)) as Hprops.
  { intros r k Hr. destruct (Hocc k r Hr) as [Hc _].
    destruct (Hgood k r Hc) as (? & ? & _). destruct Hc as (_ & Hv & _).
    by apply is_valid_spec in Hv as (_ & ? & _). }
  destruct (Hprops f _ Hf) as (Hfs & Hfsmsc & Hftot).
  destruct (materialise_from_slots now h ix f rest Hf Hrest) as (m & -> & _).
  - rewrite Hftot, Hlen. lia.
  - right. constructor; [exact Hfs|].
    apply Forall_forall. intros v Hv. apply list_elem_of_In, in_map_iff in Hv as (r & <- & Hr).
    apply list_elem_of_In, list_elem_of_lookup_1 in Hr as [i Hi].
    by destruct (Hprops r _ (Hrest i r Hi)) as [? _].
  - left. exact Hfsmsc.
  - cbn. eauto.
Qed.

Lemma complete_set_is_reassembled_witness :
  exists h' c, reassemble 0 plain_parts 1%nat (SegsArray [VObj 0%nat]) = Ok (h', Some c).
Proof.
  apply (complete_set_is_reassembled 0 plain_parts 1%nat [VObj 0%nat]).
  - vm_compute. discriminate.
  - intros n Hn. change (total_segments (plain_parts !!! 1%nat)) with 2 in Hn.
    destruct (decide (n = 1)) as [->|Hne].
    + exists 0%nat. split_and!; [apply list_elem_of_here|reflexivity|reflexivity].
    + assert (n = 2) as -> by lia.
      exists 1%nat.
      split_and!; [apply list_elem_of_further, list_elem_of_here|reflexivity|reflexivity].
  - intros k r (Hr & _ & _).
    apply elem_of_cons in Hr as [[= ->]|Hr].
    { split_and!; [by exists 100|reflexivity|]. intros n [= <-]. lia. }
    apply elem_of_cons in Hr as [[= ->]|Hr]; [|by apply elem_of_nil in Hr].
    split_and!; [by exists 101|reflexivity|]. intros n [= <-]. lia.
Defined.
